(** * ODIE: the indexed query / filter / sort engine

    A shallow embedding of the core of the Offline Disaster Intelligence
    Engine ([odie/models.py], [odie/dsa.py], [odie/indices.py],
    [odie/query_lang.py], [odie/engine.py]) and the properties of its
    specification.

    Conventions of the embedding.
    - Python [int] is [Z]; a list is a [list]; a [dict] is a [gmap].
    - Text is a [string] of ASCII characters; [str.lower], the regular
      expression classes [\s], [\d], [\b] and case-insensitive matching are
      modelled on ASCII.
    - A Python [float] is modelled by its rational value ([Q]); the
      conversions between floats and text are builtins of the runtime, taken
      as parameters ([PyRuntime]).
    - A call that can raise returns a [res]; a method that mutates the
      engine returns the new engine, also when it raises.
    - The depth of the interpreter's stack is counted where the source
      recurses as deep as its data is long (quick sort): the functions
      take the number of frames left and raise [RecursionError] when they
      run out. *)

From Stdlib Require Import ZArith QArith String Ascii List Lia Bool Permutation.
From stdpp Require Import gmap strings list sorting.

(** ** Python values, exceptions and builtins *)

Module py.

(** The exceptions the core can raise (messages are not modelled). *)
Inductive exc : Set :=
| ParseError
| TypeError
| ValueError
| IndexError
| UnicodeDecodeError
| RecursionError.

Inductive res (A : Type) : Type :=
| Ok (a : A)
| Raise (e : exc).
Arguments Ok {A} a.
Arguments Raise {A} e.

Definition bind {A B : Type} (m : res A) (f : A -> res B) : res B :=
  match m with
  | Ok a => f a
  | Raise e => Raise e
  end.

Definition is_ok {A : Type} (m : res A) : bool :=
  match m with Ok _ => true | Raise _ => false end.

(** A call of a Python function takes a frame of the interpreter's stack:
    [frames] is the number of frames the interpreter still allows at the
    call (the recursion limit less the depth of the caller), [body] runs
    with one frame less, and with no frame left the call raises
    [RecursionError]. Only the recursion of quick sort, which is as deep as
    its input is long, is counted in frames. *)
Definition call {A : Type} (frames : nat) (body : nat -> res A) : res A :=
  match frames with
  | O => Raise RecursionError
  | S frames' => body frames'
  end.

(** A call that returns [v] and takes [depth] frames in all, those of the
    callee and of what it calls in turn: none for a builtin, one for a
    function that calls none but builtins. *)
Definition calls {A : Type} (depth frames : nat) (v : A) : res A :=
  if (depth <=? frames)%nat then Ok v else Raise RecursionError.

(** Numbers: [int] and [float], compared by value. *)
Inductive num : Set :=
| NInt (z : Z)
| NFloat (q : Q).

Definition num_val (n : num) : Q :=
  match n with
  | NInt z => inject_Z z
  | NFloat q => q
  end.

Definition num_eq (a b : num) : bool := Qeq_bool (num_val a) (num_val b).
Definition num_le (a b : num) : bool := Qle_bool (num_val a) (num_val b).
Definition num_lt (a b : num) : bool := negb (Qle_bool (num_val b) (num_val a)).
Definition num_gt (a b : num) : bool := num_lt b a.
Definition num_ge (a b : num) : bool := num_le b a.

(** The values a record attribute or a query literal can hold. [VObj s]
    is any other object (a bound method, a class attribute), opaque but
    for its [str()] form [s]. *)
Inductive pyval : Set :=
| VNone
| VNum (n : num)
| VStr (s : string)
| VObj (s : string).

Definition VInt (z : Z) : pyval := VNum (NInt z).
Definition VFloat (q : Q) : pyval := VNum (NFloat q).

(** [a == b] never raises. *)
Definition py_eq (a b : pyval) : bool :=
  match a, b with
  | VNone, VNone => true
  | VNum x, VNum y => num_eq x y
  | VStr x, VStr y => String.eqb x y
  | VObj x, VObj y => String.eqb x y
  | _, _ => false
  end.

(** The ordering comparisons raise [TypeError] unless both sides are
    numbers or both are strings. *)
Definition py_order (fnum : num -> num -> bool)
    (fstr : string -> string -> bool) (a b : pyval) : res bool :=
  match a, b with
  | VNum x, VNum y => Ok (fnum x y)
  | VStr x, VStr y => Ok (fstr x y)
  | _, _ => Raise TypeError
  end.

Definition py_lt := py_order num_lt String.ltb.
Definition py_le := py_order num_le String.leb.
Definition py_gt := py_order num_gt (fun x y => String.ltb y x).
Definition py_ge := py_order num_ge (fun x y => String.leb y x).

(** [str.lower()] on ASCII text. *)
Definition lower_ascii (c : ascii) : ascii :=
  let n := nat_of_ascii c in
  if (65 <=? n)%nat && (n <=? 90)%nat then ascii_of_nat (n + 32) else c.

Fixpoint lower (s : string) : string :=
  match s with
  | EmptyString => EmptyString
  | String c s' => String (lower_ascii c) (lower s')
  end.

(** [str.strip()]: blanks are the characters Python calls whitespace. *)
Definition is_space (c : ascii) : bool :=
  let n := nat_of_ascii c in
  ((9 <=? n)%nat && (n <=? 13)%nat) || ((28 <=? n)%nat && (n <=? 32)%nat).

Fixpoint lstrip (s : string) : string :=
  match s with
  | EmptyString => EmptyString
  | String c s' => if is_space c then lstrip s' else s
  end.

Fixpoint rstrip (s : string) : string :=
  match s with
  | EmptyString => EmptyString
  | String c s' =>
      match rstrip s' with
      | EmptyString => if is_space c then EmptyString else String c EmptyString
      | r => String c r
      end
  end.

Definition strip (s : string) : string := rstrip (lstrip s).

(** [sub in s] for strings. *)
Fixpoint contains (sub s : string) : bool :=
  String.prefix sub s ||
  match s with
  | EmptyString => false
  | String _ s' => contains sub s'
  end.

(** [str(z)] for an integer. *)
Definition digit_char (d : Z) : ascii := ascii_of_nat (48 + Z.to_nat d).

Fixpoint digits_fuel (fuel : nat) (z : Z) (acc : string) : string :=
  match fuel with
  | O => acc
  | S f =>
      let acc' := String (digit_char (z mod 10)) acc in
      if (z <? 10)%Z then acc' else digits_fuel f (z / 10)%Z acc'
  end.

Definition str_int (z : Z) : string :=
  if (z <? 0)%Z
  then String "-" (digits_fuel (S (Z.to_nat (Z.log2 (- z)))) (- z) EmptyString)
  else digits_fuel (S (Z.to_nat (Z.log2 z))) z EmptyString.

(** [sorted(l)] and [l.sort()]: the stable sort by [<]. *)
Section Sorted.
Context {A : Type} (lt : A -> A -> bool).

Fixpoint insert_sorted (x : A) (l : list A) : list A :=
  match l with
  | [] => [x]
  | y :: l' => if lt y x then y :: insert_sorted x l' else x :: y :: l'
  end.

Fixpoint sorted (l : list A) : list A :=
  match l with
  | [] => []
  | x :: l' => insert_sorted x (sorted l')
  end.

(** [l.sort(reverse=True)]: descending, still stable. *)
Definition sorted_reverse (l : list A) : list A :=
  rev (sorted (rev l)).
End Sorted.

(** [l[i]] with Python's negative indices; out of range raises. *)
Definition index {A : Type} (l : list A) (i : Z) : res A :=
  let n := Z.of_nat (length l) in
  let j := if (i <? 0)%Z then (i + n)%Z else i in
  if (j <? 0)%Z then Raise IndexError
  else match l !! Z.to_nat j with
       | Some x => Ok x
       | None => Raise IndexError
       end.

(** [list(range(n))]. *)
Definition range (n : nat) : list Z := Z.of_nat <$> seq 0 n.

(** [list(range(lo, hi))]. *)
Definition range2 (lo hi : Z) : list Z :=
  (fun k => (lo + Z.of_nat k)%Z) <$> seq 0 (Z.to_nat (hi - lo)).

(** [l[i] = x], with Python's negative indices; out of range raises. *)
Definition setitem {A : Type} (l : list A) (i : Z) (x : A) : res (list A) :=
  let n := Z.of_nat (length l) in
  let j := if (i <? 0)%Z then (i + n)%Z else i in
  if (j <? 0)%Z then Raise IndexError
  else if (j <? n)%Z then Ok (<[Z.to_nat j := x]> l)
  else Raise IndexError.

End py.

Export py(exc(..), res(..), num(..), pyval(..), VInt, VFloat).

Global Instance res_ret : MRet res := @Ok.
Global Instance res_bind : MBind res := fun A B f m => py.bind m f.

(** ** [models.py]: the event record *)

Module models.

Record DisasterEvent : Set := {
  event_id : Z;
  dis_no : string;
  country : string;
  disaster_type : string;
  disaster_subtype : string;
  start_year : Z;
  start_month : option Z;
  start_day : option Z;
  end_year : option Z;
  end_month : option Z;
  end_day : option Z;
  total_deaths : option Z;
  total_affected : option Z;
  total_damage_adj_usd : option Q
}.

(** [x or 1] for an optional integer: [None] and [0] are both falsy. *)
Definition or_one (x : option Z) : Z :=
  match x with
  | Some v => if (v =? 0)%Z then 1%Z else v
  | None => 1%Z
  end.

Definition start_date_key (self : DisasterEvent) : Z :=
  let m := or_one (start_month self) in
  let d := or_one (start_day self) in
  (start_year self * 10000 + m * 100 + d)%Z.

End models.

Export models.

(** The builtins of the Python runtime the core calls and this development
    does not reproduce. *)
Class PyRuntime : Type := {
  (** [float(s)] for a numeric token with a decimal point *)
  float_of_literal : string -> Q;
  (** [str(x)] for a float *)
  float_str : Q -> string;
  (** [int(s)] for a string; raises [ValueError] *)
  int_of_str : string -> res Z;
  (** the [unicode_escape] decoding of the UTF-8 encoding of a string;
      raises [UnicodeDecodeError] *)
  unicode_escape : string -> res string;
  (** the attributes of a record object other than its dataclass fields
      (its method and what it inherits from [object]); [None] when the
      object has no attribute of that name *)
  object_attr : DisasterEvent -> string -> option pyval
}.

(** ** [dsa.py]: merge sort, quick sort and the two-pointer intersection *)

Module dsa.

Section MergeSort.
(** Keys of type [K] are compared with Python's [<=] and [>]. *)
Context {T K : Type} (key : T -> K) (le gt : K -> K -> bool).

Fixpoint _merge (reverse : bool) (left right : list T) {struct left} : list T :=
  let fix go (right : list T) {struct right} : list T :=
    match left, right with
    | [], _ => right
    | _, [] => left
    | x :: left', y :: right' =>
        let a := key x in
        let b := key y in
        let take_left := if reverse then gt a b else le a b in
        if take_left then x :: _merge reverse left' right
        else y :: go right'
    end in
  go right.

(** The recursion of [merge_sort] is on the length of [arr]; [fuel]
    bounds its depth. *)
Fixpoint merge_sort_rec (fuel : nat) (reverse : bool) (arr : list T) : list T :=
  match fuel with
  | O => arr
  | S fuel' =>
      if (length arr <=? 1)%nat then arr
      else
        let mid := (length arr / 2)%nat in
        let left := merge_sort_rec fuel' reverse (take mid arr) in
        let right := merge_sort_rec fuel' reverse (drop mid arr) in
        _merge reverse left right
  end.

Definition merge_sort (reverse : bool) (arr : list T) : list T :=
  merge_sort_rec (length arr) reverse arr.
End MergeSort.

Section QuickSort.
(** Keys of type [K] are compared with Python's [<=] and [>=]. Every
    function takes the number of frames left at its call ([py.call]): the
    recursion of [_quick_sort_inplace] is not bounded by the source. A call
    of [key] takes [key_frames] frames ([py.calls]). *)
Context {T K : Type} (key : T -> K) (le ge : K -> K -> bool) (key_frames : nat).

(** [a[i], a[j] = a[j], a[i]]: both reads, then the two writes. *)
Definition swap (a : list T) (i j : Z) : res (list T) :=
  x ← py.index a j;
  y ← py.index a i;
  a ← py.setitem a i x;
  py.setitem a j y.

(** The loop of [_partition] over the [j] of [range(lo, hi)]; [frames] is
    what is left inside [_partition] for the calls of [key]. *)
Fixpoint partition_loop (frames : nat) (reverse : bool) (pivot : K) (js : list Z)
    (a : list T) (i : Z) : res (list T * Z) :=
  match js with
  | [] => Ok (a, i)
  | j :: js' =>
      x ← py.index a j;
      v ← py.calls key_frames frames (key x);
      let cond := if reverse then ge v pivot else le v pivot in
      if cond then
        a ← swap a i j;
        partition_loop frames reverse pivot js' a (i + 1)%Z
      else partition_loop frames reverse pivot js' a i
  end.

(** [_partition] returns the list it has rearranged with the position of
    the pivot. *)
Definition _partition (frames : nat) (reverse : bool) (a : list T) (lo hi : Z)
    : res (list T * Z) :=
  py.call frames (fun frames =>
    p ← py.index a hi;
    pivot ← py.calls key_frames frames (key p);
    '(a, i) ← partition_loop frames reverse pivot (py.range2 lo hi) a lo;
    a ← swap a i hi;
    Ok (a, i)).

(** [_quick_sort_inplace] calls itself on the two sides of the pivot, a
    frame deeper each time: the recursion is on the frames left, and ends
    in [RecursionError] when they run out. The list is returned as the
    call leaves it. *)
Fixpoint _quick_sort_inplace (frames : nat) (reverse : bool) (a : list T)
    (lo hi : Z) : res (list T) :=
  match frames with
  | O => Raise RecursionError
  | S frames' =>
      if (hi <=? lo)%Z then Ok a
      else
        '(a, p) ← _partition frames' reverse a lo hi;
        a ← _quick_sort_inplace frames' reverse a lo (p - 1)%Z;
        _quick_sort_inplace frames' reverse a (p + 1)%Z hi
  end.

Definition quick_sort (frames : nat) (reverse : bool) (arr : list T) : res (list T) :=
  py.call frames (fun frames =>
    _quick_sort_inplace frames reverse arr 0 (Z.of_nat (length arr) - 1)%Z).
End QuickSort.

Fixpoint intersect_sorted (a b : list Z) {struct a} : list Z :=
  let fix go (b : list Z) {struct b} : list Z :=
    match a, b with
    | [], _ => []
    | _, [] => []
    | x :: a', y :: b' =>
        if (x =? y)%Z then x :: intersect_sorted a' b'
        else if (x <? y)%Z then intersect_sorted a' b
        else go b'
    end in
  go b.

End dsa.

(** ** [indices.py]: the lookup tables *)

Module indices.

Record Indices : Type := {
  by_country : gmap string (list Z);
  by_type : gmap string (list Z);
  year_to_ids : gmap Z (list Z);
  years_sorted : list Z
}.

(** [d.setdefault(k, []).append(x)] *)
Definition setdefault_append `{Countable K} (k : K) (x : Z)
    (d : gmap K (list Z)) : gmap K (list Z) :=
  <[k := default [] (d !! k) ++ [x]]> d.

(** [d.get(k, [])] *)
Definition get `{Countable K} (d : gmap K (list Z)) (k : K) : list Z :=
  default [] (d !! k).

(** The first loop of [build_indices]: every event is appended to its
    three buckets. *)
Definition add_event (acc : gmap string (list Z) * gmap string (list Z) * gmap Z (list Z))
    (e : DisasterEvent) :=
  let '(by_country, by_type, year_to_ids) := acc in
  (setdefault_append (country e) (event_id e) by_country,
   setdefault_append (disaster_type e) (event_id e) by_type,
   setdefault_append (start_year e) (event_id e) year_to_ids).

Definition build_indices (events : list DisasterEvent) : Indices :=
  let '(by_country, by_type, year_to_ids) := fold_left add_event events (∅, ∅, ∅) in
  let by_country := py.sorted Z.ltb <$> by_country in
  let by_type := py.sorted Z.ltb <$> by_type in
  let year_to_ids := py.sorted Z.ltb <$> year_to_ids in
  let years_sorted := py.sorted Z.ltb (map_to_list year_to_ids).*1 in
  {| by_country := by_country; by_type := by_type;
     year_to_ids := year_to_ids; years_sorted := years_sorted |}.

(** [bisect.bisect_left] and [bisect.bisect_right]: the loop halves the
    interval [lo, hi); [fuel] bounds the number of iterations. *)
Fixpoint bisect_left_loop (fuel : nat) (a : list Z) (x : Z) (lo hi : nat) : nat :=
  match fuel with
  | O => lo
  | S fuel' =>
      if (lo <? hi)%nat then
        let mid := ((lo + hi) / 2)%nat in
        if (nth mid a 0 <? x)%Z then bisect_left_loop fuel' a x (mid + 1) hi
        else bisect_left_loop fuel' a x lo mid
      else lo
  end.

Definition bisect_left (a : list Z) (x : Z) : nat :=
  bisect_left_loop (length a) a x 0 (length a).

Fixpoint bisect_right_loop (fuel : nat) (a : list Z) (x : Z) (lo hi : nat) : nat :=
  match fuel with
  | O => lo
  | S fuel' =>
      if (lo <? hi)%nat then
        let mid := ((lo + hi) / 2)%nat in
        if (x <? nth mid a 0)%Z then bisect_right_loop fuel' a x lo mid
        else bisect_right_loop fuel' a x (mid + 1) hi
      else lo
  end.

Definition bisect_right (a : list Z) (x : Z) : nat :=
  bisect_right_loop (length a) a x 0 (length a).

(** [a[lo:hi]] for non-negative bounds. *)
Definition slice {A : Type} (a : list A) (lo hi : nat) : list A :=
  take (hi - lo) (drop lo a).

Definition year_range_ids (idx : Indices) (y1 y2 : Z) : list Z :=
  let lo := bisect_left (years_sorted idx) y1 in
  let hi := bisect_right (years_sorted idx) y2 in
  let out := flat_map (fun y => get (year_to_ids idx) y)
               (slice (years_sorted idx) lo hi) in
  py.sorted Z.ltb out.

End indices.

Export (hints, coercions) indices.
Import indices(Indices, by_country, by_type, year_to_ids, years_sorted).

(** ** [query_lang.py]: tokenizer, parser and syntax tree *)

Module query_lang.

Inductive kind : Set :=
| LPAREN | RPAREN | OP | AND | OR | CONTAINS | NUMBER | STRING | IDENT.

Global Instance kind_eq_dec : EqDecision kind.
Proof. solve_decision. Defined.

Record Token : Set := { tkind : kind; tvalue : string }.

(** *** The token pattern [_TOKEN_RE]

    Character classes of the pattern on ASCII: [\s], [\d], the word
    characters of [\b], and the first character of an identifier. *)
Definition is_space (c : ascii) : bool := py.is_space c.

Definition is_digit (c : ascii) : bool :=
  let n := nat_of_ascii c in (48 <=? n) && (n <=? 57).

Definition is_ident_start (c : ascii) : bool :=
  let n := nat_of_ascii c in
  ((65 <=? n) && (n <=? 90)) || ((97 <=? n) && (n <=? 122)) || (n =? 95).

Definition is_word (c : ascii) : bool := is_ident_start c || is_digit c.

(** The longest prefix of [s] whose characters satisfy [p], and the rest. *)
Fixpoint span (p : ascii -> bool) (s : string) : string * string :=
  match s with
  | EmptyString => (EmptyString, EmptyString)
  | String c s' =>
      if p c then let '(w, r) := span p s' in (String c w, r)
      else (EmptyString, s)
  end.

Definition last_char (s : string) (d : option ascii) : option ascii :=
  match String.get (String.length s - 1) s with
  | Some c => Some c
  | None => d
  end.

(** [(?P<OP>==|!=|>=|<=|>|<)] *)
Definition match_op (s : string) : option (string * string) :=
  match s with
  | String "=" (String "=" r) => Some ("==", r)
  | String "!" (String "=" r) => Some ("!=", r)
  | String ">" (String "=" r) => Some (">=", r)
  | String "<" (String "=" r) => Some ("<=", r)
  | String ">" r => Some (">", r)
  | String "<" r => Some ("<", r)
  | _ => None
  end%string.

(** The first [n] characters of [s], and the rest. *)
Fixpoint split_at (n : nat) (s : string) : string * string :=
  match n, s with
  | S n', String c s' => let '(w, r) := split_at n' s' in (String c w, r)
  | _, _ => (EmptyString, s)
  end.

(** [\bword\b], case-insensitive; [prev] is the character before [s] in
    the whole input, if any. *)
Definition match_word (word : string) (prev : option ascii) (s : string)
    : option (string * string) :=
  let '(w, r) := split_at (String.length word) s in
  let boundary_before :=
    match prev with Some c => negb (is_word c) | None => true end in
  let boundary_after :=
    match r with String c _ => negb (is_word c) | EmptyString => true end in
  if boundary_before && String.eqb (py.lower w) word && boundary_after
  then Some (w, r) else None.

(** [(?P<KW>\bAND\b|\bOR\b|\bcontains\b)] *)
Definition match_kw (prev : option ascii) (s : string) : option (string * string) :=
  match match_word "and" prev s with
  | Some m => Some m
  | None =>
      match match_word "or" prev s with
      | Some m => Some m
      | None => match_word "contains" prev s
      end
  end.

(** [(?P<NUMBER>-?\d+(?:\.\d+)?)] *)
Definition match_number (s : string) : option (string * string) :=
  let '(sign, s1) :=
    match s with
    | String c r => if Ascii.eqb c "-" then ("-", r) else (EmptyString, s)
    | EmptyString => (EmptyString, s)
    end%string in
  let '(ds, s2) := span is_digit s1 in
  match ds with
  | EmptyString => None
  | _ =>
      let integer := Some (sign ++ ds, s2) in
      match s2 with
      | String c r =>
          if Ascii.eqb c "." then
            let '(fs, s3) := span is_digit r in
            match fs with
            | EmptyString => integer
            | _ => Some (sign ++ ds ++ "." ++ fs, s3)
            end
          else integer
      | EmptyString => integer
      end
  end%string.

(** The body and closing quote of a string literal for the quote
    character [q]: characters other than [q] and the backslash, or a
    backslash and any character but a newline, up to the first [q]. *)
Fixpoint string_body (q : ascii) (s : string) : option (string * string) :=
  match s with
  | EmptyString => None
  | String c r =>
      if Ascii.eqb c q then Some (String q EmptyString, r)
      else if Ascii.eqb c "092" then
        match r with
        | String d r' =>
            if Ascii.eqb d "010" then None
            else match string_body q r' with
                 | Some (b, rest) => Some (String c (String d b), rest)
                 | None => None
                 end
        | EmptyString => None
        end
      else match string_body q r with
           | Some (b, rest) => Some (String c b, rest)
           | None => None
           end
  end.

(** The alternative [STRING]: a double-quoted or a single-quoted
    literal. *)
Definition match_string (s : string) : option (string * string) :=
  match s with
  | String q r =>
      if Ascii.eqb q "034" || Ascii.eqb q "'" then
        match string_body q r with
        | Some (b, rest) => Some (String q b, rest)
        | None => None
        end
      else None
  | EmptyString => None
  end.

(** The alternative [IDENT]: a letter or underscore, then word
    characters. *)
Definition match_ident (s : string) : option (string * string) :=
  match s with
  | String c r =>
      if is_ident_start c then
        let '(w, rest) := span is_word r in Some (String c w, rest)
      else None
  | EmptyString => None
  end.

(** The alternatives of the pattern, in order, with the named group that
    matched. *)
Inductive group : Set := GLPAREN | GRPAREN | GOP | GKW | GNUMBER | GSTRING | GIDENT.

Definition match_paren (c : ascii) (s : string) : option (string * string) :=
  match s with
  | String c' r => if Ascii.eqb c' c then Some (String c EmptyString, r) else None
  | EmptyString => None
  end.

Definition match_alternatives (prev : option ascii) (s : string)
    : option (group * string * string) :=
  match match_paren "(" s with
  | Some (v, r) => Some (GLPAREN, v, r)
  | None =>
    match match_paren ")" s with
    | Some (v, r) => Some (GRPAREN, v, r)
    | None =>
      match match_op s with
      | Some (v, r) => Some (GOP, v, r)
      | None =>
        match match_kw prev s with
        | Some (v, r) => Some (GKW, v, r)
        | None =>
          match match_number s with
          | Some (v, r) => Some (GNUMBER, v, r)
          | None =>
            match match_string s with
            | Some (v, r) => Some (GSTRING, v, r)
            | None =>
              match match_ident s with
              | Some (v, r) => Some (GIDENT, v, r)
              | None => None
              end
            end
          end
        end
      end
    end
  end.

(** [_TOKEN_RE.match(s, pos)]: leading blanks, one alternative, trailing
    blanks. Returns the group, its text, the last character consumed and
    the input left. *)
Definition token_re_match (prev : option ascii) (s : string)
    : option (group * string * option ascii * string) :=
  let '(ws, s1) := span is_space s in
  match match_alternatives (last_char ws prev) s1 with
  | Some (g, v, s2) =>
      let '(ws', s3) := span is_space s2 in
      Some (g, v, last_char ws' (last_char v None), s3)
  | None => None
  end.

(** The kind and value [tokenize] gives to a match. *)
Definition token_of (g : group) (val : string) : Token :=
  match g with
  | GLPAREN => {| tkind := LPAREN; tvalue := val |}
  | GRPAREN => {| tkind := RPAREN; tvalue := val |}
  | GOP => {| tkind := OP; tvalue := val |}
  | GNUMBER => {| tkind := NUMBER; tvalue := val |}
  | GSTRING => {| tkind := STRING; tvalue := val |}
  | GIDENT => {| tkind := IDENT; tvalue := val |}
  | GKW =>
      let vnorm := py.lower val in
      if String.eqb vnorm "and" then {| tkind := AND; tvalue := "AND" |}
      else if String.eqb vnorm "or" then {| tkind := OR; tvalue := "OR" |}
      else {| tkind := CONTAINS; tvalue := "contains" |}
  end.

(** The loop of [tokenize] over the input left, [s]; every iteration
    consumes a character, so [fuel] = the length of [s] is enough. *)
Fixpoint tokenize_loop (fuel : nat) (prev : option ascii) (s : string)
    : res (list Token) :=
  match fuel with
  | O => Ok []
  | S fuel' =>
      match s with
      | EmptyString => Ok []
      | _ =>
          match token_re_match prev s with
          | None => Raise ParseError
          | Some (g, val, prev', rest) =>
              out ← tokenize_loop fuel' prev' rest;
              Ok (token_of g val :: out)
          end
      end
  end.

Definition tokenize (s : string) : res (list Token) :=
  tokenize_loop (String.length s) None s.

(** *** Syntax tree *)
Inductive Node : Set :=
| And (left right : Node)
| Or (left right : Node)
| Cmp (field : string) (op : string) (value : pyval).

(** *** Parser

    The parser object is its list of tokens left ([self.toks[self.i:]]). *)
Definition parser (A : Type) : Type := list Token -> res (A * list Token).

Definition take (k : kind) : parser Token := fun toks =>
  match toks with
  | [] => Raise ParseError
  | t :: rest => if decide (tkind t = k) then Ok (t, rest) else Raise ParseError
  end.

Definition match_ (kinds : list kind) (toks : list Token)
    : option Token * list Token :=
  match toks with
  | [] => (None, toks)
  | t :: rest =>
      if decide (tkind t ∈ kinds) then (Some t, rest) else (None, toks)
  end.

(** [int(s)] for a numeric token [-?\d+]. *)
Definition digit_val (c : ascii) : Z := Z.of_nat (nat_of_ascii c - 48).

Fixpoint int_of_digits (acc : Z) (s : string) : Z :=
  match s with
  | EmptyString => acc
  | String c s' => int_of_digits (10 * acc + digit_val c)%Z s'
  end.

Definition int_of_literal (s : string) : Z :=
  match s with
  | String "-" r => (- int_of_digits 0 r)%Z
  | _ => int_of_digits 0 s
  end%string.

Section Parser.
Context `{PyRuntime}.

Definition _coerce_value (tok : Token) : res pyval :=
  match tkind tok with
  | NUMBER =>
      if py.contains "." (tvalue tok)
      then Ok (VFloat (float_of_literal (tvalue tok)))
      else Ok (VInt (int_of_literal (tvalue tok)))
  | STRING =>
      let s := tvalue tok in
      match String.get 0 s, last_char s None with
      | Some c0, Some c1 =>
          let s :=
            if Ascii.eqb c0 c1 && (Ascii.eqb c0 "'" || Ascii.eqb c0 "034")
            then String.substring 1 (String.length s - 2) s else s in
          s ← unicode_escape s;
          Ok (VStr s)
      | _, _ => Raise IndexError
      end
  | _ => Ok (VStr (tvalue tok))
  end.

Definition parse_comparison : parser Node := fun toks =>
  '(field, toks) ← take IDENT toks;
  '(op, toks) ←
    match match_ [CONTAINS] toks with
    | (Some _, toks) => Ok ("contains"%string, toks)
    | (None, toks) => '(t, toks) ← take OP toks; Ok (tvalue t, toks)
    end;
  match match_ [NUMBER; STRING; IDENT] toks with
  | (None, _) => Raise ParseError
  | (Some val_tok, toks) =>
      val ← _coerce_value val_tok;
      Ok (Cmp (tvalue field) op val, toks)
  end.

(** [parse_factor], [parse_term] and [parse_expr] call each other; they
    are written over the [parse_expr] they call on the tokens inside a
    pair of parentheses. *)
Definition parse_factor (parse_expr : parser Node) : parser Node := fun toks =>
  match match_ [LPAREN] toks with
  | (Some _, toks) =>
      '(node, toks) ← parse_expr toks;
      '(_, toks) ← take RPAREN toks;
      Ok (node, toks)
  | (None, toks) => parse_comparison toks
  end.

(** The loop of [parse_term] over the [AND] tokens; every iteration
    consumes a token, [n] bounds their number. *)
Fixpoint parse_term_loop (parse_expr : parser Node) (n : nat) (node : Node)
    (toks : list Token) : res (Node * list Token) :=
  match n with
  | O => Ok (node, toks)
  | S n' =>
      match match_ [AND] toks with
      | (Some _, toks) =>
          '(rhs, toks) ← parse_factor parse_expr toks;
          parse_term_loop parse_expr n' (And node rhs) toks
      | (None, toks) => Ok (node, toks)
      end
  end.

Definition parse_term (parse_expr : parser Node) : parser Node := fun toks =>
  '(node, toks) ← parse_factor parse_expr toks;
  parse_term_loop parse_expr (length toks) node toks.

Fixpoint parse_expr_loop (parse_expr : parser Node) (n : nat) (node : Node)
    (toks : list Token) : res (Node * list Token) :=
  match n with
  | O => Ok (node, toks)
  | S n' =>
      match match_ [OR] toks with
      | (Some _, toks) =>
          '(rhs, toks) ← parse_term parse_expr toks;
          parse_expr_loop parse_expr n' (Or node rhs) toks
      | (None, toks) => Ok (node, toks)
      end
  end.

Definition parse_expr_body (parse_expr : parser Node) : parser Node := fun toks =>
  '(node, toks) ← parse_term parse_expr toks;
  parse_expr_loop parse_expr (length toks) node toks.

(** [fuel] bounds the nesting of parentheses; with no token left the
    parser fails on the missing identifier. *)
Fixpoint parse_expr (fuel : nat) : parser Node :=
  match fuel with
  | O => fun _ => Raise ParseError
  | S fuel' => parse_expr_body (parse_expr fuel')
  end.

(** [parse] after tokenizing: a parser on the tokens, one expression, and
    no token left. *)
Definition parse_tokens (toks : list Token) : res Node :=
  '(node, rest) ← parse_expr (S (length toks)) toks;
  match rest with
  | [] => Ok node
  | _ :: _ => Raise ParseError
  end.

Definition parse (expr : string) : res Node :=
  toks ← tokenize expr;
  parse_tokens toks.
End Parser.

End query_lang.

Export query_lang(Node(..), Token(..), kind(..), tkind, tvalue).

(** ** [heapq]: the binary heap of the standard library, on a list *)

Module heapq.

Section Heap.
Context {A : Type} (lt : A -> A -> bool).

(** The loop of [_siftdown]: move the parents that are larger than
    [newitem] one level down. *)
Fixpoint siftdown_loop (fuel : nat) (heap : list A) (newitem : A)
    (startpos pos : nat) : list A * nat :=
  match fuel with
  | O => (heap, pos)
  | S fuel' =>
      if (startpos <? pos)%nat then
        let parentpos := ((pos - 1) / 2)%nat in
        match heap !! parentpos with
        | Some parent =>
            if lt newitem parent
            then siftdown_loop fuel' (<[pos := parent]> heap) newitem startpos parentpos
            else (heap, pos)
        | None => (heap, pos)
        end
      else (heap, pos)
  end.

Definition _siftdown (heap : list A) (startpos pos : nat) : list A :=
  match heap !! pos with
  | Some newitem =>
      let '(heap, pos) := siftdown_loop pos heap newitem startpos pos in
      <[pos := newitem]> heap
  | None => heap
  end.

(** The loop of [_siftup]: bubble the smaller child up until a leaf. *)
Fixpoint siftup_loop (fuel : nat) (heap : list A) (pos : nat) : list A * nat :=
  match fuel with
  | O => (heap, pos)
  | S fuel' =>
      let endpos := length heap in
      let childpos := (2 * pos + 1)%nat in
      if (childpos <? endpos)%nat then
        let rightpos := (childpos + 1)%nat in
        let childpos :=
          match heap !! childpos, heap !! rightpos with
          | Some c, Some r => if negb (lt c r) then rightpos else childpos
          | _, _ => childpos
          end in
        match heap !! childpos with
        | Some c => siftup_loop fuel' (<[pos := c]> heap) childpos
        | None => (heap, pos)
        end
      else (heap, pos)
  end.

Definition _siftup (heap : list A) (pos : nat) : list A :=
  match heap !! pos with
  | Some newitem =>
      let startpos := pos in
      let '(heap, pos) := siftup_loop (length heap) heap pos in
      _siftdown (<[pos := newitem]> heap) startpos pos
  | None => heap
  end.

Definition heappush (heap : list A) (item : A) : list A :=
  _siftdown (heap ++ [item]) 0 (length heap).

(** [heapreplace] raises on an empty heap; the item it returns is not
    used by the engine. *)
Definition heapreplace (heap : list A) (item : A) : res (list A) :=
  match heap with
  | [] => Raise IndexError
  | _ :: _ => Ok (_siftup (<[0%nat := item]> heap) 0)
  end.
End Heap.

End heapq.

(** ** [engine.py]: selection state, history, evaluation and ranking *)

Module engine.

Record QueryState : Type := {
  active_ids : list Z;
  last_sort : option (string * string * bool)
}.

Record ODIE : Type := {
  events : list DisasterEvent;
  idx : Indices;
  dataset_path : option string;
  command_log : list string;
  state : QueryState;
  _undo : list (list Z);
  _redo : list (list Z)
}.

(** Assignments to the attributes of the engine. *)
Definition set_state (self : ODIE) (st : QueryState) : ODIE :=
  {| events := events self; idx := idx self; dataset_path := dataset_path self;
     command_log := command_log self; state := st;
     _undo := _undo self; _redo := _redo self |}.

Definition set_active_ids (self : ODIE) (ids : list Z) : ODIE :=
  set_state self {| active_ids := ids; last_sort := last_sort (state self) |}.

Definition set_undo (self : ODIE) (u : list (list Z)) : ODIE :=
  {| events := events self; idx := idx self; dataset_path := dataset_path self;
     command_log := command_log self; state := state self;
     _undo := u; _redo := _redo self |}.

Definition set_redo (self : ODIE) (r : list (list Z)) : ODIE :=
  {| events := events self; idx := idx self; dataset_path := dataset_path self;
     command_log := command_log self; state := state self;
     _undo := _undo self; _redo := r |}.

(** The constructor with [__post_init__]. *)
Definition new (events : list DisasterEvent) (idx : Indices) : ODIE :=
  {| events := events; idx := idx; dataset_path := None; command_log := [];
     state := {| active_ids := py.range (length events); last_sort := None |};
     _undo := []; _redo := [] |}.

(** *** History: the two stacks grow and shrink at the end of the list *)
Definition _push_history (self : ODIE) : ODIE :=
  let self := set_undo self (_undo self ++ [active_ids (state self)]) in
  set_redo self [].

Definition undo (self : ODIE) : bool * ODIE :=
  match last (_undo self) with
  | None => (false, self)
  | Some top =>
      let self := set_redo self (_redo self ++ [active_ids (state self)]) in
      let self := set_undo self (removelast (_undo self)) in
      (true, set_active_ids self top)
  end.

Definition redo (self : ODIE) : bool * ODIE :=
  match last (_redo self) with
  | None => (false, self)
  | Some top =>
      let self := set_undo self (_undo self ++ [active_ids (state self)]) in
      let self := set_redo self (removelast (_redo self)) in
      (true, set_active_ids self top)
  end.

(** *** Filters *)
Definition reset (self : ODIE) : ODIE :=
  let self := _push_history self in
  set_state self
    {| active_ids := py.range (length (events self)); last_sort := None |}.

Definition filter_country (country : string) (self : ODIE) : ODIE :=
  let self := _push_history self in
  let ids := indices.get (by_country (idx self)) country in
  set_active_ids self
    (dsa.intersect_sorted (py.sorted Z.ltb (active_ids (state self))) ids).

Definition filter_type (dtype : string) (self : ODIE) : ODIE :=
  let self := _push_history self in
  let ids := indices.get (by_type (idx self)) dtype in
  set_active_ids self
    (dsa.intersect_sorted (py.sorted Z.ltb (active_ids (state self))) ids).

Definition filter_year_range (y1 y2 : Z) (self : ODIE) : ODIE :=
  let self := _push_history self in
  let ids := indices.year_range_ids (idx self) y1 y2 in
  set_active_ids self
    (dsa.intersect_sorted (py.sorted Z.ltb (active_ids (state self))) ids).

(** *** Helpers *)

(** The merge loop of [_union_sorted]. *)
Fixpoint union_merge (a b : list Z) {struct a} : list Z :=
  let fix go (b : list Z) {struct b} : list Z :=
    match a, b with
    | [], _ => b
    | _, [] => a
    | x :: a', y :: b' =>
        if (x =? y)%Z then x :: union_merge a' b'
        else if (x <? y)%Z then x :: union_merge a' b
        else y :: go b'
    end in
  go b.

(** The second loop of [_union_sorted]: drop an element equal to the one
    kept last. *)
Fixpoint uniq (prev : option Z) (out : list Z) : list Z :=
  match out with
  | [] => []
  | x :: out' =>
      if decide (prev = Some x) then uniq prev out'
      else x :: uniq (Some x) out'
  end.

Definition _union_sorted (left_ids right_ids : list Z) : list Z :=
  let a := py.sorted Z.ltb left_ids in
  let b := py.sorted Z.ltb right_ids in
  uniq None (union_merge a b).

Definition in_names (f : string) (names : list string) : bool :=
  bool_decide (f ∈ names).

Definition int_or (x : option Z) (d : Z) : num := NInt (default d x).

(** The key functions return a number, never [None]. *)
Definition _field_key (field : string) : res (DisasterEvent -> option num) :=
  let f := py.strip (py.lower field) in
  if in_names f ["deaths"; "total_deaths"] then
    Ok (fun e => Some (int_or (total_deaths e) (-1)))
  else if in_names f ["affected"; "total_affected"] then
    Ok (fun e => Some (int_or (total_affected e) (-1)))
  else if in_names f ["damage"; "damages"; "total_damage"; "total_damage_adj_usd"] then
    Ok (fun e => Some (NFloat (default (-1)%Q (total_damage_adj_usd e))))
  else if in_names f ["year"; "start_year"] then
    Ok (fun e => Some (NInt (start_year e)))
  else if in_names f ["date"; "start_date"] then
    Ok (fun e => Some (NInt (start_date_key e)))
  else Raise ValueError.

Definition opt_int (x : option Z) : pyval :=
  match x with Some z => VInt z | None => VNone end.

Section Evaluation.
Context `{PyRuntime}.

(** [str(v)] and [int(v)]. *)
Definition py_str (v : pyval) : string :=
  match v with
  | VNone => "None"
  | VNum (NInt z) => py.str_int z
  | VNum (NFloat q) => float_str q
  | VStr s => s
  | VObj s => s
  end.

Definition py_int (v : pyval) : res Z :=
  match v with
  | VNum (NInt z) => Ok z
  | VNum (NFloat q) => Ok (Z.quot (Qnum q) (Zpos (Qden q)))
  | VStr s => int_of_str s
  | VNone | VObj _ => Raise TypeError
  end.

(** [getattr(e, fname, None)]: the dataclass fields, then the other
    attributes of the object, else the default. *)
Definition getattr (e : DisasterEvent) (fname : string) : pyval :=
  if String.eqb fname "event_id" then VInt (event_id e)
  else if String.eqb fname "dis_no" then VStr (dis_no e)
  else if String.eqb fname "country" then VStr (country e)
  else if String.eqb fname "disaster_type" then VStr (disaster_type e)
  else if String.eqb fname "disaster_subtype" then VStr (disaster_subtype e)
  else if String.eqb fname "start_year" then VInt (start_year e)
  else if String.eqb fname "start_month" then opt_int (start_month e)
  else if String.eqb fname "start_day" then opt_int (start_day e)
  else if String.eqb fname "end_year" then opt_int (end_year e)
  else if String.eqb fname "end_month" then opt_int (end_month e)
  else if String.eqb fname "end_day" then opt_int (end_day e)
  else if String.eqb fname "total_deaths" then opt_int (total_deaths e)
  else if String.eqb fname "total_affected" then opt_int (total_affected e)
  else if String.eqb fname "total_damage_adj_usd" then
    match total_damage_adj_usd e with Some q => VFloat q | None => VNone end
  else default VNone (object_attr e fname).

(** The inner function [get] of [_make_predicate]. *)
Definition get (field : string) (e : DisasterEvent) : pyval :=
  let fname := py.lower field in
  if String.eqb fname "country" then VStr (country e)
  else if in_names fname ["type"; "disaster_type"] then VStr (disaster_type e)
  else if in_names fname ["subtype"; "disaster_subtype"] then VStr (disaster_subtype e)
  else if in_names fname ["start_year"; "year"] then VInt (start_year e)
  else if in_names fname ["total_deaths"; "deaths"] then
    VNum (int_or (total_deaths e) (-1))
  else if in_names fname ["total_affected"; "affected"] then
    VNum (int_or (total_affected e) (-1))
  else if in_names fname ["damage"; "total_damage_adj_usd"; "damages"] then
    VFloat (default (-1)%Q (total_damage_adj_usd e))
  else if in_names fname ["dis_no"; "disno"] then VStr (dis_no e)
  else getattr e fname.

Definition _make_predicate (cmp_field cmp_op : string) (cmp_value : pyval)
    : res (DisasterEvent -> res bool) :=
  let field := cmp_field in
  let op := cmp_op in
  let val := cmp_value in
  if String.eqb op "contains" then
    let sval := py.lower (py_str val) in
    Ok (fun e => Ok (py.contains sval (py.lower (py_str (get field e)))))
  else if String.eqb op "==" then Ok (fun e => Ok (py.py_eq (get field e) val))
  else if String.eqb op "!=" then Ok (fun e => Ok (negb (py.py_eq (get field e) val)))
  else if String.eqb op ">=" then Ok (fun e => py.py_ge (get field e) val)
  else if String.eqb op "<=" then Ok (fun e => py.py_le (get field e) val)
  else if String.eqb op ">" then Ok (fun e => py.py_gt (get field e) val)
  else if String.eqb op "<" then Ok (fun e => py.py_lt (get field e) val)
  else Raise ValueError.

(** The loop of the fallback scan of [_apply_cmp], before [out.sort()]. *)
Fixpoint scan (events : list DisasterEvent) (pred : DisasterEvent -> res bool)
    (candidate_ids : list Z) : res (list Z) :=
  match candidate_ids with
  | [] => Ok []
  | eid :: rest =>
      e ← py.index events eid;
      b ← pred e;
      out ← scan events pred rest;
      Ok (if b : bool then eid :: out else out)
  end.

(** The last block of [_apply_cmp], the fallback scan. *)
Definition fallback_scan (self : ODIE) (cmp_field cmp_op : string)
    (cmp_value : pyval) (candidate_ids : list Z) : res (list Z) :=
  pred ← _make_predicate cmp_field cmp_op cmp_value;
  out ← scan (events self) pred candidate_ids;
  Ok (py.sorted Z.ltb out).

Definition _apply_cmp (self : ODIE) (cmp_field cmp_op : string)
    (cmp_value : pyval) (candidate_ids : list Z) : res (list Z) :=
  let field := py.lower cmp_field in
  let op := cmp_op in
  if String.eqb op "==" && in_names field ["country"; "disaster_type"] then
    let ids :=
      if String.eqb field "country"
      then indices.get (by_country (idx self)) (py_str cmp_value)
      else indices.get (by_type (idx self)) (py_str cmp_value) in
    Ok (dsa.intersect_sorted (py.sorted Z.ltb candidate_ids) ids)
  else if in_names field ["start_year"; "year"] then
    if String.eqb op "==" then
      y ← py_int cmp_value;
      let ids := indices.get (year_to_ids (idx self)) y in
      Ok (dsa.intersect_sorted (py.sorted Z.ltb candidate_ids) ids)
    else if in_names op [">="; ">"; "<="; "<"] then
      let years := years_sorted (idx self) in
      match years, last years with
      | lo :: _, Some hi =>
          v ← py_int cmp_value;
          let '(lo, hi) :=
            if String.eqb op ">=" then (v, hi)
            else if String.eqb op ">" then ((v + 1)%Z, hi)
            else if String.eqb op "<=" then (lo, v)
            else if String.eqb op "<" then (lo, (v - 1)%Z)
            else (lo, hi) in
          let ids := indices.year_range_ids (idx self) lo hi in
          Ok (dsa.intersect_sorted (py.sorted Z.ltb candidate_ids) ids)
      | _, _ => Ok []
      end
    else fallback_scan self cmp_field cmp_op cmp_value candidate_ids
  else fallback_scan self cmp_field cmp_op cmp_value candidate_ids.

Fixpoint _eval_node (self : ODIE) (node : Node) (candidate_ids : list Z)
    : res (list Z) :=
  match node with
  | And node_left node_right =>
      left_ids ← _eval_node self node_left candidate_ids;
      _eval_node self node_right left_ids
  | Or node_left node_right =>
      left_ids ← _eval_node self node_left candidate_ids;
      right_ids ← _eval_node self node_right candidate_ids;
      Ok (_union_sorted left_ids right_ids)
  | Cmp field op value => _apply_cmp self field op value candidate_ids
  end.

(** [where]: the engine is returned as the call leaves it, also when it
    raises. *)
Definition where_ (expr : string) (self : ODIE) : res () * ODIE :=
  let self := _push_history self in
  match query_lang.parse expr with
  | Raise e => (Raise e, self)
  | Ok ast =>
      match _eval_node self ast (active_ids (state self)) with
      | Raise e => (Raise e, self)
      | Ok ids => (Ok (), set_active_ids self ids)
      end
  end.
End Evaluation.

(** *** Sorting the selection *)

Definition _events_from_ids (self : ODIE) (ids : list Z) : res (list DisasterEvent) :=
  mapM (py.index (events self)) ids.

(** The comparisons of the sorts on the keys [_field_key] gives: a key is
    a number, never [None]. *)
Definition key_cmp (f : num -> num -> bool) (a b : option num) : bool :=
  match a, b with
  | Some x, Some y => f x y
  | _, _ => false
  end.

(** The frames a call of the key function of [_field_key] takes: one for
    the lambda, and for a date one more for the method the lambda calls. *)
Definition key_frames (field : string) : nat :=
  if in_names (py.strip (py.lower field)) ["date"; "start_date"] then 2 else 1.

(** [sort] returns the sorted records and notes the sort in the state;
    the selection itself is not reordered. [frames] is the number of
    frames the interpreter allows at the call of [quick_sort]; the other
    calls of [sort] are shallow and are not counted. *)
Definition sort (frames : nat) (field algo : string) (reverse : bool) (self : ODIE)
    : res (list DisasterEvent) * ODIE :=
  match _field_key field with
  | Raise e => (Raise e, self)
  | Ok key =>
      match _events_from_ids self (active_ids (state self)) with
      | Raise e => (Raise e, self)
      | Ok arr =>
          let out :=
            if String.eqb algo "merge" then
              Ok (dsa.merge_sort key (key_cmp py.num_le) (key_cmp py.num_gt) reverse arr)
            else if String.eqb algo "quick" then
              dsa.quick_sort key (key_cmp py.num_le) (key_cmp py.num_ge)
                (key_frames field) frames reverse arr
            else Raise ValueError in
          match out with
          | Raise e => (Raise e, self)
          | Ok out =>
              (Ok out,
               set_state self
                 {| active_ids := active_ids (state self);
                    last_sort := Some (field, algo, reverse) |})
          end
      end
  end.

(** *** Ranking *)

(** [<] on the pairs [(v, eid)] of the heap. *)
Definition pair_lt (a b : num * Z) : bool :=
  if py.num_eq a.1 b.1 then (a.2 <? b.2)%Z else py.num_lt a.1 b.1.

Fixpoint topk_loop (events : list DisasterEvent) (key : DisasterEvent -> option num)
    (k : Z) (ids : list Z) (heap : list (num * Z)) : res (list (num * Z)) :=
  match ids with
  | [] => Ok heap
  | eid :: rest =>
      e ← py.index events eid;
      match key e with
      | None => topk_loop events key k rest heap
      | Some v =>
          if (Z.of_nat (length heap) <? k)%Z then
            topk_loop events key k rest (heapq.heappush pair_lt heap (v, eid))
          else
            top ← py.index heap 0;
            if py.num_gt v top.1 then
              heap ← heapq.heapreplace pair_lt heap (v, eid);
              topk_loop events key k rest heap
            else topk_loop events key k rest heap
      end
  end.

Definition topk (self : ODIE) (k : Z) (field : string) : res (list DisasterEvent) :=
  key ← _field_key field;
  heap ← topk_loop (events self) key k (active_ids (state self)) [];
  let heap := py.sorted_reverse pair_lt heap in
  mapM (fun p : num * Z => py.index (events self) p.2) heap.

(** *** The two computations timed by [bench] *)
Definition bench_naive (self : ODIE) (country dtype : string) (y1 y2 : Z) : list Z :=
  event_id <$>
    filter (fun e => models.country e = country
                     ∧ disaster_type e = dtype
                     ∧ (y1 ≤ start_year e ≤ y2)%Z)
           (events self).

Definition bench_indexed (self : ODIE) (country dtype : string) (y1 y2 : Z) : list Z :=
  let ids := indices.get (by_country (idx self)) country in
  let ids := dsa.intersect_sorted ids (indices.get (by_type (idx self)) dtype) in
  let ids := dsa.intersect_sorted ids (indices.year_range_ids (idx self) y1 y2) in
  ids.

End engine.

Export engine.

(** * Vocabulary of the specification *)

#[local] Set Warnings "-clear-no-such-hyp".

(** Inversion of a successful sequence [x ← m; k]. *)
Tactic Notation "bind_inv" hyp(H) "as" ident(a) ident(Ha) :=
  match type of H with
  | mbind _ ?m = Ok _ =>
      destruct m as [a|] eqn:Ha; simpl in H; [|discriminate H]
  end.

(** A call of [key] by quick sort, with frames enough and with too
    few. *)
Ltac calls_enough :=
  simpl; unfold py.calls;
  match goal with
  | |- context [(?d <=? ?f)%nat] => destruct (Nat.leb_spec d f) as [_|?]; [|lia]
  end; simpl.

Ltac calls_starved :=
  simpl; unfold py.calls;
  match goal with
  | |- context [(?d <=? ?f)%nat] => destruct (Nat.leb_spec d f) as [?|_]; [lia|]
  end; simpl.

(** The case of a disjunction of cases [name = literal ∧ P] that the
    name at hand selects. *)
Ltac pick_case :=
  first [split; [reflexivity|]|left; split; [reflexivity|]|right; pick_case].

(** A selection fit for [n] events: strictly ascending valid indices. *)
Definition selection (n : nat) (ids : list Z) : Prop :=
  StronglySorted Z.lt ids ∧ Forall (fun i => (0 ≤ i < Z.of_nat n)%Z) ids.

(** The invariant of the engine: the current selection and every snapshot
    on the two stacks are selections. *)
Definition history_ok (self : ODIE) : Prop :=
  let n := length (events self) in
  selection n (active_ids (state self))
  ∧ Forall (selection n) (_undo self)
  ∧ Forall (selection n) (_redo self).

(** The mutating filter operations of the selection/history engine, as a
    caller issues them; a [where] that raises leaves the engine as it is at
    the raise. *)
Inductive filter_op : Type :=
| Reset
| FilterCountry (country : string)
| FilterType (dtype : string)
| FilterYearRange (y1 y2 : Z)
| Where (expr : string).

Inductive command : Type :=
| Filter (op : filter_op)
| Undo
| Redo.

Definition apply_filter `{PyRuntime} (op : filter_op) (self : ODIE) : ODIE :=
  match op with
  | Reset => reset self
  | FilterCountry country => filter_country country self
  | FilterType dtype => filter_type dtype self
  | FilterYearRange y1 y2 => filter_year_range y1 y2 self
  | Where expr => (where_ expr self).2
  end.

Definition run `{PyRuntime} (c : command) (self : ODIE) : ODIE :=
  match c with
  | Filter op => apply_filter op self
  | Undo => (undo self).2
  | Redo => (redo self).2
  end.

Definition run_all `{PyRuntime} (cs : list command) (self : ODIE) : ODIE :=
  fold_left (fun s c => run c s) cs self.

(** *** A small dataset and a runtime to evaluate the definitions on *)

Definition demo_runtime : PyRuntime :=
  {| float_of_literal := fun _ => 0%Q;
     float_str := fun _ => "0.0"%string;
     int_of_str := fun _ => Raise ValueError;
     unicode_escape := fun s => Ok s;
     object_attr := fun _ _ => None |}.

Definition demo_event (i : Z) (c t : string) (y : Z) (deaths : option Z)
    : DisasterEvent :=
  {| event_id := i; dis_no := "D"; country := c; disaster_type := t;
     disaster_subtype := ""; start_year := y; start_month := None;
     start_day := None; end_year := None; end_month := None; end_day := None;
     total_deaths := deaths; total_affected := None;
     total_damage_adj_usd := None |}.

Definition demo_events : list DisasterEvent :=
  [ demo_event 0 "A" "Flood" 2001 None;
    demo_event 1 "B" "Flood" 1999 (Some 5%Z);
    demo_event 2 "A" "Quake" 2001 (Some 7%Z);
    demo_event 3 "A" "Flood" 2005 None ].

Definition demo_engine : ODIE :=
  new demo_events (indices.build_indices demo_events).

(** The small engine with the selection [ids]. *)
Definition demo_engine_on (ids : list Z) : ODIE :=
  set_state demo_engine {| active_ids := ids; last_sort := None |}.

(** The inclusive bounds of a year comparison, as the specification words
    them: [lo = v] for [>=], [lo = v + 1] for [>], [hi = v] for [<=],
    [hi = v - 1] for [<]; the other end is the smallest ([ymin]) or largest
    ([ymax]) indexed year. *)
Definition year_bounds (op : string) (v ymin ymax : Z) : Z * Z :=
  if String.eqb op ">=" then (v, ymax)
  else if String.eqb op ">" then ((v + 1)%Z, ymax)
  else if String.eqb op "<=" then (ymin, v)
  else (ymin, (v - 1)%Z).

(** A dataset as the loader produces it: the id of an event is its
    position in the list. *)
Definition ids_are_positions (events : list DisasterEvent) : Prop :=
  ∀ i e, events !! i = Some e → event_id e = Z.of_nat i.

Definition valid_ids (events : list DisasterEvent) (ids : list Z) : Prop :=
  Forall (fun i => (0 ≤ i < Z.of_nat (length events))%Z) ids.

(** The explicit linear scan of the specification: the candidates whose
    record has the given country, in the order of the candidates. *)
Definition country_at (events : list DisasterEvent) (eid : Z) : option string :=
  match py.index events eid with
  | Ok e => Some (country e)
  | Raise _ => None
  end.

Definition linear_scan_country (events : list DisasterEvent) (x : string)
    (candidates : list Z) : list Z :=
  filter (fun eid => country_at events eid = Some x) candidates.

(** [p] holds of the event a valid id designates. *)
Definition holds_at (events : list DisasterEvent) (p : DisasterEvent → bool)
    (eid : Z) : bool :=
  match py.index events eid with
  | Ok e => p e
  | Raise _ => false
  end.

(** The field names the evaluator knows (the names tested by the accessor of
    [_make_predicate]); any other name goes to the generic attribute
    lookup. *)
Definition supported_fields : list string :=
  ["country"; "type"; "disaster_type"; "subtype"; "disaster_subtype";
   "start_year"; "year"; "total_deaths"; "deaths"; "total_affected";
   "affected"; "damage"; "total_damage_adj_usd"; "damages"; "dis_no"; "disno"].

(** A field that is not supported and whose generic lookup yields [None] on
    every event of the dataset. *)
Definition absent_field `{PyRuntime} (events : list DisasterEvent)
    (field : string) : Prop :=
  (py.lower field ∉ supported_fields)
  ∧ (∀ e, e ∈ events → getattr e (py.lower field) = VNone).

(** Whether a comparison of an absent value with [value] selects the
    record, for the operators that compare [None] without raising. *)
Definition absent_selects `{PyRuntime} (op : string) (value : pyval) : bool :=
  if String.eqb op "==" then py.py_eq VNone value
  else if String.eqb op "!=" then negb (py.py_eq VNone value)
  else py.contains (py.lower (py_str value)) "none".

(** Ids that index the event list without raising (Python accepts the
    negative ones down to minus the length). *)
Definition indexable (events : list DisasterEvent) (ids : list Z) : Prop :=
  Forall (fun i => py.is_ok (py.index events i) = true) ids.

(** *** The grammar of the query language

    [expr := term (OR term)*], [term := factor (AND factor)*],
    [factor := comparison | ( expr )], with the trees built to the left.
    A comparison phrase is a run of tokens [parse_comparison] consumes. *)
Definition comparison_phrase `{PyRuntime} (c : list Token) (n : Node) : Prop :=
  ∀ rest, query_lang.parse_comparison (c ++ rest) = Ok (n, rest).

Definition tAND : Token := {| tkind := AND; tvalue := "AND" |}.
Definition tOR : Token := {| tkind := OR; tvalue := "OR" |}.
Definition tLPAREN : Token := {| tkind := LPAREN; tvalue := "(" |}.
Definition tRPAREN : Token := {| tkind := RPAREN; tvalue := ")" |}.

Inductive level : Set := LFactor | LTerm | LExpr.

Inductive phrase `{PyRuntime} : level → list Token → Node → Prop :=
| phrase_comparison c n :
    comparison_phrase c n → phrase LFactor c n
| phrase_paren e n :
    phrase LExpr e n → phrase LFactor (tLPAREN :: e ++ [tRPAREN]) n
| phrase_factor f n :
    phrase LFactor f n → phrase LTerm f n
| phrase_and t f n1 n2 :
    phrase LTerm t n1 → phrase LFactor f n2 →
    phrase LTerm (t ++ tAND :: f) (And n1 n2)
| phrase_term t n :
    phrase LTerm t n → phrase LExpr t n
| phrase_or e t n1 n2 :
    phrase LExpr e n1 → phrase LTerm t n2 →
    phrase LExpr (e ++ tOR :: t) (Or n1 n2).

(** A parser that consumes at least one token when it succeeds. *)
Definition shrinks (P : query_lang.parser Node) : Prop :=
  ∀ toks n rest, P toks = Ok (n, rest) → (length rest < length toks)%nat.

(** The first token, if any, is not of kind [k]. *)
Definition not_next (k : kind) (toks : list Token) : Prop :=
  match toks with
  | [] => True
  | t :: _ => tkind t ≠ k
  end.

(** *** Binary min-heaps on a list

    [j] is a child of [i]; the order of a heap for the comparison [lt],
    and the order but for what is stored at one position (the hole the
    sifting moves). *)
Definition child_of (i j : nat) : Prop := j = (2 * i + 1)%nat ∨ j = (2 * i + 2)%nat.

Definition heap_le {A : Type} (lt : A → A → bool) (a b : A) : Prop := lt b a = false.

Definition heap_ordered {A : Type} (lt : A → A → bool) (h : list A) : Prop :=
  ∀ i j x y, child_of i j → h !! i = Some x → h !! j = Some y → heap_le lt x y.

Definition heap_ordered_but {A : Type} (lt : A → A → bool) (hole : nat)
    (h : list A) : Prop :=
  ∀ i j x y, child_of i j → i ≠ hole → j ≠ hole →
    h !! i = Some x → h !! j = Some y → heap_le lt x y.

(** The parent of the hole, if any, is below the children of the hole. *)
Definition hole_parent_ok {A : Type} (lt : A → A → bool) (hole : nat)
    (h : list A) : Prop :=
  ∀ g j x y, child_of g hole → child_of hole j →
    h !! g = Some x → h !! j = Some y → heap_le lt x y.

(** [x] can be stored at the hole above the children of the hole. *)
Definition fits_above {A : Type} (lt : A → A → bool) (hole : nat) (x : A)
    (h : list A) : Prop :=
  ∀ j y, child_of hole j → h !! j = Some y → heap_le lt x y.

(** A pair [(v, eid)] of the ranking heap is the key and the id of a
    record. *)
Definition ranked (events : list DisasterEvent) (key : DisasterEvent → option num)
    (p : num * Z) : Prop :=
  ∃ e, py.index events p.2 = Ok e ∧ key e = Some p.1.

(** *** Sorted results

    [l] is in the order [c] of the keys: every record is in order with
    every later one. *)
Definition key_sorted {T K : Type} (key : T → K) (c : K → K → bool)
    (l : list T) : Prop :=
  StronglySorted (fun x y => c (key x) (key y) = true) l.

(** A comparison that is total and transitive, as [<=] and [>=] on
    numbers are. *)
Definition total_order {K : Type} (c : K → K → bool) : Prop :=
  (∀ a b, c a b = true ∨ c b a = true)
  ∧ (∀ a b d, c a b = true → c b d = true → c a d = true).

(** A strict comparison, as [>] on numbers is: asymmetric, and its
    negation is transitive. *)
Definition strict_order {K : Type} (gt : K → K → bool) : Prop :=
  (∀ a b, gt a b = true → gt b a = false)
  ∧ (∀ a b d, gt b a = false → gt d b = false → gt d a = false).

(** The records of [l] whose key is equivalent to [c], in their order. *)
Definition with_key {T K : Type} (key : T → K) (le : K → K → bool) (c : K)
    (l : list T) : list T :=
  filter (fun x => le (key x) c = true ∧ le c (key x) = true) l.

(** The engine after a sort: the state notes the sort, nothing else
    changes. *)
Definition noted_sort (self : ODIE) (field algo : string) (reverse : bool) : ODIE :=
  set_state self
    {| active_ids := active_ids (state self);
       last_sort := Some (field, algo, reverse) |}.

(** What [topk] promises of the records [out] it returns for the selection
    [ids]: they are the records of [kept], the pairs (key, id) of
    [min k n] of the [n] selected ids, in descending order; [dropped] has
    the pairs of the other ids, none with a key above the key of a pair
    kept. *)
Definition top_ranked (events : list DisasterEvent)
    (key : DisasterEvent → option num) (k : Z) (ids : list Z)
    (out : list DisasterEvent) : Prop :=
  ∃ kept dropped : list (num * Z),
    kept.*2 ++ dropped.*2 ≡ₚ ids
    ∧ Forall (ranked events key) (kept ++ dropped)
    ∧ mapM (fun p : num * Z => py.index events p.2) kept = Ok out
    ∧ length kept = (Z.to_nat k `min` length ids)%nat
    ∧ (∀ d h, d ∈ dropped → h ∈ kept → py.num_le d.1 h.1 = true)
    ∧ StronglySorted (flip (heap_le pair_lt)) kept.

(** *** The filters on the indices, as selections of records *)
Definition index_filter (op : filter_op) : Prop :=
  match op with
  | FilterCountry _ | FilterType _ | FilterYearRange _ _ => True
  | Reset | Where _ => False
  end.

(** The records an index filter keeps. *)
Definition selects (op : filter_op) (e : DisasterEvent) : Prop :=
  match op with
  | FilterCountry c => country e = c
  | FilterType t => disaster_type e = t
  | FilterYearRange y1 y2 => (y1 ≤ start_year e ≤ y2)%Z
  | Reset | Where _ => True
  end.

#[export] Instance selects_dec (op : filter_op) (e : DisasterEvent) :
  Decision (selects op e).
Proof. destruct op; simpl; apply _. Defined.

(** The list of ids an index filter intersects the selection with. *)
Definition bucket (idx : Indices) (op : filter_op) : list Z :=
  match op with
  | FilterCountry c => indices.get (by_country idx) c
  | FilterType t => indices.get (by_type idx) t
  | FilterYearRange y1 y2 => indices.year_range_ids idx y1 y2
  | Reset | Where _ => []
  end.

(** The id [i] designates a record that satisfies [P]. *)
Definition record_at (events : list DisasterEvent) (i : Z)
    (P : DisasterEvent → Prop) : Prop :=
  ∃ e, events !! Z.to_nat i = Some e ∧ (0 ≤ i)%Z ∧ P e.

(** A sequence of filter operations, and [n] calls of [undo] (of [redo])
    in a row. *)
Definition apply_filters `{PyRuntime} (ops : list filter_op) (self : ODIE) : ODIE :=
  fold_left (fun s op => apply_filter op s) ops self.

Definition undo_times (n : nat) (self : ODIE) : ODIE :=
  Nat.iter n (fun s => (undo s).2) self.

Definition redo_times (n : nat) (self : ODIE) : ODIE :=
  Nat.iter n (fun s => (redo s).2) self.

(** *** Tokens as the tokenizer makes them

    The tokens of the kinds the parser tests for have one value each. *)
Definition canonical (t : Token) : Prop :=
  match tkind t with
  | AND => t = tAND
  | OR => t = tOR
  | LPAREN => t = tLPAREN
  | RPAREN => t = tRPAREN
  | _ => True
  end.

(** The comparisons of the grammar: an identifier, an operator or
    [contains], and a number, a string or a bare word as value. *)
Definition comparison_tokens `{PyRuntime} (c : list Token) (n : Node) : Prop :=
  ∃ f op v val,
    c = [f; op; v]
    ∧ tkind f = IDENT
    ∧ (tkind op = OP ∨ tkind op = CONTAINS)
    ∧ tkind v ∈ [NUMBER; STRING; IDENT]
    ∧ query_lang._coerce_value v = Ok val
    ∧ n = Cmp (tvalue f)
            (if decide (tkind op = CONTAINS) then "contains"%string else tvalue op)
            val.

(** The number of tokens of a kind. *)
Definition count_kind (k : kind) (toks : list Token) : nat :=
  length (filter (fun t => tkind t = k) toks).

(** A string of blanks only. *)
Fixpoint blank (s : string) : bool :=
  match s with
  | EmptyString => true
  | String c s' => query_lang.is_space c && blank s'
  end.

(** *** Dates and counts *)

(** A month or a day of a start date: the number the record gives, and 1
    when it gives none or gives 0. *)
Definition date_part (x : option Z) : Z :=
  match x with
  | None | Some Z0 => 1%Z
  | Some v => v
  end.

(** The start date of an event, as (year, month, day). *)
Definition date_of (e : DisasterEvent) : Z * Z * Z :=
  (start_year e, date_part (start_month e), date_part (start_day e)).

(** An event that starts on the given year, month and day, for the
    examples. *)
Definition dated_event (i y : Z) (m d : option Z) : DisasterEvent :=
  {| event_id := i; dis_no := "D"; country := "A"; disaster_type := "Flood";
     disaster_subtype := ""; start_year := y; start_month := m;
     start_day := d; end_year := None; end_month := None; end_day := None;
     total_deaths := None; total_affected := None;
     total_damage_adj_usd := None |}.

Definition date_lt (a b : Z * Z * Z) : Prop :=
  (a.1.1 < b.1.1)%Z
  ∨ (a.1.1 = b.1.1 ∧ ((a.1.2 < b.1.2)%Z ∨ (a.1.2 = b.1.2 ∧ (a.2 < b.2)%Z))).

(** A month or a day, if given, is between 0 and 99. *)
Definition two_digits (x : option Z) : Prop :=
  ∀ v, x = Some v → (0 ≤ v ≤ 99)%Z.

(** The comparison of two integers an operator of the query language
    stands for. *)
Definition int_cmp (op : string) (a b : Z) : bool :=
  if String.eqb op "==" then (a =? b)%Z
  else if String.eqb op "!=" then negb (a =? b)%Z
  else if String.eqb op ">=" then (b <=? a)%Z
  else if String.eqb op "<=" then (a <=? b)%Z
  else if String.eqb op ">" then (b <? a)%Z
  else (a <? b)%Z.

(** The optional count a field name of the evaluator designates: deaths
    or people affected. *)
Definition impact_count (field : string) : option (DisasterEvent → option Z) :=
  if in_names (py.lower field) ["total_deaths"; "deaths"] then Some total_deaths
  else if in_names (py.lower field) ["total_affected"; "affected"]
  then Some total_affected
  else None.

(** The fields of the evaluator that hold text. *)
Definition text_field (field : string) : Prop :=
  py.lower field ∈ ["country"; "type"; "disaster_type"; "subtype";
                    "disaster_subtype"; "dis_no"; "disno"]%string.

(** *** The records that match a query

    What it is for a record to match a query, stated on the record alone:
    neither the indices nor the scan of the candidates take part in it. *)

(** The fields of a record under the names a query can give them, with
    the value a comparison sees. An absent count or damage is the sentinel
    [-1] under the names of the evaluator; the optional parts of the dates
    are [None] when absent. *)
Definition field_table : list (list string * (DisasterEvent → pyval)) :=
  [ (["country"], fun e => VStr (country e));
    (["type"; "disaster_type"], fun e => VStr (disaster_type e));
    (["subtype"; "disaster_subtype"], fun e => VStr (disaster_subtype e));
    (["start_year"; "year"], fun e => VInt (start_year e));
    (["total_deaths"; "deaths"], fun e => VInt (default (-1)%Z (total_deaths e)));
    (["total_affected"; "affected"],
     fun e => VInt (default (-1)%Z (total_affected e)));
    (["damage"; "total_damage_adj_usd"; "damages"],
     fun e => VFloat (default (-1)%Q (total_damage_adj_usd e)));
    (["dis_no"; "disno"], fun e => VStr (dis_no e));
    (["event_id"], fun e => VInt (event_id e));
    (["start_month"], fun e => from_option VInt VNone (start_month e));
    (["start_day"], fun e => from_option VInt VNone (start_day e));
    (["end_year"], fun e => from_option VInt VNone (end_year e));
    (["end_month"], fun e => from_option VInt VNone (end_month e));
    (["end_day"], fun e => from_option VInt VNone (end_day e)) ]%string.

Fixpoint lookup_field (name : string)
    (table : list (list string * (DisasterEvent → pyval)))
    : option (DisasterEvent → pyval) :=
  match table with
  | [] => None
  | (names, value) :: rest =>
      if bool_decide (name ∈ names) then Some value else lookup_field name rest
  end.

(** The value of the field [name] (in lower case) of a record; a name
    that is not in the table is an attribute of the object, if the
    runtime knows one, else [None]. *)
Definition field_value `{PyRuntime} (name : string) (e : DisasterEvent) : pyval :=
  match lookup_field name field_table with
  | Some value => value e
  | None => default VNone (object_attr e name)
  end.

(** The value [a] of a field satisfies the comparison [op] with the
    literal [value]: [contains] is the substring test on the string forms
    in lower case, the six others are the native comparisons, which hold
    only where they are defined. *)
Definition satisfies `{PyRuntime} (op : string) (a value : pyval) : Prop :=
  (op = "contains"%string
   ∧ py.contains (py.lower (py_str value)) (py.lower (py_str a)) = true)
  ∨ (op = "=="%string ∧ py.py_eq a value = true)
  ∨ (op = "!="%string ∧ py.py_eq a value = false)
  ∨ (op = ">="%string ∧ py.py_ge a value = Ok true)
  ∨ (op = "<="%string ∧ py.py_le a value = Ok true)
  ∨ (op = ">"%string ∧ py.py_gt a value = Ok true)
  ∨ (op = "<"%string ∧ py.py_lt a value = Ok true).

(** The year [y] satisfies the comparison [op] with the integer [v]. *)
Definition year_satisfies (op : string) (y v : Z) : Prop :=
  (op = "=="%string ∧ y = v)
  ∨ (op = ">="%string ∧ (v ≤ y)%Z)
  ∨ (op = ">"%string ∧ (v < y)%Z)
  ∨ (op = "<="%string ∧ (y ≤ v)%Z)
  ∨ (op = "<"%string ∧ (y < v)%Z).

(** A record matches a comparison, in the three cases of the
    specification: an equality on the country or on the disaster type
    holds when the field is the string form of the literal; an equality
    or an ordering on the start year holds when the year satisfies it
    with the integer the literal converts to; any other comparison holds
    when the value of the field satisfies it with the literal. *)
Definition cmp_matches `{PyRuntime} (field op : string) (value : pyval)
    (e : DisasterEvent) : Prop :=
  let f := py.lower field in
  if decide (op = "=="%string ∧ f = "country"%string) then
    country e = py_str value
  else if decide (op = "=="%string ∧ f = "disaster_type"%string) then
    disaster_type e = py_str value
  else if decide (f ∈ ["start_year"; "year"]%string
                  ∧ op ∈ ["=="; ">="; ">"; "<="; "<"]%string) then
    ∃ v, py_int value = Ok v ∧ year_satisfies op (start_year e) v
  else satisfies op (field_value f e) value.


(** The comparisons the indices serve with the literals of their own
    type: an equality on the country or the disaster type with a string,
    an equality or an ordering on the start year with an integer. *)
Definition index_served (field op : string) (value : pyval) : Prop :=
  (op = "=="%string ∧ py.lower field ∈ ["country"; "disaster_type"]%string
   ∧ ∃ s, value = VStr s)
  ∨ (py.lower field ∈ ["start_year"; "year"]%string
     ∧ op ∈ ["=="; ">="; ">"; "<="; "<"]%string
     ∧ ∃ z, value = VInt z).

(** * Properties *)

(** ** The builtin sort *)

Section SortedFacts.
Context {A : Type} (lt : A -> A -> bool).

Lemma insert_sorted_perm (x : A) (l : list A) :
  py.insert_sorted lt x l ≡ₚ x :: l.
Proof.
  induction l as [|y l IH]; simpl; [done|].
  destruct (lt y x); [|done].
  rewrite IH. apply Permutation_swap.
Qed.

Lemma sorted_perm (l : list A) : py.sorted lt l ≡ₚ l.
Proof.
  induction l as [|x l IH]; simpl; [done|].
  by rewrite insert_sorted_perm, IH.
Qed.

Lemma elem_of_sorted (x : A) (l : list A) : x ∈ py.sorted lt l ↔ x ∈ l.
Proof. by rewrite sorted_perm. Qed.

Lemma sorted_length (l : list A) : length (py.sorted lt l) = length l.
Proof. by rewrite sorted_perm. Qed.

Lemma sorted_reverse_perm (l : list A) : py.sorted_reverse lt l ≡ₚ l.
Proof.
  unfold py.sorted_reverse.
  rewrite <- Permutation_rev, sorted_perm. symmetry. apply Permutation_rev.
Qed.
End SortedFacts.

Lemma insert_sorted_Z_sorted (x : Z) (l : list Z) :
  StronglySorted Z.le l → StronglySorted Z.le (py.insert_sorted Z.ltb x l).
Proof.
  induction 1 as [|y l Hl IH Hy]; simpl.
  - repeat constructor.
  - destruct (Z.ltb_spec y x) as [Hlt|Hge].
    + constructor; [done|].
      rewrite insert_sorted_perm. constructor; [lia|done].
    + constructor; [by constructor|].
      constructor; [done|].
      eapply Forall_impl; [exact Hy|]. intros z Hz. simpl in Hz. lia.
Qed.

Lemma sorted_Z_sorted (l : list Z) : StronglySorted Z.le (py.sorted Z.ltb l).
Proof.
  induction l as [|x l IH]; simpl; [constructor|].
  by apply insert_sorted_Z_sorted.
Qed.

Lemma sorted_Z_id (l : list Z) : StronglySorted Z.le l → py.sorted Z.ltb l = l.
Proof.
  induction 1 as [|x l Hl IH Hx]; simpl; [done|].
  rewrite IH. destruct l as [|y l']; simpl; [done|].
  apply Forall_cons in Hx as [Hxy _].
  destruct (Z.ltb_spec y x); [lia|done].
Qed.

(** Strictly ascending lists. *)
Lemma StronglySorted_lt_le (l : list Z) :
  StronglySorted Z.lt l → StronglySorted Z.le l.
Proof.
  induction 1 as [|x l Hl IH Hx]; constructor; [done|].
  eapply Forall_impl; [exact Hx|]. intros; simpl in *; lia.
Qed.

Lemma StronglySorted_lt_NoDup (l : list Z) : StronglySorted Z.lt l → NoDup l.
Proof.
  induction 1 as [|x l Hl IH Hx]; constructor; [|done].
  intros Hin. rewrite Forall_forall in Hx. specialize (Hx _ Hin). lia.
Qed.

Lemma StronglySorted_le_NoDup_lt (l : list Z) :
  StronglySorted Z.le l → NoDup l → StronglySorted Z.lt l.
Proof.
  induction 1 as [|x l Hl IH Hx]; intros Hnd; [constructor|].
  apply NoDup_cons in Hnd as [Hx' Hnd].
  constructor; [by apply IH|].
  rewrite Forall_forall in Hx |- *. intros y Hy.
  specialize (Hx _ Hy). assert (x ≠ y) by (intros ->; done). lia.
Qed.

Lemma sorted_Z_strict (l : list Z) :
  NoDup l → StronglySorted Z.lt (py.sorted Z.ltb l).
Proof.
  intros Hnd. apply StronglySorted_le_NoDup_lt; [apply sorted_Z_sorted|].
  by rewrite sorted_perm.
Qed.

Lemma sorted_Z_strict_id (l : list Z) :
  StronglySorted Z.lt l → py.sorted Z.ltb l = l.
Proof. intros. by apply sorted_Z_id, StronglySorted_lt_le. Qed.

Lemma StronglySorted_sublist {A : Type} (R : relation A) (l k : list A) :
  l `sublist_of` k → StronglySorted R k → StronglySorted R l.
Proof.
  induction 1 as [|x l k Hs IH|x l k Hs IH]; intros Hk; [done| |].
  - apply StronglySorted_inv in Hk as [Hk Hx].
    constructor; [by apply IH|].
    rewrite Forall_forall in Hx |- *. intros y Hy. apply Hx.
    by eapply elem_of_sublist.
  - apply StronglySorted_inv in Hk as [Hk _]. by apply IH.
Qed.

(** Two strictly ascending lists with the same elements are equal. *)
Lemma StronglySorted_lt_ext (l k : list Z) :
  StronglySorted Z.lt l → StronglySorted Z.lt k →
  (∀ x, x ∈ l ↔ x ∈ k) → l = k.
Proof.
  intros Hl Hk Hx.
  apply (StronglySorted_unique Z.le); try by apply StronglySorted_lt_le.
  apply NoDup_Permutation; auto using StronglySorted_lt_NoDup.
Qed.

(** ** The two-pointer intersection and union *)

Lemma intersect_sorted_nil_r (a : list Z) : dsa.intersect_sorted a [] = [].
Proof. by destruct a. Qed.

Lemma intersect_sorted_cons (x y : Z) (a b : list Z) :
  dsa.intersect_sorted (x :: a) (y :: b) =
    if (x =? y)%Z then x :: dsa.intersect_sorted a b
    else if (x <? y)%Z then dsa.intersect_sorted a (y :: b)
    else dsa.intersect_sorted (x :: a) b.
Proof. done. Qed.

Lemma intersect_sorted_sublist (a b : list Z) :
  dsa.intersect_sorted a b `sublist_of` a.
Proof.
  revert b. induction a as [|x a IHa]; intros b; [by destruct b|].
  induction b as [|y b IHb]; [apply sublist_nil_l|].
  rewrite intersect_sorted_cons.
  destruct (x =? y)%Z; [by constructor|].
  destruct (x <? y)%Z; [by constructor|done].
Qed.

Lemma elem_of_intersect_sorted (a b : list Z) (z : Z) :
  StronglySorted Z.le a → StronglySorted Z.le b →
  z ∈ dsa.intersect_sorted a b ↔ z ∈ a ∧ z ∈ b.
Proof.
  intros Ha. revert b. induction Ha as [|x a Ha IHa Hx]; intros b Hb.
  { destruct b; simpl; set_solver. }
  induction Hb as [|y b Hb IHb Hy].
  { simpl. set_solver. }
  rewrite intersect_sorted_cons.
  rewrite Forall_forall in Hx, Hy.
  destruct (Z.eqb_spec x y) as [->|Hne].
  - rewrite elem_of_cons, IHa by done. rewrite !elem_of_cons.
    split; [naive_solver|].
    intros [[Hz|Hza] [Hz'|Hzb]]; subst; auto.
  - destruct (Z.ltb_spec x y) as [Hlt|Hge].
    + rewrite IHa by (by constructor; [|apply Forall_forall]).
      rewrite !elem_of_cons. split; [naive_solver|].
      intros [[->|Hza] Hzb]; [|by auto].
      exfalso. destruct Hzb as [->|Hzb]; [lia|]. specialize (Hy _ Hzb). lia.
    + rewrite IHb. rewrite !elem_of_cons. split; [naive_solver|].
      intros [Hza [->|Hzb]]; [|by auto].
      exfalso. destruct Hza as [->|Hza]; [lia|]. specialize (Hx _ Hza). lia.
Qed.

Lemma intersect_sorted_strict (a b : list Z) :
  StronglySorted Z.lt a → StronglySorted Z.lt (dsa.intersect_sorted a b).
Proof. apply StronglySorted_sublist, intersect_sorted_sublist. Qed.

Lemma union_merge_cons (x y : Z) (a b : list Z) :
  engine.union_merge (x :: a) (y :: b) =
    if (x =? y)%Z then x :: engine.union_merge a b
    else if (x <? y)%Z then x :: engine.union_merge a (y :: b)
    else y :: engine.union_merge (x :: a) b.
Proof. done. Qed.

Lemma union_merge_nil_r (a : list Z) : engine.union_merge a [] = a.
Proof. by destruct a. Qed.

Lemma elem_of_union_merge (a b : list Z) (z : Z) :
  z ∈ engine.union_merge a b ↔ z ∈ a ∨ z ∈ b.
Proof.
  revert b. induction a as [|x a IHa]; intros b.
  { destruct b; simpl; set_solver. }
  induction b as [|y b IHb]; [simpl; set_solver|].
  rewrite union_merge_cons.
  destruct (Z.eqb_spec x y) as [->|Hne].
  - rewrite !elem_of_cons, IHa. naive_solver.
  - destruct (x <? y)%Z.
    + rewrite !elem_of_cons, IHa, elem_of_cons. naive_solver.
    + rewrite !elem_of_cons, IHb, elem_of_cons. naive_solver.
Qed.

Lemma union_merge_sorted (a b : list Z) :
  StronglySorted Z.le a → StronglySorted Z.le b →
  StronglySorted Z.le (engine.union_merge a b).
Proof.
  intros Ha. revert b. induction Ha as [|x a Ha IHa Hx]; intros b Hb.
  { by destruct b. }
  induction Hb as [|y b Hb IHb Hy].
  { rewrite union_merge_nil_r. by constructor. }
  rewrite union_merge_cons.
  rewrite Forall_forall in Hx, Hy.
  destruct (Z.eqb_spec x y) as [->|Hne].
  - constructor; [by apply IHa|].
    apply Forall_forall. intros z Hz. apply elem_of_union_merge in Hz as [?|?]; auto.
  - destruct (Z.ltb_spec x y) as [Hlt|Hge].
    + constructor; [apply IHa; by constructor; [|apply Forall_forall]|].
      apply Forall_forall. intros z Hz.
      apply elem_of_union_merge in Hz as [?|Hz]; [by auto|].
      apply elem_of_cons in Hz as [->|Hz]; [lia|]. specialize (Hy _ Hz). lia.
    + constructor; [done|].
      apply Forall_forall. intros z Hz.
      apply elem_of_union_merge in Hz as [Hz|?]; [|by auto].
      apply elem_of_cons in Hz as [->|Hz]; [lia|]. specialize (Hx _ Hz). lia.
Qed.

Lemma elem_of_uniq (prev : option Z) (l : list Z) (z : Z) :
  z ∈ engine.uniq prev l → z ∈ l.
Proof.
  revert prev. induction l as [|x l IH]; intros prev; simpl; [done|].
  case_decide; rewrite ?elem_of_cons; naive_solver.
Qed.

Lemma uniq_sorted (prev : option Z) (l : list Z) :
  StronglySorted Z.le l →
  (∀ p, prev = Some p → Forall (Z.le p) l) →
  StronglySorted Z.lt (engine.uniq prev l)
  ∧ (∀ p, prev = Some p → Forall (Z.lt p) (engine.uniq prev l))
  ∧ (∀ z, z ∈ l → z ∈ engine.uniq prev l ∨ prev = Some z).
Proof.
  intros Hl. revert prev. induction Hl as [|x l Hl IH Hx]; intros prev Hp; simpl.
  { split_and!; [constructor|by constructor|set_solver]. }
  case_decide as Hd.
  - subst prev. destruct (IH (Some x)) as (H1 & H2 & H3).
    { intros p [= <-]. done. }
    split_and!; [done|done|].
    intros z [->|Hz]%elem_of_cons; auto.
  - destruct (IH (Some x)) as (H1 & H2 & H3).
    { intros p [= <-]. done. }
    split_and!.
    + constructor; [done|]. by apply H2.
    + intros p ->. specialize (Hp p eq_refl).
      apply Forall_cons in Hp as [Hpx Hpl].
      constructor; [assert (p ≠ x) by congruence; lia|].
      eapply Forall_impl; [by apply H2|]. intros; simpl in *; lia.
    + intros z [->|Hz]%elem_of_cons; [left; left|].
      destruct (H3 z Hz) as [?|[= ->]]; [left; by right|left; left].
Qed.

Lemma union_sorted_strict (a b : list Z) :
  StronglySorted Z.lt (engine._union_sorted a b).
Proof.
  unfold engine._union_sorted.
  apply (uniq_sorted None); [|done].
  apply union_merge_sorted; apply sorted_Z_sorted.
Qed.

Lemma elem_of_union_sorted (a b : list Z) (z : Z) :
  z ∈ engine._union_sorted a b ↔ z ∈ a ∨ z ∈ b.
Proof.
  unfold engine._union_sorted. split.
  - intros Hz%elem_of_uniq. apply elem_of_union_merge in Hz.
    by rewrite !elem_of_sorted in Hz.
  - intros Hz.
    assert (z ∈ engine.union_merge (py.sorted Z.ltb a) (py.sorted Z.ltb b)) as Hm.
    { apply elem_of_union_merge. by rewrite !elem_of_sorted. }
    destruct (uniq_sorted None (engine.union_merge (py.sorted Z.ltb a) (py.sorted Z.ltb b)))
      as (_ & _ & H3); [|done|].
    { apply union_merge_sorted; apply sorted_Z_sorted. }
    by destruct (H3 z Hm).
Qed.

(** ** Evaluation of a query: shape of the result *)

Lemma selection_range (n : nat) : selection n (py.range n).
Proof.
  unfold selection, py.range. split.
  - apply (StronglySorted_fmap _ lt Z.lt); [intros x y; lia|].
    apply Sorted_StronglySorted; [intros x y z; lia|].
    generalize 0%nat. induction n as [|n IH]; intros s; simpl; [constructor|].
    constructor; [apply IH|]. destruct n; simpl; constructor. lia.
  - apply Forall_fmap, Forall_forall. intros i Hi%elem_of_seq. simpl. lia.
Qed.

Lemma selection_subset (n : nat) (l k : list Z) :
  StronglySorted Z.lt l → l ⊆ k → Forall (fun i => (0 ≤ i < Z.of_nat n)%Z) k →
  selection n l.
Proof.
  intros Hl Hlk Hk. split; [done|].
  rewrite Forall_forall in Hk |- *. intros x Hx. by apply Hk, Hlk.
Qed.

Lemma intersect_sorted_result (c ids : list Z) :
  NoDup c →
  StronglySorted Z.lt (dsa.intersect_sorted (py.sorted Z.ltb c) ids)
  ∧ dsa.intersect_sorted (py.sorted Z.ltb c) ids ⊆ c.
Proof.
  intros Hc. split.
  - by apply intersect_sorted_strict, sorted_Z_strict.
  - intros x Hx. eapply elem_of_sublist in Hx; [|apply intersect_sorted_sublist].
    by apply elem_of_sorted in Hx.
Qed.

Lemma scan_sublist (events : list DisasterEvent) (pred : DisasterEvent → res bool)
    (c out : list Z) :
  engine.scan events pred c = Ok out → out `sublist_of` c.
Proof.
  revert out. induction c as [|eid c IH]; intros out Hs; simpl in Hs.
  { by injection Hs as <-. }
  bind_inv Hs as e He. bind_inv Hs as b Hb. bind_inv Hs as out' Hout.
  injection Hs as <-.
  destruct b; [constructor|constructor]; by apply IH.
Qed.

Section EvalShape.
Context `{PyRuntime}.

Lemma apply_cmp_shape (self : ODIE) (f op : string) (v : pyval) (c r : list Z) :
  NoDup c → engine._apply_cmp self f op v c = Ok r →
  StronglySorted Z.lt r ∧ r ⊆ c.
Proof.
  intros Hc. unfold engine._apply_cmp.
  assert (∀ r, fallback_scan self f op v c = Ok r →
               StronglySorted Z.lt r ∧ r ⊆ c) as Hscan.
  { clear r. unfold fallback_scan. intros r Hr. bind_inv Hr as pred Hp. bind_inv Hr as out Ho.
    injection Hr as <-. apply scan_sublist in Ho. split.
    - apply sorted_Z_strict. by eapply sublist_NoDup.
    - intros x Hx%elem_of_sorted. by eapply elem_of_sublist. }
  repeat case_match; intros Hr; try (by apply Hscan);
    try (bind_inv Hr as y Hy); repeat case_match; simplify_eq;
    try (by apply intersect_sorted_result);
    (split; [constructor|set_solver]).
Qed.

Lemma eval_node_shape (self : ODIE) (node : Node) (c r : list Z) :
  NoDup c → engine._eval_node self node c = Ok r →
  StronglySorted Z.lt r ∧ r ⊆ c.
Proof.
  revert c r. induction node as [l IHl rt IHr|l IHl rt IHr|f op v];
    intros c r Hc Hr; simpl in Hr.
  - bind_inv Hr as r1 Ha. destruct (IHl _ _ Hc Ha) as [Hs1 Hsub1].
    destruct (IHr _ _ (StronglySorted_lt_NoDup _ Hs1) Hr) as [Hs2 Hsub2].
    split; [done|]. set_solver.
  - bind_inv Hr as r1 Ha. bind_inv Hr as r2 Hb. injection Hr as <-.
    destruct (IHl _ _ Hc Ha) as [_ Hsub1].
    destruct (IHr _ _ Hc Hb) as [_ Hsub2].
    split; [apply union_sorted_strict|].
    intros x Hx%elem_of_union_sorted. set_solver.
  - by eapply apply_cmp_shape.
Qed.
End EvalShape.

(** ** The selection invariant and the history stacks *)

Lemma last_snoc_removelast {A : Type} (l : list A) (x : A) :
  last (l ++ [x]) = Some x ∧ removelast (l ++ [x]) = l.
Proof. split; [apply last_snoc|apply removelast_last]. Qed.

Lemma last_Some_snoc {A : Type} (l : list A) (x : A) :
  last l = Some x → l = removelast l ++ [x].
Proof.
  intros Hl. destruct l as [|y l] using rev_ind; [done|].
  rewrite last_snoc in Hl. injection Hl as ->. by rewrite removelast_last.
Qed.

Section History.
Context `{PyRuntime}.

Lemma push_history_ok (self : ODIE) :
  history_ok self → history_ok (_push_history self).
Proof.
  intros (Ha & Hu & Hr). unfold history_ok; simpl. split_and!; [done| |done].
  apply Forall_app. split; [done|]. by constructor.
Qed.

Lemma filter_result_ok (self : ODIE) (ids : list Z) :
  history_ok self →
  history_ok (set_active_ids (_push_history self)
    (dsa.intersect_sorted (py.sorted Z.ltb (active_ids (state self))) ids)).
Proof.
  intros Hok. destruct (push_history_ok _ Hok) as (_ & Hu & Hr).
  destruct Hok as ([Hs Hv] & _ & _).
  unfold history_ok; simpl. split_and!; [|done|done].
  destruct (intersect_sorted_result (active_ids (state self)) ids) as [Hs' Hsub].
  { by apply StronglySorted_lt_NoDup. }
  by eapply selection_subset.
Qed.

Lemma where_ok (expr : string) (self : ODIE) :
  history_ok self → history_ok (where_ expr self).2.
Proof.
  intros Hok. pose proof (push_history_ok _ Hok) as Hp.
  unfold where_. destruct (query_lang.parse expr) as [ast|e]; [|done].
  destruct (_eval_node _ ast _) as [ids|e] eqn:He; [|done].
  destruct Hp as (_ & Hu & Hr). destruct Hok as ([Hs Hv] & _ & _).
  simpl in He. apply eval_node_shape in He as [Hs' Hsub];
    [|by apply StronglySorted_lt_NoDup].
  unfold history_ok; simpl. split_and!; [|done|done].
  by eapply selection_subset.
Qed.

Lemma undo_ok (self : ODIE) : history_ok self → history_ok (undo self).2.
Proof.
  intros (Ha & Hu & Hr). unfold undo.
  destruct (last (_undo self)) as [top|] eqn:Hl; [|done].
  apply last_Some_snoc in Hl. rewrite Hl in Hu.
  apply Forall_app in Hu as [Hu Htop]. rewrite Forall_singleton in Htop.
  unfold history_ok; simpl. split_and!; [done|done|].
  apply Forall_app. split; [done|by constructor].
Qed.

Lemma redo_ok (self : ODIE) : history_ok self → history_ok (redo self).2.
Proof.
  intros (Ha & Hu & Hr). unfold redo.
  destruct (last (_redo self)) as [top|] eqn:Hl; [|done].
  apply last_Some_snoc in Hl. rewrite Hl in Hr.
  apply Forall_app in Hr as [Hr Htop]. rewrite Forall_singleton in Htop.
  unfold history_ok; simpl. split_and!; [done| |done].
  apply Forall_app. split; [done|by constructor].
Qed.

Lemma run_ok (c : command) (self : ODIE) :
  history_ok self → history_ok (run c self).
Proof.
  intros Hok. destruct c as [[]| |]; simpl.
  - destruct (push_history_ok _ Hok) as (_ & Hu & Hr).
    unfold history_ok; simpl. split_and!; [apply selection_range|done|done].
  - exact (filter_result_ok self _ Hok).
  - exact (filter_result_ok self _ Hok).
  - exact (filter_result_ok self _ Hok).
  - by apply where_ok.
  - by apply undo_ok.
  - by apply redo_ok.
Qed.

Lemma run_events (c : command) (self : ODIE) :
  events (run c self) = events self.
Proof.
  destruct c as [[]| |]; simpl; try done.
  - unfold where_. by repeat case_match.
  - unfold undo. by case_match.
  - unfold redo. by case_match.
Qed.

Lemma new_ok (events : list DisasterEvent) (idx : Indices) :
  history_ok (new events idx).
Proof.
  unfold history_ok; simpl. split_and!; [apply selection_range|done|done].
Qed.

(** C10. After the construction of the engine and after every sequence
    of [reset], [filter_country], [filter_type], [filter_year_range],
    [where] (successful or not), [undo] and [redo], the current
    selection is a strictly ascending, duplicate-free list of valid
    indices into the event list, whatever the indices hold. *)
Theorem active_ids_always_sorted_valid (events : list DisasterEvent)
    (idx : Indices) (cs : list command) :
  let self := run_all cs (new events idx) in
  StronglySorted Z.lt (active_ids (state self))
  ∧ NoDup (active_ids (state self))
  ∧ Forall (fun i => (0 ≤ i < Z.of_nat (length events))%Z)
      (active_ids (state self)).
Proof.
  simpl.
  assert (history_ok (run_all cs (new events idx))
          ∧ engine.events (run_all cs (new events idx)) = events) as [Hok He].
  { unfold run_all. induction cs as [|c cs IH] using rev_ind; simpl.
    - split; [apply new_ok|done].
    - rewrite fold_left_app. simpl. destruct IH as [IH1 IH2].
      split; [by apply run_ok|]. by rewrite run_events. }
  destruct Hok as ([Hs Hv] & _ & _). rewrite He in Hv.
  split_and!; [done|by apply StronglySorted_lt_NoDup|done].
Qed.

Lemma apply_filter_history (op : filter_op) (self : ODIE) :
  _undo (apply_filter op self) = _undo self ++ [active_ids (state self)]
  ∧ _redo (apply_filter op self) = [].
Proof.
  destruct op; simpl; try done.
  unfold where_. by repeat case_match.
Qed.

Lemma where_parse_error (expr : string) (e : exc) (self : ODIE) :
  query_lang.parse expr = Raise e →
  where_ expr self = (Raise e, _push_history self).
Proof. intros Hp. unfold where_. by rewrite Hp. Qed.

(** C8. From any engine state, a mutating filter operation followed by
    [undo] gives back the selection the engine had, ID for ID, and
    [redo] right after that [undo] gives back the filtered selection;
    both report success. With an empty undo (redo) stack, [undo]
    ([redo]) returns [False] and the engine is unchanged. *)
Theorem undo_redo_round_trip (op : filter_op) (self : ODIE) :
  let filtered := apply_filter op self in
  let undone := (undo filtered).2 in
  (undo filtered).1 = true
  ∧ active_ids (state undone) = active_ids (state self)
  ∧ (redo undone).1 = true
  ∧ active_ids (state (redo undone).2) = active_ids (state filtered)
  ∧ undo (set_undo self []) = (false, set_undo self [])
  ∧ redo (set_redo self []) = (false, set_redo self []).
Proof.
  simpl. destruct (apply_filter_history op self) as [Hu Hr].
  unfold undo at 1 2 3 4. rewrite Hu, last_snoc. simpl.
  unfold redo at 1 2. simpl. rewrite Hr. simpl.
  by split_and!.
Qed.
End History.

(** ** The index builder *)

Section Buckets.
Context `{Countable K} (key : DisasterEvent → K).

Lemma fold_setdefault_append (events : list DisasterEvent) (d : gmap K (list Z)) (k : K) :
  let d' := fold_left (fun d e => indices.setdefault_append (key e) (event_id e) d)
              events d in
  indices.get d' k = indices.get d k ++ (event_id <$> filter (fun e => key e = k) events)
  ∧ (is_Some (d' !! k) ↔ is_Some (d !! k) ∨ ∃ e, e ∈ events ∧ key e = k).
Proof.
  revert d. induction events as [|e events IH]; intros d; simpl.
  { split; [by rewrite app_nil_r|]. split; [by left|]. intros [?|(e & []%elem_of_nil & _)]. done. }
  destruct (IH (indices.setdefault_append (key e) (event_id e) d)) as [IH1 IH2].
  simpl in IH1, IH2. rewrite IH1, IH2. clear IH IH1 IH2.
  unfold indices.setdefault_append, indices.get.
  rewrite filter_cons. destruct (decide (key e = k)) as [<-|Hne].
  - rewrite lookup_insert_eq. simpl. rewrite <- app_assoc. split; [done|].
    split; [|intros _; left; by eexists].
    intros _. right. exists e. split; [left|done].
  - rewrite lookup_insert_ne by done. split; [done|].
    split.
    + intros [?|(e' & He' & Hk)]; [by left|]. right. exists e'. split; [by right|done].
    + intros [?|(e' & He' & Hk)]; [by left|]. right. exists e'. split; [|done].
      apply elem_of_cons in He' as [->|He']; [done|done].
Qed.
End Buckets.

Lemma fold_add_event (events : list DisasterEvent)
    (bc bt : gmap string (list Z)) (yi : gmap Z (list Z)) :
  fold_left indices.add_event events (bc, bt, yi) =
    (fold_left (fun d e => indices.setdefault_append (country e) (event_id e) d) events bc,
     fold_left (fun d e => indices.setdefault_append (disaster_type e) (event_id e) d) events bt,
     fold_left (fun d e => indices.setdefault_append (start_year e) (event_id e) d) events yi).
Proof.
  revert bc bt yi. induction events as [|e events IH]; intros bc bt yi; simpl; [done|].
  by rewrite IH.
Qed.

Lemma get_fmap_sorted `{Countable K} (d : gmap K (list Z)) (k : K) :
  indices.get (py.sorted Z.ltb <$> d) k = py.sorted Z.ltb (indices.get d k).
Proof. unfold indices.get. rewrite lookup_fmap. by destruct (d !! k). Qed.

(** The ids of the events that satisfy [P], in the order of the events. *)
Lemma build_indices_by_country (events : list DisasterEvent) (c : string) :
  indices.get (by_country (indices.build_indices events)) c =
    py.sorted Z.ltb (event_id <$> filter (fun e => country e = c) events).
Proof.
  unfold indices.build_indices. rewrite fold_add_event. simpl.
  rewrite get_fmap_sorted.
  by destruct (fold_setdefault_append country events ∅ c) as [-> _].
Qed.

Lemma build_indices_by_type (events : list DisasterEvent) (t : string) :
  indices.get (by_type (indices.build_indices events)) t =
    py.sorted Z.ltb (event_id <$> filter (fun e => disaster_type e = t) events).
Proof.
  unfold indices.build_indices. rewrite fold_add_event. simpl.
  rewrite get_fmap_sorted.
  by destruct (fold_setdefault_append disaster_type events ∅ t) as [-> _].
Qed.

Lemma build_indices_year_to_ids (events : list DisasterEvent) (y : Z) :
  indices.get (year_to_ids (indices.build_indices events)) y =
    py.sorted Z.ltb (event_id <$> filter (fun e => start_year e = y) events).
Proof.
  unfold indices.build_indices. rewrite fold_add_event. simpl.
  rewrite get_fmap_sorted.
  by destruct (fold_setdefault_append start_year events ∅ y) as [-> _].
Qed.

Lemma build_indices_years_sorted (events : list DisasterEvent) :
  StronglySorted Z.lt (years_sorted (indices.build_indices events))
  ∧ ∀ y, y ∈ years_sorted (indices.build_indices events)
         ↔ ∃ e, e ∈ events ∧ start_year e = y.
Proof.
  unfold indices.build_indices. rewrite fold_add_event. simpl. split.
  - apply sorted_Z_strict, NoDup_fst_map_to_list.
  - intros y. rewrite elem_of_sorted.
    rewrite list_elem_of_fmap. split.
    + intros ([y' l] & -> & Hl%elem_of_map_to_list). simpl.
      rewrite lookup_fmap in Hl.
      destruct (fold_setdefault_append start_year events ∅ y') as [_ Hs].
      simpl in Hs. destruct Hs as [Hs _].
      destruct Hs as [Hs|Hs]; [|by rewrite lookup_empty in Hs; destruct Hs|done].
      destruct (fold_left _ events ∅ !! y'); [by eexists|done].
    + intros He.
      destruct (fold_setdefault_append start_year events ∅ y) as [_ Hs].
      simpl in Hs. destruct Hs as [_ Hs]. destruct Hs as [l Hl]; [by right|].
      exists (y, py.sorted Z.ltb l). split; [done|].
      apply elem_of_map_to_list. by rewrite lookup_fmap, Hl.
Qed.

(** ** Binary search and the year range *)

Lemma sorted_nth_le (a : list Z) (i j : nat) :
  StronglySorted Z.le a → (i ≤ j < length a)%nat → (nth i a 0 ≤ nth j a 0)%Z.
Proof.
  intros Ha. revert i j. induction Ha as [|x a Ha IH Hx]; intros i j Hij; simpl in *.
  { lia. }
  destruct i as [|i], j as [|j]; try lia.
  - rewrite Forall_forall in Hx. apply Hx.
    apply list_elem_of_In, nth_In. lia.
  - apply IH. lia.
Qed.

Lemma div2_between (lo hi : nat) :
  (lo < hi)%nat → (lo ≤ (lo + hi) / 2 < hi)%nat.
Proof.
  intros Hlt. pose proof (Nat.div_mod_eq (lo + hi) 2) as Hd.
  pose proof (Nat.mod_upper_bound (lo + hi) 2). lia.
Qed.

Lemma bisect_left_loop_S (fuel : nat) (a : list Z) (x : Z) (lo hi : nat) :
  indices.bisect_left_loop (S fuel) a x lo hi =
    if (lo <? hi)%nat then
      if (nth ((lo + hi) / 2) a 0 <? x)%Z
      then indices.bisect_left_loop fuel a x ((lo + hi) / 2 + 1) hi
      else indices.bisect_left_loop fuel a x lo ((lo + hi) / 2)
    else lo.
Proof. done. Qed.

Lemma bisect_right_loop_S (fuel : nat) (a : list Z) (x : Z) (lo hi : nat) :
  indices.bisect_right_loop (S fuel) a x lo hi =
    if (lo <? hi)%nat then
      if (x <? nth ((lo + hi) / 2) a 0)%Z
      then indices.bisect_right_loop fuel a x lo ((lo + hi) / 2)
      else indices.bisect_right_loop fuel a x ((lo + hi) / 2 + 1) hi
    else lo.
Proof. done. Qed.

Lemma bisect_left_loop_spec (fuel : nat) (a : list Z) (x : Z) (lo hi : nat) :
  StronglySorted Z.le a →
  (lo ≤ hi ≤ length a)%nat → (hi - lo ≤ fuel)%nat →
  (∀ j, (j < lo)%nat → (nth j a 0 < x)%Z) →
  (∀ j, (hi ≤ j < length a)%nat → (x ≤ nth j a 0)%Z) →
  let r := indices.bisect_left_loop fuel a x lo hi in
  (r ≤ length a)%nat
  ∧ (∀ j, (j < r)%nat → (nth j a 0 < x)%Z)
  ∧ (∀ j, (r ≤ j < length a)%nat → (x ≤ nth j a 0)%Z).
Proof.
  intros Ha. revert lo hi. induction fuel as [|fuel IH]; intros lo hi Hb Hf Hlo Hhi.
  { simpl. assert (lo = hi) as -> by lia. split_and!; [lia|done|done]. }
  cbv zeta. rewrite bisect_left_loop_S.
  destruct (Nat.ltb_spec lo hi) as [Hlt|Hge].
  - pose proof (div2_between lo hi Hlt) as Hmid.
    destruct (Z.ltb_spec (nth ((lo + hi) / 2) a 0%Z) x) as [Hc|Hc].
    + apply IH; [lia|lia| |done].
      intros j Hj. eapply Z.le_lt_trans; [|exact Hc].
      apply sorted_nth_le; [done|lia].
    + apply IH; [lia|lia|done|].
      intros j Hj. etrans; [exact Hc|].
      apply sorted_nth_le; [done|lia].
  - assert (lo = hi) as -> by lia. split_and!; [lia|done|done].
Qed.

Lemma bisect_right_loop_spec (fuel : nat) (a : list Z) (x : Z) (lo hi : nat) :
  StronglySorted Z.le a →
  (lo ≤ hi ≤ length a)%nat → (hi - lo ≤ fuel)%nat →
  (∀ j, (j < lo)%nat → (nth j a 0 ≤ x)%Z) →
  (∀ j, (hi ≤ j < length a)%nat → (x < nth j a 0)%Z) →
  let r := indices.bisect_right_loop fuel a x lo hi in
  (r ≤ length a)%nat
  ∧ (∀ j, (j < r)%nat → (nth j a 0 ≤ x)%Z)
  ∧ (∀ j, (r ≤ j < length a)%nat → (x < nth j a 0)%Z).
Proof.
  intros Ha. revert lo hi. induction fuel as [|fuel IH]; intros lo hi Hb Hf Hlo Hhi.
  { simpl. assert (lo = hi) as -> by lia. split_and!; [lia|done|done]. }
  cbv zeta. rewrite bisect_right_loop_S.
  destruct (Nat.ltb_spec lo hi) as [Hlt|Hge].
  - pose proof (div2_between lo hi Hlt) as Hmid.
    destruct (Z.ltb_spec x (nth ((lo + hi) / 2) a 0%Z)) as [Hc|Hc].
    + apply IH; [lia|lia|done|].
      intros j Hj. eapply Z.lt_le_trans; [exact Hc|].
      apply sorted_nth_le; [done|lia].
    + apply IH; [lia|lia| |done].
      intros j Hj. etrans; [|exact Hc].
      apply sorted_nth_le; [done|lia].
  - assert (lo = hi) as -> by lia. split_and!; [lia|done|done].
Qed.

Lemma bisect_left_spec (a : list Z) (x : Z) :
  StronglySorted Z.le a →
  (indices.bisect_left a x ≤ length a)%nat
  ∧ (∀ j, (j < indices.bisect_left a x)%nat → (nth j a 0 < x)%Z)
  ∧ (∀ j, (indices.bisect_left a x ≤ j < length a)%nat → (x ≤ nth j a 0)%Z).
Proof. intros Ha. apply bisect_left_loop_spec; [done|lia|lia|lia|lia]. Qed.

Lemma bisect_right_spec (a : list Z) (x : Z) :
  StronglySorted Z.le a →
  (indices.bisect_right a x ≤ length a)%nat
  ∧ (∀ j, (j < indices.bisect_right a x)%nat → (nth j a 0 ≤ x)%Z)
  ∧ (∀ j, (indices.bisect_right a x ≤ j < length a)%nat → (x < nth j a 0)%Z).
Proof. intros Ha. apply bisect_right_loop_spec; [done|lia|lia|lia|lia]. Qed.

(** The slice between the two bisections holds the elements within the
    bounds. *)
Lemma bisect_slice (a : list Z) (y1 y2 : Z) :
  StronglySorted Z.le a →
  indices.slice a (indices.bisect_left a y1) (indices.bisect_right a y2)
  = filter (fun y => (y1 ≤ y ≤ y2)%Z) a.
Proof.
  intros Ha.
  destruct (bisect_left_spec a y1 Ha) as (Hl1 & Hl2 & Hl3).
  destruct (bisect_right_spec a y2 Ha) as (Hr1 & Hr2 & Hr3).
  revert Hl1 Hl2 Hl3 Hr1 Hr2 Hr3.
  generalize (indices.bisect_left a y1) (indices.bisect_right a y2).
  unfold indices.slice. induction Ha as [|x a Ha IH Hx]; intros lo hi Hl1 Hl2 Hl3 Hr1 Hr2 Hr3.
  { simpl in *. by rewrite drop_nil, take_nil. }
  simpl in Hl1, Hr1. rewrite filter_cons.
  pose proof (IH (pred lo) (pred hi)) as IH'.
  rewrite <- IH'; clear IH IH'.
  - destruct lo as [|lo], hi as [|hi]; simpl.
    + pose proof (Hr3 0%nat) as Hr. simpl in Hr. rewrite decide_False by lia. done.
    + pose proof (Hl3 0%nat) as Hl. pose proof (Hr2 0%nat) as Hr. simpl in Hl, Hr.
      rewrite decide_True by lia. by rewrite Nat.sub_0_r.
    + pose proof (Hl2 0%nat) as Hl. simpl in Hl. rewrite decide_False by lia.
      by rewrite take_0.
    + pose proof (Hl2 0%nat) as Hl. simpl in Hl. rewrite decide_False by lia. done.
  - lia.
  - intros j Hj. apply (Hl2 (S j)). lia.
  - intros j Hj. apply (Hl3 (S j)). simpl. lia.
  - lia.
  - intros j Hj. apply (Hr2 (S j)). lia.
  - intros j Hj. apply (Hr3 (S j)). simpl. lia.
Qed.

Lemma filter_ext_elem {A : Type} (P Q : A → Prop)
    `{!∀ x, Decision (P x), !∀ x, Decision (Q x)} (l : list A) :
  (∀ x, x ∈ l → P x ↔ Q x) → filter P l = filter Q l.
Proof.
  induction l as [|x l IH]; intros HPQ; [done|].
  rewrite !filter_cons.
  rewrite IH by (intros y Hy; apply HPQ; by right).
  apply decide_ext, HPQ. by left.
Qed.

Lemma filter_or_disjoint {A : Type} (P Q : A → Prop)
    `{!∀ x, Decision (P x), !∀ x, Decision (Q x)} (l : list A) :
  (∀ x, P x → Q x → False) →
  filter (fun x => P x ∨ Q x) l ≡ₚ filter P l ++ filter Q l.
Proof.
  intros Hd. induction l as [|x l IH]; [done|].
  rewrite !filter_cons.
  destruct (decide (P x)) as [HP|HP], (decide (Q x)) as [HQ|HQ].
  - by destruct (Hd x).
  - rewrite decide_True by auto. simpl. by rewrite IH.
  - rewrite decide_True by auto. rewrite IH. apply Permutation_middle.
  - rewrite decide_False by tauto. done.
Qed.

(** Concatenating the buckets of distinct keys gathers the events whose key
    is among them. *)
Lemma flat_map_buckets (events : list DisasterEvent) (ys : list Z) :
  NoDup ys →
  flat_map (fun y => py.sorted Z.ltb
                       (event_id <$> filter (fun e => start_year e = y) events)) ys
  ≡ₚ event_id <$> filter (fun e => start_year e ∈ ys) events.
Proof.
  induction 1 as [|y ys Hy Hnd IH]; simpl.
  { rewrite (filter_ext_elem _ (fun _ => False)); [|intros; set_solver].
    by induction events. }
  rewrite IH, sorted_perm, <- fmap_app.
  apply fmap_Permutation.
  rewrite <- filter_or_disjoint by (intros e -> ?; done).
  rewrite (filter_ext_elem _ (fun e => start_year e ∈ y :: ys)); [done|].
  intros e _. rewrite elem_of_cons. done.
Qed.

Lemma year_range_ids_unfold (idx : Indices) (y1 y2 : Z) :
  StronglySorted Z.le (years_sorted idx) →
  indices.year_range_ids idx y1 y2 =
    py.sorted Z.ltb
      (flat_map (fun y => indices.get (year_to_ids idx) y)
         (filter (fun y => (y1 ≤ y ≤ y2)%Z) (years_sorted idx))).
Proof. intros Hs. unfold indices.year_range_ids. by rewrite bisect_slice. Qed.

(** [year_range_ids] on the indices of a dataset: the ids of the events
    whose year is in [y1, y2], in ascending order. *)
Lemma year_range_ids_spec (events : list DisasterEvent) (y1 y2 : Z) :
  let ids := indices.year_range_ids (indices.build_indices events) y1 y2 in
  StronglySorted Z.le ids
  ∧ ids ≡ₚ event_id <$> filter (fun e => (y1 ≤ start_year e ≤ y2)%Z) events.
Proof.
  destruct (build_indices_years_sorted events) as [Hs Hy].
  cbv zeta. rewrite year_range_ids_unfold by by apply StronglySorted_lt_le.
  split; [apply sorted_Z_sorted|].
  rewrite sorted_perm.
  rewrite (flat_map_ext _ _ (build_indices_year_to_ids events)).
  rewrite flat_map_buckets by by apply NoDup_filter, StronglySorted_lt_NoDup.
  rewrite (filter_ext_elem _ (fun e => (y1 ≤ start_year e ≤ y2)%Z)); [done|].
  intros e He. rewrite list_elem_of_filter, Hy. naive_solver.
Qed.

Lemma elem_of_year_range_ids (events : list DisasterEvent) (y1 y2 x : Z) :
  x ∈ indices.year_range_ids (indices.build_indices events) y1 y2
  ↔ ∃ e, e ∈ events ∧ event_id e = x ∧ (y1 ≤ start_year e ≤ y2)%Z.
Proof.
  destruct (year_range_ids_spec events y1 y2) as [_ ->].
  rewrite list_elem_of_fmap. setoid_rewrite list_elem_of_filter. naive_solver.
Qed.

(** ** Year comparisons *)

Section YearComparison.
Context `{PyRuntime}.

Lemma year_cmp_unfold (self : ODIE) (field op : string) (v : Z) (candidates : list Z) :
  py.lower field ∈ ["start_year"; "year"] →
  op ∈ [">="; ">"; "<="; "<"] →
  _apply_cmp self field op (VInt v) candidates =
    match years_sorted (idx self) with
    | [] => Ok []
    | ymin :: _ =>
        let ymax := default ymin (last (years_sorted (idx self))) in
        let '(lo, hi) := year_bounds op v ymin ymax in
        Ok (dsa.intersect_sorted (py.sorted Z.ltb candidates)
              (indices.year_range_ids (idx self) lo hi))
    end.
Proof.
  intros Hf Hop. unfold _apply_cmp, in_names, year_bounds.
  rewrite (bool_decide_eq_true_2 _ Hf), (bool_decide_eq_true_2 _ Hop).
  assert (bool_decide (py.lower field ∈ ["country"; "disaster_type"]) = false) as ->.
  { apply bool_decide_eq_false_2. intros Hc. set_unfold.
    destruct Hf as [Hf|[Hf|[]]], Hc as [Hc|[Hc|[]]]; congruence. }
  rewrite andb_false_r.
  assert (String.eqb op "==" = false) as ->.
  { set_unfold. by destruct Hop as [->|[->|[->|[->|[]]]]]. }
  destruct (years_sorted (idx self)) as [|ymin ys] eqn:Hy; [done|].
  destruct (last (ymin :: ys)) as [ymax|] eqn:Hl.
  - simpl. set_unfold. by destruct Hop as [->|[->|[->|[->|[]]]]].
  - by apply last_None in Hl.
Qed.

(** C6. A comparison of [start_year] / [year] with an integer [v] by
    [>=], [>], [<=] or [<] evaluates to the intersection of the sorted
    candidates with [year_range_ids] on the inclusive bounds [lo, hi]
    ([v], [v + 1], [v], [v - 1] on the closed end, the smallest or largest
    indexed year on the open end), and to the empty list when no year is
    indexed. On the indices built from the events, [year_range_ids]
    gathers, in ascending order, exactly the ids of the events whose year
    is within the bounds (binary search over the sorted years, then the
    buckets), and the result holds the candidates among them. *)
Theorem year_comparison_range (self : ODIE) (field op : string) (v : Z)
    (candidates : list Z) :
  py.lower field ∈ ["start_year"; "year"] →
  op ∈ [">="; ">"; "<="; "<"] →
  _eval_node self (Cmp field op (VInt v)) candidates =
    match years_sorted (idx self) with
    | [] => Ok []
    | ymin :: _ =>
        let ymax := default ymin (last (years_sorted (idx self))) in
        let '(lo, hi) := year_bounds op v ymin ymax in
        Ok (dsa.intersect_sorted (py.sorted Z.ltb candidates)
              (indices.year_range_ids (idx self) lo hi))
    end
  ∧ (idx self = indices.build_indices (events self) →
     ∀ lo hi : Z,
       let ids := indices.year_range_ids (idx self) lo hi in
       StronglySorted Z.le ids
       ∧ ids ≡ₚ event_id <$>
                 filter (fun e => (lo ≤ start_year e ≤ hi)%Z) (events self)
       ∧ ∀ x, x ∈ dsa.intersect_sorted (py.sorted Z.ltb candidates) ids
              ↔ x ∈ candidates
                ∧ ∃ e, e ∈ events self ∧ event_id e = x
                       ∧ (lo ≤ start_year e ≤ hi)%Z).
Proof.
  intros Hf Hop. split; [by apply year_cmp_unfold|].
  intros -> lo hi. cbv zeta.
  destruct (year_range_ids_spec (events self) lo hi) as [Hs Hp].
  split_and!; [done|done|].
  intros x. rewrite elem_of_intersect_sorted; [|apply sorted_Z_sorted|done].
  by rewrite elem_of_sorted, elem_of_year_range_ids.
Qed.
End YearComparison.

Lemma year_comparison_range_witness :
  py.lower "Year" ∈ ["start_year"; "year"]
  ∧ ">" ∈ [">="; ">"; "<="; "<"]
  ∧ _eval_node (H := demo_runtime) demo_engine (Cmp "Year" ">" (VInt 2000)) [3; 1; 0]%Z
    = Ok [0; 3]%Z.
Proof.
  assert (py.lower "Year" ∈ ["start_year"; "year"]) as Hf by (vm_compute; set_solver).
  assert (">" ∈ [">="; ">"; "<="; "<"]) as Hop by set_solver.
  split_and!; [done|done|].
  destruct (year_comparison_range (H := demo_runtime) demo_engine "Year" ">" 2000
              [3; 1; 0]%Z Hf Hop) as [-> _].
  by vm_compute.
Defined.

(** ** Indexed path and linear scan *)

Lemma index_valid {A : Type} (l : list A) (i : Z) :
  (0 ≤ i)%Z → py.index l i = match l !! Z.to_nat i with
                              | Some x => Ok x
                              | None => Raise IndexError
                              end.
Proof.
  intros Hi. unfold py.index.
  destruct (Z.ltb_spec i 0) as [|_]; [lia|].
  destruct (Z.ltb_spec i 0) as [|_]; [lia|done].
Qed.

Lemma index_in_range {A : Type} (l : list A) (i : Z) :
  (0 ≤ i < Z.of_nat (length l))%Z → ∃ x, py.index l i = Ok x ∧ l !! Z.to_nat i = Some x.
Proof.
  intros Hi. rewrite index_valid by lia.
  destruct (l !! Z.to_nat i) as [x|] eqn:Hl; [by exists x|].
  apply lookup_ge_None in Hl. lia.
Qed.

Section Positions.
Context (events : list DisasterEvent) (Hpos : ids_are_positions events).

Lemma event_of_id (e : DisasterEvent) :
  e ∈ events → events !! Z.to_nat (event_id e) = Some e ∧ (0 ≤ event_id e)%Z.
Proof.
  intros (i & Hi)%list_elem_of_lookup. rewrite (Hpos _ _ Hi).
  split; [by rewrite Nat2Z.id|lia].
Qed.

Lemma event_id_inj (e1 e2 : DisasterEvent) :
  e1 ∈ events → e2 ∈ events → event_id e1 = event_id e2 → e1 = e2.
Proof.
  intros [H1 _]%event_of_id [H2 _]%event_of_id Heq.
  rewrite Heq in H1. congruence.
Qed.

Lemma event_ids_range : event_id <$> events = py.range (length events).
Proof.
  apply list_eq. intros i. unfold py.range. rewrite !list_lookup_fmap.
  destruct (events !! i) as [e|] eqn:He; simpl.
  - rewrite (Hpos _ _ He). apply lookup_lt_Some in He.
    by rewrite lookup_seq_lt.
  - apply lookup_ge_None in He. by rewrite lookup_seq_ge.
Qed.

Lemma filtered_ids_sorted (P : DisasterEvent → Prop) `{!∀ e, Decision (P e)} :
  StronglySorted Z.lt (event_id <$> filter P events).
Proof.
  eapply StronglySorted_sublist.
  - apply fmap_sublist, sublist_filter.
  - rewrite event_ids_range. apply selection_range.
Qed.

Lemma elem_of_filtered_ids (P : DisasterEvent → Prop) `{!∀ e, Decision (P e)} (i : Z) :
  i ∈ event_id <$> filter P events
  ↔ ∃ e, events !! Z.to_nat i = Some e ∧ (0 ≤ i)%Z ∧ event_id e = i ∧ P e.
Proof.
  rewrite list_elem_of_fmap. setoid_rewrite list_elem_of_filter. split.
  - intros (e & -> & HP & He). exists e.
    destruct (event_of_id e He). done.
  - intros (e & He & Hi & Hid & HP). exists e.
    split_and!; [done|done|]. by eapply list_elem_of_lookup_2.
Qed.

Lemma country_bucket (c : string) :
  indices.get (by_country (indices.build_indices events)) c
  = event_id <$> filter (fun e => country e = c) events.
Proof.
  rewrite build_indices_by_country. apply sorted_Z_strict_id, filtered_ids_sorted.
Qed.

Lemma type_bucket (t : string) :
  indices.get (by_type (indices.build_indices events)) t
  = event_id <$> filter (fun e => disaster_type e = t) events.
Proof.
  rewrite build_indices_by_type. apply sorted_Z_strict_id, filtered_ids_sorted.
Qed.

Lemma year_range_bucket (y1 y2 : Z) :
  indices.year_range_ids (indices.build_indices events) y1 y2
  = event_id <$> filter (fun e => (y1 ≤ start_year e ≤ y2)%Z) events.
Proof.
  destruct (year_range_ids_spec events y1 y2) as [Hs Hp].
  apply (StronglySorted_unique Z.le); [done| |done].
  apply StronglySorted_lt_le, filtered_ids_sorted.
Qed.

Lemma elem_of_linear_scan_country (x : string) (candidates : list Z) (i : Z) :
  valid_ids events candidates →
  i ∈ linear_scan_country events x candidates
  ↔ i ∈ candidates ∧ i ∈ event_id <$> filter (fun e => country e = x) events.
Proof.
  intros Hv. unfold linear_scan_country. rewrite list_elem_of_filter.
  rewrite elem_of_filtered_ids. unfold country_at.
  split.
  - intros [Hc Hi]. split; [done|].
    unfold valid_ids in Hv. rewrite Forall_forall in Hv. specialize (Hv _ Hi).
    destruct (index_in_range events i Hv) as (e & He & Hl).
    rewrite He in Hc. injection Hc as Hc. exists e.
    split_and!; [done|lia| |done]. rewrite (Hpos _ _ Hl). lia.
  - intros [Hi (e & Hl & H0 & Hid & Hc)]. split; [|done].
    rewrite index_valid, Hl by done. by rewrite Hc.
Qed.
End Positions.

Lemma scan_pure (events : list DisasterEvent) (p : DisasterEvent → bool)
    (candidates : list Z) :
  valid_ids events candidates →
  scan events (fun e => Ok (p e)) candidates
  = Ok (filter (fun i => holds_at events p i = true) candidates).
Proof.
  induction 1 as [|i candidates Hi Hv IH]; [done|].
  simpl. destruct (index_in_range events i Hi) as (e & He & _).
  assert (holds_at events p i = p e) as Hh by (unfold holds_at; by rewrite He).
  rewrite He. simpl. rewrite IH. simpl. rewrite filter_cons.
  destruct (p e) eqn:Hp.
  - rewrite decide_True; [done|congruence].
  - rewrite decide_False; [done|congruence].
Qed.

Section FilterEquivalence.
Context `{PyRuntime}.

Lemma country_cmp_indexed (self : ODIE) (field x : string) (candidates : list Z) :
  py.lower field = "country" →
  _apply_cmp self field "==" (VStr x) candidates
  = Ok (dsa.intersect_sorted (py.sorted Z.ltb candidates)
          (indices.get (by_country (idx self)) x)).
Proof. intros Hf. unfold _apply_cmp. by rewrite Hf. Qed.

Lemma country_cmp_fallback (self : ODIE) (field x : string) (candidates : list Z) :
  py.lower field = "country" →
  valid_ids (events self) candidates →
  fallback_scan self field "==" (VStr x) candidates
  = Ok (py.sorted Z.ltb (linear_scan_country (events self) x candidates)).
Proof.
  intros Hf Hv. unfold fallback_scan. simpl.
  rewrite (scan_pure _ (fun e => py.py_eq (get field e) (VStr x))) by done.
  simpl. do 2 f_equal. unfold linear_scan_country.
  apply filter_ext_elem. intros i _. unfold holds_at, country_at.
  destruct (py.index (events self) i) as [e|]; [|done].
  unfold get. rewrite Hf. simpl.
  destruct (String.eqb_spec (country e) x); split; congruence.
Qed.

Lemma bench_paths_agree (self : ODIE) (country dtype : string) (y1 y2 : Z) :
  ids_are_positions (events self) →
  idx self = indices.build_indices (events self) →
  bench_indexed self country dtype y1 y2 = bench_naive self country dtype y1 y2.
Proof.
  intros Hpos Hidx. unfold bench_indexed, bench_naive. rewrite Hidx.
  rewrite country_bucket, type_bucket, year_range_bucket by done.
  pose proof (filtered_ids_sorted (events self) Hpos) as Hs.
  apply StronglySorted_lt_ext.
  - do 2 apply intersect_sorted_strict. apply Hs.
  - apply Hs.
  - intros i.
    rewrite !elem_of_intersect_sorted;
      auto using StronglySorted_lt_le, intersect_sorted_strict.
    rewrite !elem_of_filtered_ids by done.
    split; [|naive_solver].
    intros [[(e1 & He1 & ? & ? & ?) (e2 & He2 & ? & ? & ?)] (e3 & He3 & ? & ? & ?)].
    simplify_eq. by exists e1.
Qed.

(** The indexed evaluation of [country == x] and the explicit linear
    scan, and the two computations of the benchmark. *)
Lemma country_filter_paths (self : ODIE) (field x : string)
    (candidates : list Z) (country dtype : string) (y1 y2 : Z) :
  ids_are_positions (events self) →
  idx self = indices.build_indices (events self) →
  valid_ids (events self) candidates →
  py.lower field = "country" →
  let linear := linear_scan_country (events self) x candidates in
  (∃ r, _eval_node self (Cmp field "==" (VStr x)) candidates = Ok r
        ∧ (∀ i, i ∈ r ↔ i ∈ linear)
        ∧ (NoDup candidates →
           r = py.sorted Z.ltb linear
           ∧ fallback_scan self field "==" (VStr x) candidates = Ok r)
        ∧ (StronglySorted Z.lt candidates → r = linear))
  ∧ bench_indexed self country dtype y1 y2 = bench_naive self country dtype y1 y2.
Proof.
  intros Hpos Hidx Hv Hf. cbv zeta. split; [|by apply bench_paths_agree].
  eexists. split; [by apply country_cmp_indexed|].
  rewrite Hidx, country_bucket by done.
  pose proof (filtered_ids_sorted (events self) Hpos
                (fun e => models.country e = x)) as Hs.
  assert (∀ i, i ∈ dsa.intersect_sorted (py.sorted Z.ltb candidates)
                 (event_id <$> filter (fun e => models.country e = x) (events self))
               ↔ i ∈ linear_scan_country (events self) x candidates) as Hmem.
  { intros i. rewrite elem_of_intersect_sorted;
      [|apply sorted_Z_sorted|by apply StronglySorted_lt_le].
    by rewrite elem_of_sorted, elem_of_linear_scan_country. }
  assert (NoDup candidates →
          dsa.intersect_sorted (py.sorted Z.ltb candidates)
            (event_id <$> filter (fun e => models.country e = x) (events self))
          = py.sorted Z.ltb (linear_scan_country (events self) x candidates)) as Heq.
  { intros Hnd. apply StronglySorted_lt_ext.
    - by apply intersect_sorted_strict, sorted_Z_strict.
    - by apply sorted_Z_strict, NoDup_filter.
    - intros i. by rewrite Hmem, elem_of_sorted. }
  split_and!; [done| |].
  - intros Hnd. split; [by apply Heq|].
    rewrite country_cmp_fallback by done. by rewrite Heq.
  - intros Hc. rewrite Heq by by apply StronglySorted_lt_NoDup.
    apply sorted_Z_strict_id. eapply StronglySorted_sublist; [|done].
    apply sublist_filter.
Qed.
End FilterEquivalence.

Lemma demo_ids_are_positions : ids_are_positions demo_events.
Proof.
  intros i e Hi.
  do 4 (destruct i as [|i]; [by injection Hi as <-|]). done.
Qed.

(** ** Comparisons on fields the evaluator does not know *)

Lemma index_elem_of {A : Type} (l : list A) (i : Z) (x : A) :
  py.index l i = Ok x → x ∈ l.
Proof.
  unfold py.index.
  repeat case_match; try done; intros [= <-]; by eapply list_elem_of_lookup_2.
Qed.

Lemma scan_const (events : list DisasterEvent) (pred : DisasterEvent → res bool)
    (b : bool) (candidates : list Z) :
  (∀ e, e ∈ events → pred e = Ok b) →
  indexable events candidates →
  scan events pred candidates = Ok (if b then candidates else []).
Proof.
  intros Hp. induction 1 as [|i candidates Hi Hv IH]; simpl.
  { by destruct b. }
  destruct (py.index events i) as [e|] eqn:He; [|done]. simpl.
  rewrite (Hp e) by by eapply index_elem_of. simpl.
  rewrite IH. simpl. by destruct b.
Qed.

Section AbsentField.
Context `{PyRuntime}.

Lemma get_unsupported (field : string) (e : DisasterEvent) :
  py.lower field ∉ supported_fields → get field e = getattr e (py.lower field).
Proof.
  intros Hf. unfold get, in_names.
  assert (String.eqb (py.lower field) "country" = false) as ->.
  { apply String.eqb_neq. intros Hc. apply Hf. rewrite Hc. set_solver. }
  repeat (rewrite bool_decide_eq_false_2;
          [|intros Hc; apply Hf; unfold supported_fields; set_solver]).
  done.
Qed.

Lemma apply_cmp_unsupported (self : ODIE) (field op : string) (value : pyval)
    (candidates : list Z) :
  py.lower field ∉ supported_fields →
  _apply_cmp self field op value candidates
  = fallback_scan self field op value candidates.
Proof.
  intros Hf. unfold _apply_cmp, in_names.
  repeat (rewrite bool_decide_eq_false_2;
          [|intros Hc; apply Hf; unfold supported_fields; set_solver]).
  by rewrite andb_false_r.
Qed.

(** C4, as amended. For a comparison on a field that is not supported and
    whose generic lookup yields [None], with an operator among [==], [!=]
    and [contains], the evaluation against any list of candidate ids that
    index the events does not raise: the comparison with the absent value
    selects every candidate or none (the same for all records), and the
    result is the sorted candidates or the empty list. *)
Theorem absent_field_comparison_total (self : ODIE) (field op : string)
    (value : pyval) (candidates : list Z) :
  absent_field (events self) field →
  op ∈ ["=="; "!="; "contains"] →
  indexable (events self) candidates →
  _eval_node self (Cmp field op value) candidates
  = Ok (if absent_selects op value then py.sorted Z.ltb candidates else []).
Proof.
  intros [Hf Hnone] Hop Hv. simpl.
  rewrite apply_cmp_unsupported by done. unfold fallback_scan.
  assert (∃ pred, _make_predicate field op value = Ok pred
                  ∧ ∀ e, e ∈ events self → pred e = Ok (absent_selects op value))
    as (pred & -> & Hpred).
  { repeat (apply elem_of_cons in Hop as [->|Hop]);
      [| | |by apply elem_of_nil in Hop].
    - exists (fun e => Ok (py.py_eq (get field e) value)). split; [done|].
      intros e He. by rewrite get_unsupported, Hnone.
    - exists (fun e => Ok (negb (py.py_eq (get field e) value))). split; [done|].
      intros e He. by rewrite get_unsupported, Hnone.
    - exists (fun e => Ok (py.contains (py.lower (py_str value))
                             (py.lower (py_str (get field e))))).
      split; [done|].
      intros e He. by rewrite get_unsupported, Hnone. }
  simpl. rewrite (scan_const _ _ _ _ Hpred Hv). simpl.
  by destruct (absent_selects op value).
Qed.
End AbsentField.

Lemma demo_magnitude_absent : absent_field (H := demo_runtime) demo_events "Magnitude".
Proof.
  split; [vm_compute; set_solver|].
  intros e He. unfold demo_events in He. set_unfold.
  by destruct He as [->|[->|[->|[->|[]]]]].
Qed.

Lemma absent_field_comparison_total_witness :
  absent_field (H := demo_runtime) (events demo_engine) "Magnitude"
  ∧ "!=" ∈ ["=="; "!="; "contains"]
  ∧ indexable (events demo_engine) [2; 0; -1]%Z
  ∧ _eval_node (H := demo_runtime) demo_engine (Cmp "Magnitude" "!=" (VInt 5)) [2; 0; -1]%Z
    = Ok [-1; 0; 2]%Z.
Proof.
  assert ("!=" ∈ ["=="; "!="; "contains"]) as Hop by set_solver.
  assert (indexable (events demo_engine) [2; 0; -1]%Z) as Hv by (by repeat constructor).
  split_and!; [apply demo_magnitude_absent|done|done|].
  by rewrite (absent_field_comparison_total (H := demo_runtime) demo_engine "Magnitude"
                "!=" (VInt 5) [2; 0; -1]%Z demo_magnitude_absent Hop Hv).
Defined.

(** C4, counterexample. On an absent field an ordering operator raises
    [TypeError] at the first candidate: the evaluation fails. *)
Lemma absent_field_ordering_raises :
  absent_field (H := demo_runtime) (events demo_engine) "Magnitude"
  ∧ _eval_node (H := demo_runtime) demo_engine (Cmp "Magnitude" ">=" (VInt 5)) [0]%Z
    = Raise TypeError.
Proof. split; [apply demo_magnitude_absent|by vm_compute]. Qed.

(** ** A query that does not parse *)

Section Contract.
Context `{PyRuntime}.

(** C2, as amended. When the query string does not parse, [where] raises
    the parse error and the current selection (id list and sort metadata)
    is the one before the call; the history push that precedes parsing has
    appended a snapshot of the selection to the undo stack and cleared the
    redo stack. *)
Theorem where_parse_error_keeps_selection (expr : string) (self : ODIE) :
  query_lang.parse expr = Raise ParseError →
  (where_ expr self).1 = Raise ParseError
  ∧ state (where_ expr self).2 = state self
  ∧ _undo (where_ expr self).2 = _undo self ++ [active_ids (state self)]
  ∧ _redo (where_ expr self).2 = [].
Proof. intros Hp. by rewrite (where_parse_error _ _ _ Hp). Qed.
End Contract.

Lemma where_parse_error_keeps_selection_witness :
  query_lang.parse (H := demo_runtime) "year >=" = Raise ParseError
  ∧ (where_ (H := demo_runtime) "year >=" demo_engine).1 = Raise ParseError.
Proof.
  assert (query_lang.parse (H := demo_runtime) "year >=" = Raise ParseError) as Hp
    by (by vm_compute).
  split; [done|].
  apply (where_parse_error_keeps_selection (H := demo_runtime) "year >=" demo_engine Hp).
Defined.

(** C2, counterexample. After [filter_country] and [undo] the redo stack
    holds a snapshot and the undo stack is empty; the malformed query
    [year >=] then raises a parse error, leaves a snapshot on the undo
    stack and empties the redo stack. *)
Lemma where_malformed_changes_history :
  let self := (undo (filter_country "A" demo_engine)).2 in
  let self' := (where_ (H := demo_runtime) "year >=" self).2 in
  (where_ (H := demo_runtime) "year >=" self).1 = Raise ParseError
  ∧ active_ids (state self') = active_ids (state self)
  ∧ _undo self = [] ∧ _undo self' = [[0; 1; 2; 3]%Z]
  ∧ _redo self = [[0; 2; 3]%Z] ∧ _redo self' = [].
Proof. by vm_compute. Qed.

(** ** Merge sort *)

(** C3. With [reverse=True] the merge takes the right element on equal
    keys: two records with the same key come out in the opposite order. *)
Theorem merge_sort_descending_swaps_ties :
  dsa.merge_sort fst Z.leb Z.gtb true [(1, "first"); (1, "second")]%Z
  = [(1, "second"); (1, "first")]%Z
  ∧ dsa.merge_sort fst Z.leb Z.gtb false [(1, "first"); (1, "second")]%Z
    = [(1, "first"); (1, "second")]%Z.
Proof. by vm_compute. Qed.

(** ** Top-k *)

(** C1. A record without a death count gets the key [-1] and is never
    skipped: of four selected records two have a death count, and [topk 3]
    returns three records, the third with no death count. With [k = 0] the
    look at the top of the empty heap raises. *)
Theorem topk_keeps_null_records :
  active_ids (state demo_engine) = [0; 1; 2; 3]%Z
  ∧ length (filter (fun e => is_Some (total_deaths e)) demo_events) = 2%nat
  ∧ topk demo_engine 3 "deaths"
    = Ok [demo_event 2 "A" "Quake" 2001 (Some 7%Z);
          demo_event 1 "B" "Flood" 1999 (Some 5%Z);
          demo_event 0 "A" "Flood" 2001 None]
  ∧ topk demo_engine 0 "deaths" = Raise IndexError.
Proof. by vm_compute. Qed.

(** ** The parser *)

Section ParserFacts.
Context `{PyRuntime}.

Lemma take_Ok (k : kind) (toks rest : list Token) (t : Token) :
  query_lang.take k toks = Ok (t, rest) → toks = t :: rest ∧ tkind t = k.
Proof.
  unfold query_lang.take. destruct toks as [|t' toks]; [done|].
  case_decide; [|done]. by intros [= -> ->].
Qed.

Lemma match_Some (ks : list kind) (toks rest : list Token) (t : Token) :
  query_lang.match_ ks toks = (Some t, rest) → toks = t :: rest ∧ tkind t ∈ ks.
Proof.
  unfold query_lang.match_. destruct toks as [|t' toks]; [done|].
  case_decide; [|done]. by intros [= -> ->].
Qed.

Lemma match_None (ks : list kind) (toks rest : list Token) :
  query_lang.match_ ks toks = (None, rest) →
  rest = toks ∧ match toks with [] => True | t :: _ => tkind t ∉ ks end.
Proof.
  unfold query_lang.match_. destruct toks as [|t' toks]; [by intros [= <-]|].
  case_decide; [done|]. by intros [= <-].
Qed.

Lemma match_not_next (k : kind) (toks : list Token) :
  not_next k toks → query_lang.match_ [k] toks = (None, toks).
Proof.
  unfold query_lang.match_, not_next. destruct toks as [|t toks]; [done|].
  intros Hk. rewrite decide_False; [done|]. by intros Hin%list_elem_of_singleton.
Qed.

Lemma parse_comparison_shrinks : shrinks query_lang.parse_comparison.
Proof.
  intros toks n rest. unfold query_lang.parse_comparison. intros Hp.
  bind_inv Hp as p1 H1. destruct p1 as [f toks1].
  apply take_Ok in H1 as [-> _].
  bind_inv Hp as p2 H2. destruct p2 as [op toks2].
  assert (length toks2 < length toks1)%nat as Hlen.
  { destruct (query_lang.match_ [CONTAINS] toks1) as [[t|] toks'] eqn:Hm.
    - apply match_Some in Hm as [-> _]. injection H2 as _ <-. simpl. lia.
    - apply match_None in Hm as [-> _].
      bind_inv H2 as p3 H3. destruct p3 as [t toks3].
      apply take_Ok in H3 as [-> _]. injection H2 as _ <-. simpl. lia. }
  destruct (query_lang.match_ [NUMBER; STRING; IDENT] toks2) as [[t|] toks'] eqn:Hm;
    [|done].
  apply match_Some in Hm as [-> _].
  bind_inv Hp as v Hv. injection Hp as _ <-. simpl in *. lia.
Qed.

Section Shrinking.
Context (P : query_lang.parser Node) (HP : shrinks P).

Lemma parse_factor_shrinks : shrinks (query_lang.parse_factor P).
Proof.
  intros toks n rest. unfold query_lang.parse_factor.
  destruct (query_lang.match_ [LPAREN] toks) as [[t|] toks'] eqn:Hm.
  - apply match_Some in Hm as [-> _]. intros Hp.
    bind_inv Hp as p1 H1. destruct p1 as [node toks1]. apply HP in H1.
    bind_inv Hp as p2 H2. destruct p2 as [t2 toks2].
    apply take_Ok in H2 as [-> _]. injection Hp as _ <-. simpl in *. lia.
  - apply match_None in Hm as [-> _]. apply parse_comparison_shrinks.
Qed.

Lemma parse_term_loop_le (k : nat) (node n : Node) (toks rest : list Token) :
  query_lang.parse_term_loop P k node toks = Ok (n, rest) →
  (length rest ≤ length toks)%nat.
Proof.
  revert node toks. induction k as [|k IH]; intros node toks; simpl.
  { by intros [= _ <-]. }
  destruct (query_lang.match_ [AND] toks) as [[t|] toks'] eqn:Hm.
  - apply match_Some in Hm as [-> _]. intros Hp.
    bind_inv Hp as p1 H1. destruct p1 as [rhs toks1].
    apply parse_factor_shrinks in H1. apply IH in Hp. simpl. lia.
  - apply match_None in Hm as [-> _]. by intros [= _ <-].
Qed.

Lemma parse_term_shrinks : shrinks (query_lang.parse_term P).
Proof.
  intros toks n rest. unfold query_lang.parse_term. intros Hp.
  bind_inv Hp as p1 H1. destruct p1 as [node toks1].
  apply parse_factor_shrinks in H1. apply parse_term_loop_le in Hp. lia.
Qed.

Lemma parse_expr_loop_le (k : nat) (node n : Node) (toks rest : list Token) :
  query_lang.parse_expr_loop P k node toks = Ok (n, rest) →
  (length rest ≤ length toks)%nat.
Proof.
  revert node toks. induction k as [|k IH]; intros node toks; simpl.
  { by intros [= _ <-]. }
  destruct (query_lang.match_ [OR] toks) as [[t|] toks'] eqn:Hm.
  - apply match_Some in Hm as [-> _]. intros Hp.
    bind_inv Hp as p1 H1. destruct p1 as [rhs toks1].
    apply parse_term_shrinks in H1. apply IH in Hp. simpl. lia.
  - apply match_None in Hm as [-> _]. by intros [= _ <-].
Qed.

Lemma parse_expr_body_shrinks : shrinks (query_lang.parse_expr_body P).
Proof.
  intros toks n rest. unfold query_lang.parse_expr_body. intros Hp.
  bind_inv Hp as p1 H1. destruct p1 as [node toks1].
  apply parse_term_shrinks in H1. apply parse_expr_loop_le in Hp. lia.
Qed.

(** The bound of a loop does not matter once it is the number of tokens
    left or more. *)
Lemma parse_term_loop_fuel (k k' : nat) (node : Node) (toks : list Token) :
  (length toks ≤ k)%nat → (length toks ≤ k')%nat →
  query_lang.parse_term_loop P k node toks
  = query_lang.parse_term_loop P k' node toks.
Proof.
  revert k' node toks. induction k as [|k IH]; intros k' node toks Hk Hk'.
  { destruct toks; [|simpl in Hk; lia]. by destruct k'. }
  destruct k' as [|k'].
  { destruct toks; [done|simpl in Hk'; lia]. }
  simpl. destruct (query_lang.match_ [AND] toks) as [[t|] toks'] eqn:Hm; [|done].
  apply match_Some in Hm as [-> _].
  destruct (query_lang.parse_factor P toks') as [[rhs toks1]|e] eqn:Hf; [|done].
  simpl. apply parse_factor_shrinks in Hf. simpl in Hk, Hk'. apply IH; lia.
Qed.

Lemma parse_expr_loop_fuel (k k' : nat) (node : Node) (toks : list Token) :
  (length toks ≤ k)%nat → (length toks ≤ k')%nat →
  query_lang.parse_expr_loop P k node toks
  = query_lang.parse_expr_loop P k' node toks.
Proof.
  revert k' node toks. induction k as [|k IH]; intros k' node toks Hk Hk'.
  { destruct toks; [|simpl in Hk; lia]. by destruct k'. }
  destruct k' as [|k'].
  { destruct toks; [done|simpl in Hk'; lia]. }
  simpl. destruct (query_lang.match_ [OR] toks) as [[t|] toks'] eqn:Hm; [|done].
  apply match_Some in Hm as [-> _].
  destruct (query_lang.parse_term P toks') as [[rhs toks1]|e] eqn:Hf; [|done].
  simpl. apply parse_term_shrinks in Hf. simpl in Hk, Hk'. apply IH; lia.
Qed.
End Shrinking.

Lemma parse_expr_shrinks (fuel : nat) : shrinks (query_lang.parse_expr fuel).
Proof.
  induction fuel as [|fuel IH]; [done|].
  simpl. by apply parse_expr_body_shrinks.
Qed.
End ParserFacts.

Section Agreement.
Context `{PyRuntime} (P Q : query_lang.parser Node) (HP : shrinks P).

Lemma parse_factor_agree (toks : list Token) :
  (∀ t, (length t < length toks)%nat → P t = Q t) →
  query_lang.parse_factor P toks = query_lang.parse_factor Q toks.
Proof.
  intros HPQ. unfold query_lang.parse_factor.
  destruct (query_lang.match_ [LPAREN] toks) as [[t|] toks'] eqn:Hm; [|done].
  apply match_Some in Hm as [-> _]. rewrite HPQ; [done|simpl; lia].
Qed.

Lemma parse_term_loop_agree (k : nat) (node : Node) (toks : list Token) :
  (∀ t, (length t < length toks)%nat → P t = Q t) →
  query_lang.parse_term_loop P k node toks
  = query_lang.parse_term_loop Q k node toks.
Proof.
  revert node toks. induction k as [|k IH]; intros node toks HPQ; simpl; [done|].
  destruct (query_lang.match_ [AND] toks) as [[t|] toks'] eqn:Hm; [|done].
  apply match_Some in Hm as [-> _]. simpl in HPQ.
  rewrite <- parse_factor_agree by (intros; apply HPQ; lia).
  destruct (query_lang.parse_factor P toks') as [[rhs toks1]|e] eqn:Hf; [|done].
  simpl. apply parse_factor_shrinks in Hf; [|done].
  apply IH. intros; apply HPQ; lia.
Qed.

Lemma parse_term_agree (toks : list Token) :
  (∀ t, (length t < length toks)%nat → P t = Q t) →
  query_lang.parse_term P toks = query_lang.parse_term Q toks.
Proof.
  intros HPQ. unfold query_lang.parse_term.
  rewrite <- parse_factor_agree by done.
  destruct (query_lang.parse_factor P toks) as [[node toks1]|e] eqn:Hf; [|done].
  simpl. apply parse_factor_shrinks in Hf; [|done].
  apply parse_term_loop_agree. intros; apply HPQ; lia.
Qed.

Lemma parse_expr_loop_agree (k : nat) (node : Node) (toks : list Token) :
  (∀ t, (length t < length toks)%nat → P t = Q t) →
  query_lang.parse_expr_loop P k node toks
  = query_lang.parse_expr_loop Q k node toks.
Proof.
  revert node toks. induction k as [|k IH]; intros node toks HPQ; simpl; [done|].
  destruct (query_lang.match_ [OR] toks) as [[t|] toks'] eqn:Hm; [|done].
  apply match_Some in Hm as [-> _]. simpl in HPQ.
  rewrite <- parse_term_agree by (intros; apply HPQ; lia).
  destruct (query_lang.parse_term P toks') as [[rhs toks1]|e] eqn:Hf; [|done].
  simpl. apply parse_term_shrinks in Hf; [|done].
  apply IH. intros; apply HPQ; lia.
Qed.

Lemma parse_expr_body_agree (toks : list Token) :
  (∀ t, (length t < length toks)%nat → P t = Q t) →
  query_lang.parse_expr_body P toks = query_lang.parse_expr_body Q toks.
Proof.
  intros HPQ. unfold query_lang.parse_expr_body.
  rewrite <- parse_term_agree by done.
  destruct (query_lang.parse_term P toks) as [[node toks1]|e] eqn:Hf; [|done].
  simpl. apply parse_term_shrinks in Hf; [|done].
  apply parse_expr_loop_agree. intros; apply HPQ; lia.
Qed.
End Agreement.

Section Grammar.
Context `{PyRuntime}.

(** The result of [parse_expr] does not depend on its bound once the bound
    exceeds the number of tokens. *)
Lemma parse_expr_fuel (fuel fuel' : nat) (toks : list Token) :
  (length toks < fuel)%nat → (length toks < fuel')%nat →
  query_lang.parse_expr fuel toks = query_lang.parse_expr fuel' toks.
Proof.
  revert fuel' toks. induction fuel as [|fuel IH]; intros fuel' toks Hf Hf'; [lia|].
  destruct fuel' as [|fuel']; [lia|]. simpl.
  apply parse_expr_body_agree; [apply parse_expr_shrinks|].
  intros t Ht. apply IH; lia.
Qed.

Lemma comparison_not_paren (toks : list Token) (n : Node) (rest : list Token) :
  query_lang.parse_comparison toks = Ok (n, rest) →
  query_lang.match_ [LPAREN] toks = (None, toks).
Proof.
  unfold query_lang.parse_comparison. intros Hp.
  bind_inv Hp as p1 H1. destruct p1 as [f toks1].
  apply take_Ok in H1 as [-> Hk]. unfold query_lang.match_.
  rewrite decide_False; [done|]. rewrite Hk. by intros ?%list_elem_of_singleton.
Qed.

Lemma parse_term_loop_stop (P : query_lang.parser Node) (k : nat) (node : Node)
    (toks : list Token) :
  not_next AND toks → query_lang.parse_term_loop P k node toks = Ok (node, toks).
Proof. intros Hn. destruct k; [done|]. simpl. by rewrite match_not_next. Qed.

Lemma parse_expr_loop_stop (P : query_lang.parser Node) (k : nat) (node : Node)
    (toks : list Token) :
  not_next OR toks → query_lang.parse_expr_loop P k node toks = Ok (node, toks).
Proof. intros Hn. destruct k; [done|]. simpl. by rewrite match_not_next. Qed.

(** What the parser does on a phrase of the grammar followed by [rest]. *)
Lemma phrase_parse (lv : level) (toks : list Token) (n : Node) :
  phrase lv toks n →
  ∀ fuel rest, (length (toks ++ rest) ≤ fuel)%nat →
    let P := query_lang.parse_expr fuel in
    match lv with
    | LFactor => query_lang.parse_factor P (toks ++ rest) = Ok (n, rest)
    | LTerm =>
        query_lang.parse_term P (toks ++ rest)
        = query_lang.parse_term_loop P (length rest) n rest
    | LExpr =>
        not_next AND rest →
        query_lang.parse_expr_body P (toks ++ rest)
        = query_lang.parse_expr_loop P (length rest) n rest
    end.
Proof.
  induction 1 as [c n Hc|e n He IHe|f n Hf IHf|t f n1 n2 Ht IHt Hf IHf
                  |t n Ht IHt|e t n1 n2 He IHe Ht IHt];
    intros fuel rest Hlen; cbv zeta.
  - unfold query_lang.parse_factor.
    by rewrite (comparison_not_paren _ _ _ (Hc rest)), Hc.
  - cbn [app] in Hlen |- *. rewrite <- app_assoc in Hlen |- *.
    cbn [app length] in Hlen |- *.
    destruct fuel as [|fuel]; [lia|].
    unfold query_lang.parse_factor. simpl.
    rewrite (IHe fuel (tRPAREN :: rest)) by (done || lia).
    by rewrite parse_expr_loop_stop.
  - unfold query_lang.parse_term. by rewrite (IHf fuel rest Hlen).
  - rewrite <- app_assoc in Hlen |- *. cbn [app] in Hlen |- *.
    rewrite (IHt fuel (tAND :: f ++ rest) Hlen). simpl.
    rewrite length_app in Hlen. simpl in Hlen.
    rewrite (IHf fuel rest) by lia. simpl.
    apply parse_term_loop_fuel; [apply parse_expr_shrinks| |done].
    rewrite length_app. lia.
  - intros Hn. unfold query_lang.parse_expr_body.
    rewrite (IHt fuel rest Hlen). by rewrite parse_term_loop_stop.
  - intros Hn. rewrite <- app_assoc in Hlen |- *. cbn [app] in Hlen |- *.
    rewrite (IHe fuel (tOR :: t ++ rest) Hlen) by done. simpl.
    rewrite length_app in Hlen. simpl in Hlen.
    rewrite (IHt fuel rest) by lia.
    rewrite parse_term_loop_stop by done. simpl.
    apply parse_expr_loop_fuel; [apply parse_expr_shrinks| |done].
    rewrite length_app. lia.
Qed.

Lemma phrase_parse_tokens (toks : list Token) (n : Node) :
  phrase LExpr toks n → query_lang.parse_tokens toks = Ok n.
Proof.
  intros Hp. unfold query_lang.parse_tokens. simpl.
  pose proof (phrase_parse _ _ _ Hp (length toks) []) as Hb.
  rewrite app_nil_r in Hb. by rewrite Hb.
Qed.
End Grammar.

Section Precedence.
Context `{PyRuntime}.

Lemma parse_tokens_trailing (toks rest : list Token) (node : Node) (t : Token) :
  query_lang.parse_expr (S (length toks)) toks = Ok (node, t :: rest) →
  query_lang.parse_tokens toks = Raise ParseError.
Proof. intros Hp. unfold query_lang.parse_tokens. by rewrite Hp. Qed.

(** C9. The parser follows the grammar
    [expr := term (OR term)*], [term := factor (AND factor)*],
    [factor := comparison | ( expr )]: every phrase of the grammar parses
    to its tree, built to the left. So AND binds tighter than OR on either
    side, AND and OR associate to the left, and parentheses override both.
    The input [year >= 2000 and deaths > 1000] parses to
    [And (Cmp year >= 2000) (Cmp deaths > 1000)] with integer literals, and
    parsing fails with a parse error when a token is left after a complete
    expression. *)
Theorem parser_precedence (c1 c2 c3 : list Token) (n1 n2 n3 : Node) :
  comparison_phrase c1 n1 → comparison_phrase c2 n2 → comparison_phrase c3 n3 →
  (∀ toks n, phrase LExpr toks n → query_lang.parse_tokens toks = Ok n)
  ∧ query_lang.parse_tokens (c1 ++ tOR :: c2 ++ tAND :: c3) = Ok (Or n1 (And n2 n3))
  ∧ query_lang.parse_tokens (c1 ++ tAND :: c2 ++ tOR :: c3) = Ok (Or (And n1 n2) n3)
  ∧ query_lang.parse_tokens (c1 ++ tAND :: c2 ++ tAND :: c3) = Ok (And (And n1 n2) n3)
  ∧ query_lang.parse_tokens (c1 ++ tOR :: c2 ++ tOR :: c3) = Ok (Or (Or n1 n2) n3)
  ∧ query_lang.parse_tokens (tLPAREN :: (c1 ++ tOR :: c2) ++ tRPAREN :: tAND :: c3)
    = Ok (And (Or n1 n2) n3)
  ∧ query_lang.parse_tokens (c1 ++ tAND :: tLPAREN :: (c2 ++ tAND :: c3) ++ [tRPAREN])
    = Ok (And n1 (And n2 n3))
  ∧ query_lang.parse "year >= 2000 and deaths > 1000"
    = Ok (And (Cmp "year" ">=" (VInt 2000)) (Cmp "deaths" ">" (VInt 1000)))
  ∧ (∀ toks node t rest,
       query_lang.parse_expr (S (length toks)) toks = Ok (node, t :: rest) →
       query_lang.parse_tokens toks = Raise ParseError)
  ∧ query_lang.parse "year >= 2000 deaths > 1000" = Raise ParseError.
Proof.
  intros H1 H2 H3.
  pose proof (phrase_comparison _ _ H1) as F1.
  pose proof (phrase_comparison _ _ H2) as F2.
  pose proof (phrase_comparison _ _ H3) as F3.
  pose proof (phrase_factor _ _ F1) as T1.
  pose proof (phrase_factor _ _ F2) as T2.
  pose proof (phrase_factor _ _ F3) as T3.
  split_and!.
  - apply phrase_parse_tokens.
  - apply phrase_parse_tokens.
    apply phrase_or; [by apply phrase_term|by apply phrase_and].
  - apply phrase_parse_tokens.
    replace (c1 ++ tAND :: c2 ++ tOR :: c3) with ((c1 ++ tAND :: c2) ++ tOR :: c3)
      by by rewrite <- app_assoc.
    apply phrase_or; [|done]. by apply phrase_term, phrase_and.
  - apply phrase_parse_tokens.
    replace (c1 ++ tAND :: c2 ++ tAND :: c3) with ((c1 ++ tAND :: c2) ++ tAND :: c3)
      by by rewrite <- app_assoc.
    apply phrase_term, phrase_and; [|done]. by apply phrase_and.
  - apply phrase_parse_tokens.
    replace (c1 ++ tOR :: c2 ++ tOR :: c3) with ((c1 ++ tOR :: c2) ++ tOR :: c3)
      by by rewrite <- app_assoc.
    apply phrase_or; [|done]. apply phrase_or; [by apply phrase_term|done].
  - apply phrase_parse_tokens.
    replace (tLPAREN :: (c1 ++ tOR :: c2) ++ tRPAREN :: tAND :: c3)
      with ((tLPAREN :: (c1 ++ tOR :: c2) ++ [tRPAREN]) ++ tAND :: c3)
      by (simpl; by rewrite <- app_assoc).
    apply phrase_term, phrase_and; [|done].
    apply phrase_factor, phrase_paren, phrase_or; [by apply phrase_term|done].
  - apply phrase_parse_tokens.
    apply phrase_term, phrase_and; [done|].
    apply phrase_paren, phrase_term, phrase_and; done.
  - by vm_compute.
  - intros toks node t rest. apply parse_tokens_trailing.
  - by vm_compute.
Qed.
End Precedence.

Lemma demo_comparison_phrase (f op v : string) :
  comparison_phrase (H := demo_runtime)
    [ {| tkind := IDENT; tvalue := f |}; {| tkind := OP; tvalue := op |};
      {| tkind := IDENT; tvalue := v |} ]
    (Cmp f op (VStr v)).
Proof. by intros rest. Qed.

Lemma parser_precedence_witness :
  comparison_phrase (H := demo_runtime)
    [ {| tkind := IDENT; tvalue := "a" |}; {| tkind := OP; tvalue := "==" |};
      {| tkind := IDENT; tvalue := "x" |} ]
    (Cmp "a" "==" (VStr "x"))
  ∧ query_lang.parse (H := demo_runtime) "year >= 2000 and deaths > 1000"
    = Ok (And (Cmp "year" ">=" (VInt 2000)) (Cmp "deaths" ">" (VInt 1000))).
Proof.
  split; [apply demo_comparison_phrase|].
  apply (parser_precedence (H := demo_runtime) _ _ _ _ _ _
           (demo_comparison_phrase "a" "==" "x")
           (demo_comparison_phrase "a" "==" "x")
           (demo_comparison_phrase "a" "==" "x")).
Defined.

(** ** The tokenizer consumes its input *)

Lemma span_length (p : ascii → bool) (s w r : string) :
  query_lang.span p s = (w, r) → String.length s = (String.length w + String.length r)%nat.
Proof.
  revert w r. induction s as [|c s IH]; intros w r; simpl.
  { by intros [= <- <-]. }
  destruct (p c); [|by intros [= <- <-]].
  destruct (query_lang.span p s) as [w' r'] eqn:Hs. intros [= <- <-].
  simpl. by rewrite (IH w' r').
Qed.

Lemma split_at_length (n : nat) (s w r : string) :
  query_lang.split_at n s = (w, r) →
  String.length s = (String.length w + String.length r)%nat.
Proof.
  revert s w r. induction n as [|n IH]; intros s w r; simpl.
  { by intros [= <- <-]. }
  destruct s as [|c s]; [by intros [= <- <-]|].
  destruct (query_lang.split_at n s) as [w' r'] eqn:Hs. intros [= <- <-].
  simpl. by rewrite (IH s w' r').
Qed.

Lemma lower_length (s : string) : String.length (py.lower s) = String.length s.
Proof. induction s as [|c s IH]; simpl; [done|by rewrite IH]. Qed.

Lemma match_op_shrinks (s v r : string) :
  query_lang.match_op s = Some (v, r) → (String.length r < String.length s)%nat.
Proof.
  unfold query_lang.match_op.
  repeat case_match; try done; intros [= <- <-]; simplify_eq; simpl; lia.
Qed.

Lemma match_word_shrinks (word : string) (prev : option ascii) (s v r : string) :
  (0 < String.length word)%nat →
  query_lang.match_word word prev s = Some (v, r) →
  (String.length r < String.length s)%nat.
Proof.
  intros Hw. unfold query_lang.match_word.
  destruct (query_lang.split_at (String.length word) s) as [w r'] eqn:Hs.
  apply split_at_length in Hs.
  destruct (_ && String.eqb (py.lower w) word && _) eqn:Hc; [|done].
  intros [= <- <-].
  apply andb_prop in Hc as [Hc _]. apply andb_prop in Hc as [_ Hc].
  apply String.eqb_eq in Hc. rewrite <- Hc, lower_length in Hw. lia.
Qed.

Lemma match_kw_shrinks (prev : option ascii) (s v r : string) :
  query_lang.match_kw prev s = Some (v, r) → (String.length r < String.length s)%nat.
Proof.
  unfold query_lang.match_kw.
  destruct (query_lang.match_word "and" prev s) as [[v1 r1]|] eqn:H1.
  { intros [= <- <-]. eapply match_word_shrinks; [|done]. simpl; lia. }
  destruct (query_lang.match_word "or" prev s) as [[v2 r2]|] eqn:H2.
  { intros [= <- <-]. eapply match_word_shrinks; [|done]. simpl; lia. }
  apply match_word_shrinks. simpl; lia.
Qed.

Lemma match_number_shrinks (s v r : string) :
  query_lang.match_number s = Some (v, r) → (String.length r < String.length s)%nat.
Proof.
  unfold query_lang.match_number.
  assert (∃ sign s1, (String.length s1 ≤ String.length s)%nat ∧
            match s with
            | String c r0 =>
                if Ascii.eqb c "-" then ("-"%string, r0) else (EmptyString, s)
            | EmptyString => (EmptyString, s)
            end = (sign, s1)) as (sign & s1 & Hlen & ->).
  { destruct s as [|c s']; [by eexists _, _|].
    destruct (Ascii.eqb c "-"); eexists _, _; (split; [|done]); simpl; lia. }
  destruct (query_lang.span query_lang.is_digit s1) as [ds s2] eqn:Hd.
  apply span_length in Hd.
  destruct ds as [|d ds]; [done|]. simpl in Hd.
  destruct s2 as [|c r0]; [intros [= _ <-]; simpl; lia|].
  destruct (Ascii.eqb c "."); [|intros [= _ <-]; simpl in *; lia].
  destruct (query_lang.span query_lang.is_digit r0) as [fs s3] eqn:Hf.
  apply span_length in Hf. destruct fs; intros [= _ <-]; simpl in *; lia.
Qed.

Lemma string_body_shrinks (q : ascii) (s b r : string) :
  query_lang.string_body q s = Some (b, r) → (String.length r < String.length s)%nat.
Proof.
  assert (∀ n s b r, (String.length s ≤ n)%nat →
            query_lang.string_body q s = Some (b, r) →
            (String.length r < String.length s)%nat) as Hgen; [|by eapply Hgen].
  clear s b r. induction n as [|n IH]; intros s b r Hn.
  { destruct s; [done|simpl in Hn; lia]. }
  destruct s as [|c s]; simpl; [done|]. simpl in Hn.
  destruct (Ascii.eqb c q); [intros [= _ <-]; lia|].
  destruct (Ascii.eqb c "092").
  - destruct s as [|d s']; [done|]. destruct (Ascii.eqb d "010"); [done|].
    destruct (query_lang.string_body q s') as [[b' r']|] eqn:Hb; [|done].
    intros [= _ <-]. apply IH in Hb; simpl in *; lia.
  - destruct (query_lang.string_body q s) as [[b' r']|] eqn:Hb; [|done].
    intros [= _ <-]. apply IH in Hb; simpl in *; lia.
Qed.

Lemma match_string_shrinks (s v r : string) :
  query_lang.match_string s = Some (v, r) → (String.length r < String.length s)%nat.
Proof.
  unfold query_lang.match_string. destruct s as [|q s]; [done|].
  destruct (_ || _); [|done].
  destruct (query_lang.string_body q s) as [[b r']|] eqn:Hb; [|done].
  intros [= _ <-]. apply string_body_shrinks in Hb. simpl. lia.
Qed.

Lemma match_ident_shrinks (s v r : string) :
  query_lang.match_ident s = Some (v, r) → (String.length r < String.length s)%nat.
Proof.
  unfold query_lang.match_ident. destruct s as [|c s]; [done|].
  destruct (query_lang.is_ident_start c); [|done].
  destruct (query_lang.span query_lang.is_word s) as [w r'] eqn:Hs.
  apply span_length in Hs. intros [= _ <-]. simpl. lia.
Qed.

Lemma match_paren_shrinks (c : ascii) (s v r : string) :
  query_lang.match_paren c s = Some (v, r) → (String.length r < String.length s)%nat.
Proof.
  unfold query_lang.match_paren. destruct s as [|c' s]; [done|].
  destruct (Ascii.eqb c' c); [|done]. intros [= _ <-]. simpl. lia.
Qed.

Lemma match_alternatives_shrinks (prev : option ascii) (s v r : string)
    (g : query_lang.group) :
  query_lang.match_alternatives prev s = Some (g, v, r) →
  (String.length r < String.length s)%nat.
Proof.
  unfold query_lang.match_alternatives.
  destruct (query_lang.match_paren "(" s) as [[v0 r0]|] eqn:H0.
  { intros [= _ _ <-]. by eapply match_paren_shrinks. }
  destruct (query_lang.match_paren ")" s) as [[v0' r0']|] eqn:H0'.
  { intros [= _ _ <-]. by eapply match_paren_shrinks. }
  destruct (query_lang.match_op s) as [[v1 r1]|] eqn:H1.
  { intros [= _ _ <-]. by eapply match_op_shrinks. }
  destruct (query_lang.match_kw prev s) as [[v2 r2]|] eqn:H2.
  { intros [= _ _ <-]. by eapply match_kw_shrinks. }
  destruct (query_lang.match_number s) as [[v3 r3]|] eqn:H3.
  { intros [= _ _ <-]. by eapply match_number_shrinks. }
  destruct (query_lang.match_string s) as [[v4 r4]|] eqn:H4.
  { intros [= _ _ <-]. by eapply match_string_shrinks. }
  destruct (query_lang.match_ident s) as [[v5 r5]|] eqn:H5; [|done].
  intros [= _ _ <-]. by eapply match_ident_shrinks.
Qed.

Lemma token_re_match_shrinks (prev prev' : option ascii) (s v r : string)
    (g : query_lang.group) :
  query_lang.token_re_match prev s = Some (g, v, prev', r) →
  (String.length r < String.length s)%nat.
Proof.
  unfold query_lang.token_re_match.
  destruct (query_lang.span query_lang.is_space s) as [ws s1] eqn:H1.
  apply span_length in H1.
  destruct (query_lang.match_alternatives _ s1) as [[[g' v'] s2]|] eqn:H2; [|done].
  apply match_alternatives_shrinks in H2.
  destruct (query_lang.span query_lang.is_space s2) as [ws' s3] eqn:H3.
  apply span_length in H3. intros [= _ _ _ <-]. lia.
Qed.

(** The bound of the tokenizer loop does not matter once it is the length
    of the input left or more. *)
Lemma tokenize_loop_fuel (fuel fuel' : nat) (prev : option ascii) (s : string) :
  (String.length s ≤ fuel)%nat → (String.length s ≤ fuel')%nat →
  query_lang.tokenize_loop fuel prev s = query_lang.tokenize_loop fuel' prev s.
Proof.
  revert fuel' prev s. induction fuel as [|fuel IH]; intros fuel' prev s Hf Hf'.
  { destruct s; [|simpl in Hf; lia]. by destruct fuel'. }
  destruct fuel' as [|fuel'].
  { destruct s; [done|simpl in Hf'; lia]. }
  simpl. destruct s as [|c s]; [done|].
  destruct (query_lang.token_re_match prev (String c s)) as [[[[g v] p] r]|] eqn:Hm;
    [|done].
  apply token_re_match_shrinks in Hm. simpl in Hf, Hf', Hm.
  by rewrite (IH fuel' p r) by lia.
Qed.

(** ** Merge sort: the recursion, and the stable direction *)

Lemma filter_False {A : Type} (l : list A) : filter (fun _ => False) l = [].
Proof.
  induction l as [|x l IH]; [done|].
  rewrite filter_cons_False; [done|by intros []].
Qed.

Section MergeSortFacts.
Context {T K : Type} (key : T → K) (le gt : K → K → bool).

#[local] Abbreviation _merge := (dsa._merge key le gt).
#[local] Abbreviation merge_sort_rec := (dsa.merge_sort_rec key le gt).
#[local] Abbreviation merge_sort := (dsa.merge_sort key le gt).

Lemma merge_nil_r (reverse : bool) (l : list T) : _merge reverse l [] = l.
Proof. by destruct l. Qed.

Lemma merge_cons (reverse : bool) (x y : T) (l r : list T) :
  _merge reverse (x :: l) (y :: r) =
    if (if reverse then gt (key x) (key y) else le (key x) (key y))
    then x :: _merge reverse l (y :: r)
    else y :: _merge reverse (x :: l) r.
Proof. done. Qed.

Lemma merge_perm (reverse : bool) (l r : list T) : _merge reverse l r ≡ₚ l ++ r.
Proof.
  revert r. induction l as [|x l IHl]; intros r; [by destruct r|].
  induction r as [|y r IHr]; [by rewrite merge_nil_r, app_nil_r|].
  rewrite merge_cons. destruct (if reverse then _ else _).
  - by rewrite IHl.
  - rewrite IHr. by rewrite <- Permutation_middle.
Qed.

Lemma half_lt (n : nat) : (2 ≤ n)%nat → (0 < n / 2 < n)%nat.
Proof.
  intros Hn. pose proof (Nat.div_mod_eq n 2). pose proof (Nat.mod_upper_bound n 2). lia.
Qed.

(** The bound of the recursion does not matter once it is the length of
    the list or more: [merge_sort] satisfies the equation of the source. *)
Lemma merge_sort_rec_fuel (n m : nat) (reverse : bool) (arr : list T) :
  (length arr ≤ n)%nat → (length arr ≤ m)%nat →
  merge_sort_rec n reverse arr = merge_sort_rec m reverse arr.
Proof.
  revert m arr. induction n as [|n IH]; intros m arr Hn Hm.
  { destruct arr; [|simpl in Hn; lia]. by destruct m. }
  destruct m as [|m].
  { destruct arr; [done|simpl in Hm; lia]. }
  cbn [dsa.merge_sort_rec].
  destruct (Nat.leb_spec (length arr) 1) as [|Hlen]; [done|].
  pose proof (half_lt (length arr) Hlen) as Hhalf.
  rewrite (IH m (take _ arr)), (IH m (drop _ arr));
    rewrite ?length_take, ?length_drop; (done || lia).
Qed.

Lemma merge_sort_unfold (reverse : bool) (arr : list T) :
  merge_sort reverse arr =
    if (length arr <=? 1)%nat then arr
    else
      let mid := (length arr / 2)%nat in
      _merge reverse (merge_sort reverse (take mid arr))
                     (merge_sort reverse (drop mid arr)).
Proof.
  unfold dsa.merge_sort at 1. generalize (le_n (length arr)).
  generalize (length arr) at 2 3. intros n Hn.
  destruct n as [|n].
  { destruct arr; [done|simpl in Hn; lia]. }
  cbn [dsa.merge_sort_rec].
  destruct (Nat.leb_spec (length arr) 1) as [|Hlen]; [done|].
  pose proof (half_lt (length arr) Hlen) as Hhalf. cbv zeta.
  unfold dsa.merge_sort.
  f_equal; apply merge_sort_rec_fuel;
    rewrite ?length_take, ?length_drop; lia.
Qed.

Lemma merge_sort_rec_perm (n : nat) (reverse : bool) (arr : list T) :
  merge_sort_rec n reverse arr ≡ₚ arr.
Proof.
  revert arr. induction n as [|n IH]; intros arr; [done|].
  cbn [dsa.merge_sort_rec]. destruct (length arr <=? 1)%nat; [done|].
  cbv zeta. by rewrite merge_perm, !IH, take_drop.
Qed.

Lemma merge_sort_perm (reverse : bool) (arr : list T) : merge_sort reverse arr ≡ₚ arr.
Proof. apply merge_sort_rec_perm. Qed.

(** Ascending order, for a total and transitive [<=] on the keys. *)
Section Ascending.
Hypothesis le_total : ∀ a b, le a b = true ∨ le b a = true.
Hypothesis le_trans : ∀ a b c, le a b = true → le b c = true → le a c = true.

Let key_le (x y : T) : Prop := le (key x) (key y) = true.
Let same_key (c : K) (x : T) : Prop := le (key x) c = true ∧ le c (key x) = true.

Lemma merge_ascending (l r : list T) :
  StronglySorted key_le l → StronglySorted key_le r →
  StronglySorted key_le (_merge false l r).
Proof.
  intros Hl. revert r. induction Hl as [|x l Hl IHl Hx]; intros r Hr; [by destruct r|].
  induction Hr as [|y r Hr IHr Hy]; [rewrite merge_nil_r; by constructor|].
  rewrite merge_cons. destruct (le (key x) (key y)) eqn:Hxy.
  - constructor; [apply IHl; by constructor|].
    rewrite merge_perm. apply Forall_app. split; [done|].
    constructor; [done|]. eapply Forall_impl; [exact Hy|].
    intros z Hz. by eapply le_trans.
  - assert (key_le y x) as Hyx by (destruct (le_total (key x) (key y)); [congruence|done]).
    constructor; [done|].
    rewrite merge_perm. apply Forall_app. split; [|done].
    constructor; [done|]. eapply Forall_impl; [exact Hx|].
    intros z Hz. by eapply le_trans.
Qed.

Lemma merge_stable_ascending (c : K) (l r : list T) :
  StronglySorted key_le l →
  filter (same_key c) (_merge false l r)
  = filter (same_key c) l ++ filter (same_key c) r.
Proof.
  intros Hl. revert r. induction Hl as [|x l Hl IHl Hx]; intros r; [by destruct r|].
  induction r as [|y r IHr]; [by rewrite merge_nil_r, app_nil_r|].
  rewrite merge_cons. destruct (le (key x) (key y)) eqn:Hxy.
  - rewrite !filter_cons, IHl. by destruct (decide (same_key c x)).
  - rewrite (filter_cons _ y), IHr.
    destruct (decide (same_key c y)) as [[Hy1 Hy2]|Hy];
      [|by rewrite (filter_cons _ y), decide_False].
    assert (filter (same_key c) (x :: l) = []) as ->.
    { rewrite (filter_ext_elem _ (fun _ => False)); [apply filter_False|].
      intros z Hz. split; [|done]. intros [Hz1 Hz2].
      assert (key_le x z) as Hxz.
      { apply elem_of_cons in Hz as [->|Hz].
        - by destruct (le_total (key x) (key x)).
        - rewrite Forall_forall in Hx. by apply Hx. }
      rewrite (le_trans _ _ _ Hxz (le_trans _ _ _ Hz1 Hy2)) in Hxy. done. }
    simpl. by rewrite filter_cons, decide_True.
Qed.

Lemma merge_sort_rec_ascending (n : nat) (c : K) (arr : list T) :
  (length arr ≤ n)%nat →
  StronglySorted key_le (merge_sort_rec n false arr)
  ∧ filter (same_key c) (merge_sort_rec n false arr) = filter (same_key c) arr.
Proof.
  revert arr. induction n as [|n IH]; intros arr Hn.
  { destruct arr; [|simpl in Hn; lia]. split; [constructor|done]. }
  cbn [dsa.merge_sort_rec].
  destruct (Nat.leb_spec (length arr) 1) as [Hle|Hlen].
  { split; [|done]. destruct arr as [|x [|y arr]]; [constructor| |simpl in Hle; lia].
    by repeat constructor. }
  pose proof (half_lt (length arr) Hlen) as Hhalf. cbv zeta.
  destruct (IH (take (length arr / 2) arr)) as [Hs1 Hf1].
  { rewrite length_take. lia. }
  destruct (IH (drop (length arr / 2) arr)) as [Hs2 Hf2].
  { rewrite length_drop. lia. }
  split; [by apply merge_ascending|].
  rewrite merge_stable_ascending, Hf1, Hf2 by done.
  by rewrite <- filter_app, take_drop.
Qed.

(** In ascending order [merge_sort] sorts and is stable: the elements
    whose key is equivalent to [c] keep their order. *)
Lemma merge_sort_stable_ascending (c : K) (arr : list T) :
  StronglySorted key_le (merge_sort false arr)
  ∧ merge_sort false arr ≡ₚ arr
  ∧ filter (same_key c) (merge_sort false arr) = filter (same_key c) arr.
Proof.
  destruct (merge_sort_rec_ascending (length arr) c arr (le_n _)) as [Hs Hf].
  split_and!; [done|apply merge_sort_perm|done].
Qed.
End Ascending.
End MergeSortFacts.

(** ** The heap and the number of records [topk] returns *)

Section HeapFacts.
Context {A : Type} (lt : A → A → bool).

Lemma siftdown_loop_length (fuel : nat) (heap : list A) (x : A) (s p : nat) :
  length (heapq.siftdown_loop lt fuel heap x s p).1 = length heap.
Proof.
  revert heap p. induction fuel as [|fuel IH]; intros heap p; simpl; [done|].
  repeat case_match; try done. by rewrite IH, length_insert.
Qed.

Lemma siftdown_length (heap : list A) (s p : nat) :
  length (heapq._siftdown lt heap s p) = length heap.
Proof.
  unfold heapq._siftdown. destruct (heap !! p) as [x|]; [|done].
  pose proof (siftdown_loop_length p heap x s p) as Hl.
  destruct (heapq.siftdown_loop lt p heap x s p) as [heap' p'].
  by rewrite length_insert.
Qed.

Lemma siftup_loop_length (fuel : nat) (heap : list A) (p : nat) :
  length (heapq.siftup_loop lt fuel heap p).1 = length heap.
Proof.
  revert heap p. induction fuel as [|fuel IH]; intros heap p; [done|].
  cbn [heapq.siftup_loop].
  destruct (_ <? _)%nat; [|done].
  destruct (heap !! _) as [c|]; [|done].
  by rewrite IH, length_insert.
Qed.

Lemma siftup_length (heap : list A) (p : nat) :
  length (heapq._siftup lt heap p) = length heap.
Proof.
  unfold heapq._siftup. destruct (heap !! p) as [x|]; [|done].
  pose proof (siftup_loop_length (length heap) heap p) as Hl.
  destruct (heapq.siftup_loop lt (length heap) heap p) as [heap' p'].
  by rewrite siftdown_length, length_insert.
Qed.

Lemma heappush_length (heap : list A) (x : A) :
  length (heapq.heappush lt heap x) = S (length heap).
Proof.
  unfold heapq.heappush. rewrite siftdown_length, length_app. simpl. lia.
Qed.

Lemma heapreplace_length (heap heap' : list A) (x : A) :
  heapq.heapreplace lt heap x = Ok heap' → length heap' = length heap.
Proof.
  unfold heapq.heapreplace. destruct heap as [|y heap]; [done|].
  intros [= <-]. by rewrite siftup_length.
Qed.
End HeapFacts.

Lemma field_key_total (field : string) (key : DisasterEvent → option num)
    (e : DisasterEvent) :
  _field_key field = Ok key → is_Some (key e).
Proof.
  unfold _field_key. repeat case_match; try done; by intros [= <-].
Qed.

Lemma mapM_res_length {A B : Type} (f : A → res B) (l : list A) (k : list B) :
  mapM f l = Ok k → length k = length l.
Proof.
  revert k. induction l as [|x l IH]; intros k; simpl.
  { by intros [= <-]. }
  intros Hm. bind_inv Hm as y Hy. bind_inv Hm as k' Hk.
  injection Hm as <-. simpl. by rewrite (IH k').
Qed.

Lemma topk_loop_length (events : list DisasterEvent)
    (key : DisasterEvent → option num) (k : Z) (ids : list Z)
    (heap heap' : list (num * Z)) :
  (∀ e, is_Some (key e)) → (0 < k)%Z → (Z.of_nat (length heap) ≤ k)%Z →
  topk_loop events key k ids heap = Ok heap' →
  length heap' = (Z.to_nat k `min` (length heap + length ids))%nat.
Proof.
  intros Hkey Hk. revert heap. induction ids as [|eid ids IH]; intros heap Hh; simpl.
  { intros [= <-]. lia. }
  intros Hl. bind_inv Hl as e He.
  destruct (Hkey e) as [v Hv]. rewrite Hv in Hl.
  destruct (Z.ltb_spec (Z.of_nat (length heap)) k) as [Hlt|Hge].
  - apply IH in Hl; rewrite ?heappush_length in *; lia.
  - bind_inv Hl as top Ht. destruct (py.num_gt v top.1).
    + bind_inv Hl as heap1 H1. apply heapreplace_length in H1.
      apply IH in Hl; lia.
    + apply IH in Hl; lia.
Qed.

(** For [k >= 1] the number of records [topk] returns is the smaller of
    [k] and the size of the selection: no record is skipped, whatever its
    fields hold. *)
Lemma topk_length (self : ODIE) (k : Z) (field : string) (out : list DisasterEvent) :
  (0 < k)%Z →
  topk self k field = Ok out →
  length out = (Z.to_nat k `min` length (active_ids (state self)))%nat.
Proof.
  intros Hk. unfold topk. intros Ht.
  bind_inv Ht as key Hkey. bind_inv Ht as heap Hh.
  apply mapM_res_length in Ht. rewrite Ht, sorted_reverse_perm.
  apply topk_loop_length in Hh; [done| |done|simpl; lia].
  intros e. by eapply field_key_total.
Qed.

(** The heap operations permute the items. *)
Lemma delete_insert_same {A : Type} (l : list A) (i : nat) (x : A) :
  delete i (<[i := x]> l) = delete i l.
Proof.
  revert i. induction l as [|y l IH]; intros [|i]; simpl; try done.
  by rewrite IH.
Qed.

Lemma insert_perm {A : Type} (l : list A) (i : nat) (x : A) :
  (i < length l)%nat → <[i := x]> l ≡ₚ x :: delete i l.
Proof.
  intros Hi. rewrite <- (delete_insert_same l i x).
  apply delete_Permutation, list_lookup_insert_eq, Hi.
Qed.

Lemma insert_move_perm {A : Type} (l : list A) (i j : nat) (a x : A) :
  i ≠ j → l !! i = Some a → (j < length l)%nat →
  <[i := x]> (<[j := a]> l) ≡ₚ <[j := x]> l.
Proof.
  intros Hij Hi Hj.
  assert (i < length l)%nat as Hi' by by eapply lookup_lt_Some.
  rewrite (insert_perm (<[j := a]> l) i x) by by rewrite length_insert.
  rewrite (insert_perm l j x) by done. constructor.
  apply (Permutation_cons_inv (a := a)).
  rewrite <- (insert_perm l j a) by done.
  symmetry. apply delete_Permutation.
  by rewrite list_lookup_insert_ne.
Qed.

Section HeapPermutation.
Context {A : Type} (lt : A → A → bool).

Lemma siftdown_loop_perm (fuel : nat) (heap : list A) (x : A) (s p : nat) :
  (p < length heap)%nat →
  (heapq.siftdown_loop lt fuel heap x s p).2 < length heap
  ∧ <[(heapq.siftdown_loop lt fuel heap x s p).2 := x]>
      (heapq.siftdown_loop lt fuel heap x s p).1
    ≡ₚ <[p := x]> heap.
Proof.
  revert heap p. induction fuel as [|fuel IH]; intros heap p Hp; [done|].
  cbn [heapq.siftdown_loop].
  destruct (Nat.ltb_spec s p) as [Hsp|]; [|done].
  destruct (heap !! ((p - 1) / 2)%nat) as [parent|] eqn:Hpar; [|done].
  destruct (lt x parent); [|done].
  assert ((p - 1) / 2 < p)%nat as Hlt.
  { pose proof (Nat.div_mod_eq (p - 1) 2). pose proof (Nat.mod_upper_bound (p - 1) 2). lia. }
  destruct (IH (<[p := parent]> heap) ((p - 1) / 2)%nat) as [H1 H2].
  { rewrite length_insert. lia. }
  rewrite length_insert in H1. split; [done|].
  rewrite H2. apply insert_move_perm; [lia|done|done].
Qed.

Lemma siftdown_perm (heap : list A) (s p : nat) :
  heapq._siftdown lt heap s p ≡ₚ heap.
Proof.
  unfold heapq._siftdown. destruct (heap !! p) as [x|] eqn:Hx; [|done].
  destruct (siftdown_loop_perm p heap x s p) as [_ Hperm].
  { by eapply lookup_lt_Some. }
  destruct (heapq.siftdown_loop lt p heap x s p) as [heap' p'].
  simpl in Hperm. by rewrite Hperm, list_insert_id.
Qed.

Lemma siftup_loop_perm (fuel : nat) (heap : list A) (x : A) (p : nat) :
  (p < length heap)%nat →
  (heapq.siftup_loop lt fuel heap p).2 < length heap
  ∧ <[(heapq.siftup_loop lt fuel heap p).2 := x]> (heapq.siftup_loop lt fuel heap p).1
    ≡ₚ <[p := x]> heap.
Proof.
  revert heap p. induction fuel as [|fuel IH]; intros heap p Hp; [done|].
  cbn [heapq.siftup_loop].
  destruct (Nat.ltb_spec (2 * p + 1) (length heap)) as [Hc|]; [|done].
  set (child := match heap !! (2 * p + 1)%nat, heap !! (2 * p + 1 + 1)%nat with
                | Some c, Some r => if negb (lt c r) then (2 * p + 1 + 1)%nat
                                    else (2 * p + 1)%nat
                | _, _ => (2 * p + 1)%nat
                end).
  destruct (heap !! child) as [c|] eqn:Hchild; [|done].
  assert (p < child)%nat as Hlt.
  { unfold child. repeat case_match; lia. }
  destruct (IH (<[p := c]> heap) child) as [H1 H2].
  { rewrite length_insert. by eapply lookup_lt_Some. }
  rewrite length_insert in H1. split; [done|].
  rewrite H2. apply insert_move_perm; [lia|done|done].
Qed.

Lemma siftup_perm (heap : list A) (p : nat) : heapq._siftup lt heap p ≡ₚ heap.
Proof.
  unfold heapq._siftup. destruct (heap !! p) as [x|] eqn:Hx; [|done].
  destruct (siftup_loop_perm (length heap) heap x p) as [_ Hperm].
  { by eapply lookup_lt_Some. }
  destruct (heapq.siftup_loop lt (length heap) heap p) as [heap' p'].
  simpl in Hperm. by rewrite siftdown_perm, Hperm, list_insert_id.
Qed.

Lemma heappush_perm (heap : list A) (x : A) : heapq.heappush lt heap x ≡ₚ x :: heap.
Proof.
  unfold heapq.heappush. rewrite siftdown_perm. symmetry. apply Permutation_cons_append.
Qed.

Lemma heapreplace_perm (heap heap' : list A) (x : A) :
  heapq.heapreplace lt heap x = Ok heap' → heap' ≡ₚ x :: tail heap.
Proof.
  unfold heapq.heapreplace. destruct heap as [|y heap]; [done|].
  intros [= <-]. by rewrite siftup_perm.
Qed.
End HeapPermutation.

(** ** The heap order is kept by [heappush] and [heapreplace] *)

Lemma parent_child (p : nat) : (0 < p)%nat → child_of ((p - 1) / 2) p.
Proof.
  intros Hp. unfold child_of.
  pose proof (Nat.div_mod_eq (p - 1) 2). pose proof (Nat.mod_upper_bound (p - 1) 2). lia.
Qed.

Section HeapOrder.
Context {A : Type} (lt : A → A → bool).
Hypothesis lt_asym : ∀ a b, lt a b = true → lt b a = false.
Hypothesis le_trans : ∀ a b c, heap_le lt a b → heap_le lt b c → heap_le lt a c.

#[local] Abbreviation le := (heap_le lt).

Lemma lt_le (a b : A) : lt a b = true → le a b.
Proof. apply lt_asym. Qed.

Lemma le_refl (a : A) : le a a.
Proof.
  unfold heap_le. destruct (lt a a) eqn:Ha; [|done]. by rewrite (lt_asym _ _ Ha) in Ha.
Qed.

(** Filling the hole with an item between its parent and its children
    gives a heap. *)
Lemma fill_hole (h : list A) (p : nat) (x : A) :
  (p < length h)%nat →
  heap_ordered_but lt p h →
  fits_above lt p x h →
  (∀ g y, child_of g p → h !! g = Some y → le y x) →
  heap_ordered lt (<[p := x]> h).
Proof.
  intros Hp Hbut Hfit Hpar i j a b Hc Hi Hj.
  assert (i ≠ j) as Hij by (destruct Hc; lia).
  destruct (decide (i = p)) as [->|Hip], (decide (j = p)) as [->|Hjp]; [done| | |].
  - rewrite list_lookup_insert_eq in Hi by done. injection Hi as <-.
    rewrite list_lookup_insert_ne in Hj by done. by eapply Hfit.
  - rewrite list_lookup_insert_eq in Hj by done. injection Hj as <-.
    rewrite list_lookup_insert_ne in Hi by done. by eapply Hpar.
  - rewrite list_lookup_insert_ne in Hi, Hj by done. by eapply Hbut.
Qed.

Lemma siftdown_loop_ordered (fuel : nat) (h : list A) (x : A) (p : nat) :
  (p < length h)%nat → (p ≤ fuel)%nat →
  heap_ordered_but lt p h → hole_parent_ok lt p h → fits_above lt p x h →
  heap_ordered lt (<[(heapq.siftdown_loop lt fuel h x 0 p).2 := x]>
                     (heapq.siftdown_loop lt fuel h x 0 p).1).
Proof.
  revert h p. induction fuel as [|fuel IH]; intros h p Hp Hf Hbut Hgrand Hfit.
  { simpl. apply fill_hole; [done|done|done|]. intros g y Hc. destruct Hc; lia. }
  cbn [heapq.siftdown_loop].
  destruct (Nat.ltb_spec 0 p) as [Hpos|Hzero].
  2:{ simpl. apply fill_hole; [done|done|done|]. intros g y Hc. destruct Hc; lia. }
  pose proof (parent_child p Hpos) as Hpc.
  set (q := ((p - 1) / 2)%nat) in *.
  assert (q < p)%nat as Hqp by (destruct Hpc; lia).
  destruct (h !! q) as [g|] eqn:Hg.
  2:{ apply lookup_ge_None in Hg. lia. }
  destruct (lt x g) eqn:Hxg.
  - apply IH.
    + rewrite length_insert. lia.
    + lia.
    + intros i j a b Hc Hiq Hjq Hi Hj.
      assert (i ≠ j) as Hij by (destruct Hc; lia).
      destruct (decide (j = p)) as [->|Hjp].
      { exfalso. destruct Hc, Hpc; lia. }
      rewrite list_lookup_insert_ne in Hj by done.
      destruct (decide (i = p)) as [->|Hip].
      * rewrite list_lookup_insert_eq in Hi by done. injection Hi as <-.
        by eapply (Hgrand q j).
      * rewrite list_lookup_insert_ne in Hi by done. by eapply Hbut.
    + intros gg j a b Hc1 Hc2 Hi Hj.
      assert (gg ≠ p) by (destruct Hc1, Hpc; lia).
      rewrite list_lookup_insert_ne in Hi by done.
      assert (le a g) as Hag.
      { eapply (Hbut gg q); [done|done|lia|done|done]. }
      destruct (decide (j = p)) as [->|Hjp].
      * rewrite list_lookup_insert_eq in Hj by done. by injection Hj as <-.
      * rewrite list_lookup_insert_ne in Hj by done.
        eapply le_trans; [exact Hag|]. eapply (Hbut q j); [done|lia|done|done|done].
    + intros j b Hc Hj.
      destruct (decide (j = p)) as [->|Hjp].
      * rewrite list_lookup_insert_eq in Hj by done. injection Hj as <-. by apply lt_le.
      * rewrite list_lookup_insert_ne in Hj by done.
        eapply le_trans; [by apply lt_le|].
        eapply (Hbut q j); [done|lia|done|done|done].
  - simpl. apply fill_hole; [done|done|done|].
    intros g' y Hc Hy. assert (g' = q) as -> by (destruct Hc, Hpc; lia).
    rewrite Hg in Hy. by injection Hy as <-.
Qed.

Lemma but_insert_hole (h : list A) (p : nat) (x : A) :
  heap_ordered_but lt p h → heap_ordered_but lt p (<[p := x]> h).
Proof.
  intros Hbut i j a b Hc Hi Hj Ha Hb.
  rewrite list_lookup_insert_ne in Ha, Hb by done. by eapply Hbut.
Qed.

Lemma siftdown_ordered (h : list A) (p : nat) :
  heap_ordered_but lt p h →
  (∀ j, child_of p j → (length h ≤ j)%nat) →
  heap_ordered lt (heapq._siftdown lt h 0 p).
Proof.
  intros Hbut Hleaf. unfold heapq._siftdown.
  destruct (h !! p) as [x|] eqn:Hx.
  2:{ intros i j a b Hc Ha Hb. eapply Hbut; try done.
      - intros ->. by rewrite Hx in Ha.
      - intros ->. by rewrite Hx in Hb. }
  assert (p < length h)%nat as Hp by by eapply lookup_lt_Some.
  pose proof (siftdown_loop_ordered p h x p Hp (le_n _) Hbut) as Hs.
  destruct (heapq.siftdown_loop lt p h x 0 p) as [h' p']. apply Hs.
  - intros g j a b _ Hc _ Hb. apply Hleaf in Hc. apply lookup_lt_Some in Hb. lia.
  - intros j b Hc Hb. apply Hleaf in Hc. apply lookup_lt_Some in Hb. lia.
Qed.

Lemma heappush_ordered (h : list A) (x : A) :
  heap_ordered lt h → heap_ordered lt (heapq.heappush lt h x).
Proof.
  intros Hh. unfold heapq.heappush. apply siftdown_ordered.
  - intros i j a b Hc Hi Hj Ha Hb.
    assert (i < j)%nat by (destruct Hc; lia).
    apply lookup_lt_Some in Hb as Hb'. rewrite length_app in Hb'. simpl in Hb'.
    rewrite lookup_app_l in Ha, Hb by lia. by eapply Hh.
  - intros j Hc. rewrite length_app. simpl. destruct Hc; lia.
Qed.

Lemma siftup_step (h : list A) (p child : nat) (c : A) :
  (p < length h)%nat → child_of p child → h !! child = Some c →
  (∀ s y, child_of p s → s ≠ child → h !! s = Some y → le c y) →
  heap_ordered_but lt p h → hole_parent_ok lt p h →
  heap_ordered_but lt child (<[p := c]> h) ∧ hole_parent_ok lt child (<[p := c]> h).
Proof.
  intros Hp Hchild Hcv Hsmall Hbut Hgrand.
  assert (p < child)%nat as Hpc by (destruct Hchild; lia).
  split.
  - intros i j a b Hcij Hi Hj Ha Hb.
    assert (i ≠ j) as Hij by (destruct Hcij; lia).
    destruct (decide (j = p)) as [->|Hjp].
    + rewrite list_lookup_insert_eq in Hb by lia. injection Hb as <-.
      rewrite list_lookup_insert_ne in Ha by done. by eapply (Hgrand i child).
    + rewrite list_lookup_insert_ne in Hb by done.
      destruct (decide (i = p)) as [->|Hip].
      * rewrite list_lookup_insert_eq in Ha by lia. injection Ha as <-.
        by eapply Hsmall.
      * rewrite list_lookup_insert_ne in Ha by done. by eapply Hbut.
  - intros g j a b Hc1 Hc2 Ha Hb.
    assert (g = p) as -> by (destruct Hc1, Hchild; lia).
    rewrite list_lookup_insert_eq in Ha by lia. injection Ha as <-.
    assert (j ≠ p) by (destruct Hc2; lia).
    rewrite list_lookup_insert_ne in Hb by done.
    eapply (Hbut child j); [done|lia|done|done|done].
Qed.

Lemma siftup_loop_ordered (fuel : nat) (h : list A) (p : nat) :
  (p < length h)%nat → (length h - p ≤ fuel)%nat →
  heap_ordered_but lt p h → hole_parent_ok lt p h →
  let r := heapq.siftup_loop lt fuel h p in
  (r.2 < length r.1)%nat ∧ length r.1 = length h
  ∧ heap_ordered_but lt r.2 r.1
  ∧ (∀ j, child_of r.2 j → (length r.1 ≤ j)%nat).
Proof.
  revert h p. induction fuel as [|fuel IH]; intros h p Hp Hf Hbut Hgrand; [lia|].
  cbn [heapq.siftup_loop]. cbv zeta.
  destruct (Nat.ltb_spec (2 * p + 1) (length h)) as [Hc|Hleaf].
  2:{ simpl. split_and!; [done|done|done|]. intros j Hcj. destruct Hcj; lia. }
  destruct (h !! (2 * p + 1)%nat) as [cl|] eqn:Hl.
  2:{ apply lookup_ge_None in Hl. lia. }
  assert (∀ child c, child_of p child → h !! child = Some c →
            (∀ s y, child_of p s → s ≠ child → h !! s = Some y → le c y) →
            let r := heapq.siftup_loop lt fuel (<[p := c]> h) child in
            (r.2 < length r.1)%nat ∧ length r.1 = length h
            ∧ heap_ordered_but lt r.2 r.1
            ∧ (∀ j, child_of r.2 j → (length r.1 ≤ j)%nat)) as Hstep.
  { intros child c Hchild Hcv Hsmall.
    destruct (siftup_step h p child c) as [Hb' Hg']; [done..|].
    assert (child < length h)%nat as Hcl by by eapply lookup_lt_Some.
    assert (p < child)%nat as Hpc by (destruct Hchild; lia).
    destruct (IH (<[p := c]> h) child) as (H1 & H2 & H3 & H4);
      [by rewrite length_insert|rewrite length_insert; lia|done|done|].
    rewrite length_insert in H2. by split_and!. }
  destruct (h !! (2 * p + 1 + 1)%nat) as [cr|] eqn:Hr.
  - destruct (lt cl cr) eqn:Hlr; cbn [negb].
    + rewrite Hl. apply Hstep; [by left|done|].
      intros s y Hs Hne Hy.
      assert (s = 2 * p + 1 + 1)%nat as -> by (destruct Hs; lia).
      rewrite Hr in Hy. injection Hy as <-. by apply lt_le.
    + rewrite Hr. apply Hstep; [right; lia|done|].
      intros s y Hs Hne Hy.
      assert (s = 2 * p + 1)%nat as -> by (destruct Hs; lia).
      rewrite Hl in Hy. by injection Hy as <-.
  - rewrite Hl. apply Hstep; [by left|done|].
    intros s y Hs Hne Hy. exfalso.
    assert (s = 2 * p + 1 + 1)%nat as -> by (destruct Hs; lia). congruence.
Qed.

Lemma siftup_ordered (h : list A) :
  heap_ordered_but lt 0 h → heap_ordered lt (heapq._siftup lt h 0).
Proof.
  intros Hbut. unfold heapq._siftup.
  destruct (h !! 0%nat) as [x|] eqn:Hx.
  2:{ destruct h; [|done]. by intros i j a b _ Ha. }
  assert (0 < length h)%nat as Hp by by eapply lookup_lt_Some.
  destruct (siftup_loop_ordered (length h) h 0 Hp) as (H1 & H2 & H3 & H4);
    [lia|done| |].
  { intros g j a b Hc. destruct Hc; lia. }
  destruct (heapq.siftup_loop lt (length h) h 0) as [h' p']. simpl in *.
  apply siftdown_ordered; [by apply but_insert_hole|].
  intros j Hc. rewrite length_insert. by apply H4.
Qed.

Lemma heapreplace_ordered (h h' : list A) (x : A) :
  heap_ordered lt h → heapq.heapreplace lt h x = Ok h' → heap_ordered lt h'.
Proof.
  intros Hh. unfold heapq.heapreplace. destruct h as [|y h]; [done|].
  intros [= <-]. apply siftup_ordered.
  apply (but_insert_hole (y :: h) 0 x).
  intros i j a b Hc _ _. by apply Hh.
Qed.

(** The root of a heap is a least item. *)
Lemma heap_root_least (h : list A) (m y : A) :
  heap_ordered lt h → h !! 0%nat = Some m → y ∈ h → le m y.
Proof.
  intros Hh Hm (j & Hj)%list_elem_of_lookup. revert y Hj.
  induction j as [j IH] using lt_wf_ind. intros y Hj.
  destruct (decide (j = 0)%nat) as [->|Hne].
  { rewrite Hm in Hj. injection Hj as <-. apply le_refl. }
  pose proof (parent_child j ltac:(lia)) as Hc.
  set (q := ((j - 1) / 2)%nat) in *.
  assert (q < j)%nat as Hq by (destruct Hc; lia).
  destruct (h !! q) as [g|] eqn:Hg.
  2:{ apply lookup_ge_None in Hg. apply lookup_lt_Some in Hj. lia. }
  eapply le_trans; [by apply (IH q)|]. by eapply Hh.
Qed.
End HeapOrder.

(** ** The records [topk] returns *)

Section SortedOrder.
Context {A : Type} (lt : A → A → bool).
Hypothesis lt_asym : ∀ a b, lt a b = true → lt b a = false.
Hypothesis le_trans : ∀ a b c, heap_le lt a b → heap_le lt b c → heap_le lt a c.

Lemma insert_sorted_ordered (x : A) (l : list A) :
  StronglySorted (heap_le lt) l → StronglySorted (heap_le lt) (py.insert_sorted lt x l).
Proof.
  induction 1 as [|y l Hl IH Hy]; simpl.
  - repeat constructor.
  - destruct (lt y x) eqn:Hyx.
    + constructor; [done|]. rewrite insert_sorted_perm.
      constructor; [by apply lt_asym|done].
    + constructor; [by constructor|]. constructor; [done|].
      eapply Forall_impl; [exact Hy|]. intros z Hz. by eapply le_trans.
Qed.

Lemma sorted_ordered (l : list A) : StronglySorted (heap_le lt) (py.sorted lt l).
Proof.
  induction l as [|x l IH]; simpl; [constructor|]. by apply insert_sorted_ordered.
Qed.

Lemma StronglySorted_rev (R : relation A) (l : list A) :
  StronglySorted R l → StronglySorted (flip R) (rev l).
Proof.
  induction 1 as [|x l Hl IH Hx]; simpl; [constructor|].
  apply StronglySorted_app_2; [|done|repeat constructor].
  intros a b Ha Hb. apply list_elem_of_singleton in Hb as ->. rewrite Forall_forall in Hx.
  apply Hx. rewrite list_elem_of_In. apply in_rev. by rewrite <- list_elem_of_In.
Qed.

Lemma sorted_reverse_ordered (l : list A) :
  StronglySorted (flip (heap_le lt)) (py.sorted_reverse lt l).
Proof. apply StronglySorted_rev, sorted_ordered. Qed.
End SortedOrder.

(** The order of the pairs: by key, then by id. *)
Lemma num_le_iff (a b : num) : py.num_le a b = true ↔ (py.num_val a <= py.num_val b)%Q.
Proof. apply Qle_bool_iff. Qed.

Lemma num_lt_iff (a b : num) : py.num_lt a b = true ↔ (py.num_val a < py.num_val b)%Q.
Proof.
  unfold py.num_lt. rewrite negb_true_iff, <- not_true_iff_false, Qle_bool_iff.
  split; [apply Qnot_le_lt|apply Qlt_not_le].
Qed.

Lemma num_eq_iff (a b : num) : py.num_eq a b = true ↔ (py.num_val a == py.num_val b)%Q.
Proof. apply Qeq_bool_iff. Qed.

Lemma pair_lt_iff (a b : num * Z) :
  pair_lt a b = true ↔
  (py.num_val a.1 < py.num_val b.1)%Q
  ∨ ((py.num_val a.1 == py.num_val b.1)%Q ∧ (a.2 < b.2)%Z).
Proof.
  unfold pair_lt. destruct (py.num_eq a.1 b.1) eqn:He.
  - apply num_eq_iff in He. rewrite Z.ltb_lt. split; [by right|].
    intros [Hlt|[_ ?]]; [|done]. rewrite He in Hlt. by apply Qlt_irrefl in Hlt.
  - rewrite num_lt_iff. split; [by left|]. intros [?|[Heq _]]; [done|].
    apply num_eq_iff in Heq. congruence.
Qed.

Lemma pair_le_iff (a b : num * Z) :
  heap_le pair_lt a b ↔
  (py.num_val a.1 < py.num_val b.1)%Q
  ∨ ((py.num_val a.1 == py.num_val b.1)%Q ∧ (a.2 ≤ b.2)%Z).
Proof.
  unfold heap_le. rewrite <- not_true_iff_false, pair_lt_iff. split.
  - intros Hn. destruct (Q_dec (py.num_val a.1) (py.num_val b.1)) as [[Hlt|Hgt]|Heq].
    + by left.
    + destruct Hn. by left.
    + right. split; [done|]. destruct (Z.le_gt_cases a.2 b.2) as [|Hlt]; [done|].
      destruct Hn. right. by split.
  - intros [Hlt|[Heq Hle]] [Hgt|[Heq' Hlt']].
    + eapply Qlt_irrefl, Qlt_trans; [exact Hlt|exact Hgt].
    + rewrite Heq' in Hlt. by apply Qlt_irrefl in Hlt.
    + rewrite Heq in Hgt. by apply Qlt_irrefl in Hgt.
    + lia.
Qed.

Lemma pair_lt_asym (a b : num * Z) : pair_lt a b = true → pair_lt b a = false.
Proof.
  intros Hab. change (heap_le pair_lt a b). apply pair_le_iff.
  apply pair_lt_iff in Hab as [?|[? ?]]; [by left|right; split; [done|lia]].
Qed.

Lemma pair_le_trans (a b c : num * Z) :
  heap_le pair_lt a b → heap_le pair_lt b c → heap_le pair_lt a c.
Proof.
  rewrite !pair_le_iff. intros [H1|[H1 H1']] [H2|[H2 H2']].
  - left. by eapply Qlt_trans.
  - left. by rewrite <- H2.
  - left. by rewrite H1.
  - right. split; [by rewrite H1|lia].
Qed.

Lemma pair_le_key (a b : num * Z) : heap_le pair_lt a b → py.num_le a.1 b.1 = true.
Proof.
  rewrite pair_le_iff, num_le_iff. intros [?|[Heq _]]; [by apply Qlt_le_weak|].
  rewrite Heq. apply Qle_refl.
Qed.

Lemma num_le_trans (a b c : num) :
  py.num_le a b = true → py.num_le b c = true → py.num_le a c = true.
Proof. rewrite !num_le_iff. apply Qle_trans. Qed.

Lemma num_gt_le (a b : num) : py.num_gt a b = true → py.num_le b a = true.
Proof. unfold py.num_gt. rewrite num_lt_iff, num_le_iff. apply Qlt_le_weak. Qed.

Lemma num_not_gt_le (a b : num) : py.num_gt a b = false → py.num_le a b = true.
Proof.
  unfold py.num_gt, py.num_lt. rewrite negb_false_iff. done.
Qed.

Lemma index_0_lookup {A : Type} (l : list A) (x : A) :
  py.index l 0 = Ok x → l !! 0%nat = Some x.
Proof.
  unfold py.index. simpl. destruct l as [|y l]; [done|]. simpl. by intros [= <-].
Qed.

Lemma replaced_perm {A : Type} (x t : A) (a b c : list A) :
  x :: (a ++ t :: b) ++ c ≡ₚ t :: (a ++ b) ++ x :: c.
Proof.
  rewrite <- !app_assoc. simpl. rewrite <- !Permutation_middle. apply perm_swap.
Qed.

(** The loop keeps a heap of the largest pairs met so far: every pair it
    has let go of is below every pair it holds, and together they are the
    pairs of all the ids met. *)
Lemma topk_loop_spec (events : list DisasterEvent)
    (key : DisasterEvent → option num) (k : Z) (ids : list Z)
    (heap dropped heap' : list (num * Z)) :
  (∀ e, is_Some (key e)) →
  heap_ordered pair_lt heap →
  Forall (ranked events key) (heap ++ dropped) →
  ((Z.of_nat (length heap) < k)%Z → dropped = []) →
  (∀ d h, d ∈ dropped → h ∈ heap → py.num_le d.1 h.1 = true) →
  topk_loop events key k ids heap = Ok heap' →
  ∃ dropped',
    heap'.*2 ++ dropped'.*2 ≡ₚ (heap.*2 ++ dropped.*2) ++ ids
    ∧ Forall (ranked events key) (heap' ++ dropped')
    ∧ (∀ d h, d ∈ dropped' → h ∈ heap' → py.num_le d.1 h.1 = true).
Proof.
  intros Hkey. revert heap dropped.
  induction ids as [|eid ids IH]; intros heap dropped Hord Hrank Hfull Hlow; simpl.
  { intros [= <-]. exists dropped. by rewrite app_nil_r. }
  intros Hl. bind_inv Hl as e He.
  destruct (Hkey e) as [v Hv]. rewrite Hv in Hl.
  assert (ranked events key (v, eid)) as Hnew by by exists e.
  destruct (Z.ltb_spec (Z.of_nat (length heap)) k) as [Hlt|Hge].
  - pose proof (heappush_perm pair_lt heap (v, eid)) as Hperm.
    rewrite (Hfull Hlt) in *.
    destruct (IH _ []
                (heappush_ordered pair_lt pair_lt_asym pair_le_trans heap (v, eid) Hord))
      as (dropped' & Hp & Hr & Hd); [| | |exact Hl|].
    + rewrite app_nil_r in *. rewrite Hperm. by constructor.
    + done.
    + intros d h Hd. by apply elem_of_nil in Hd.
    + exists dropped'. split_and!; [|done|done].
      rewrite Hp, Hperm. simpl. rewrite !app_nil_r.
      by rewrite <- Permutation_middle.
  - bind_inv Hl as top Ht. apply index_0_lookup in Ht.
    assert (top ∈ heap) as Htop by by eapply list_elem_of_lookup_2.
    assert (∀ h, h ∈ heap → py.num_le top.1 h.1 = true) as Hleast.
    { intros h Hh. apply pair_le_key.
      by eapply (heap_root_least pair_lt pair_lt_asym pair_le_trans heap). }
    apply Forall_app in Hrank as [Hrh Hrd].
    destruct (py.num_gt v top.1) eqn:Hgt.
    + bind_inv Hl as heap1 H1.
      pose proof (heapreplace_perm pair_lt _ _ _ H1) as Hperm.
      pose proof (heapreplace_length pair_lt _ _ _ H1) as Hlen.
      assert (heap ≡ₚ top :: tail heap) as Hsplit.
      { destruct heap as [|t heap]; [done|]. simpl in *. by injection Ht as ->. }
      destruct (IH heap1 (top :: dropped)
                  (heapreplace_ordered pair_lt pair_lt_asym pair_le_trans _ _ _ Hord H1))
        as (dropped' & Hp & Hr & Hd); [| | |exact Hl|].
      * rewrite Hperm. rewrite Hsplit in Hrh. apply Forall_cons in Hrh as [Hrt Hrh].
        rewrite Forall_app, !Forall_cons. by split_and!.
      * lia.
      * intros d h Hd Hh. rewrite Hperm in Hh.
        assert (py.num_le d.1 top.1 = true) as Hdt.
        { apply elem_of_cons in Hd as [->|Hd]; [by apply Hleast|by apply Hlow]. }
        apply elem_of_cons in Hh as [->|Hh].
        -- eapply num_le_trans; [exact Hdt|by apply num_gt_le].
        -- eapply num_le_trans; [exact Hdt|]. apply Hleast.
           rewrite Hsplit. by right.
      * exists dropped'. split_and!; [|done|done].
        rewrite Hp, Hperm. rewrite (fmap_Permutation snd _ _ Hsplit). simpl.
        apply replaced_perm.
    + destruct (IH heap (dropped ++ [(v, eid)]) Hord)
        as (dropped' & Hp & Hr & Hd); [| | |exact Hl|].
      * rewrite !Forall_app. by rewrite Forall_singleton.
      * lia.
      * intros d h [Hd|Hd]%elem_of_app Hh; [by apply Hlow|].
        apply list_elem_of_singleton in Hd as ->.
        apply (num_le_trans _ top.1); [exact (num_not_gt_le _ _ Hgt)|by apply Hleast].
      * exists dropped'. split_and!; [|done|done].
        rewrite Hp. rewrite fmap_app. by rewrite <- !app_assoc.
Qed.

(** What [topk] does return for [k >= 1]: the records of [min k n] of the
    [n] selected ids, in descending order of the pairs (key, id), and no
    selected record left out has a key above the key of a returned one.
    The key of a record without a value is the sentinel [-1]. *)
Lemma topk_ranks (self : ODIE) (k : Z) (field : string) (out : list DisasterEvent) :
  (0 < k)%Z →
  topk self k field = Ok out →
  ∃ key (kept dropped : list (num * Z)),
    _field_key field = Ok key
    ∧ kept.*2 ++ dropped.*2 ≡ₚ active_ids (state self)
    ∧ Forall (ranked (events self) key) (kept ++ dropped)
    ∧ mapM (fun p : num * Z => py.index (events self) p.2) kept = Ok out
    ∧ length kept = (Z.to_nat k `min` length (active_ids (state self)))%nat
    ∧ (∀ d h, d ∈ dropped → h ∈ kept → py.num_le d.1 h.1 = true)
    ∧ StronglySorted (flip (heap_le pair_lt)) kept.
Proof.
  intros Hk. unfold topk. intros Ht.
  bind_inv Ht as key Hkey. bind_inv Ht as heap Hh.
  assert (∀ e, is_Some (key e)) as Htot by (intros e; by eapply field_key_total).
  destruct (topk_loop_spec (events self) key k (active_ids (state self)) [] [] heap Htot)
    as (dropped & Hp & Hr & Hd); [| | | |exact Hh|].
  - by intros i j x y _ Hi.
  - constructor.
  - done.
  - intros d h Hd. by apply elem_of_nil in Hd.
  - exists key, (py.sorted_reverse pair_lt heap), dropped. split_and!.
    + done.
    + by rewrite sorted_reverse_perm, Hp.
    + by rewrite sorted_reverse_perm.
    + done.
    + rewrite sorted_reverse_perm.
      apply topk_loop_length in Hh; [done|done|done|simpl; lia].
    + intros d h Hdd. rewrite sorted_reverse_perm. by apply Hd.
    + apply sorted_reverse_ordered; [apply pair_lt_asym|apply pair_le_trans].
Qed.

(** ** Quick sort *)

Lemma index_middle {A : Type} (l1 l2 : list A) (x : A) (i : Z) :
  i = Z.of_nat (length l1) → py.index (l1 ++ x :: l2) i = Ok x.
Proof.
  intros ->. unfold py.index.
  destruct (Z.ltb_spec (Z.of_nat (length l1)) 0) as [|_]; [lia|].
  destruct (Z.ltb_spec (Z.of_nat (length l1)) 0) as [|_]; [lia|].
  rewrite Nat2Z.id. by rewrite list_lookup_middle.
Qed.

Lemma setitem_middle {A : Type} (l1 l2 : list A) (x y : A) (i : Z) :
  i = Z.of_nat (length l1) → py.setitem (l1 ++ x :: l2) i y = Ok (l1 ++ y :: l2).
Proof.
  intros ->. unfold py.setitem.
  destruct (Z.ltb_spec (Z.of_nat (length l1)) 0) as [|_]; [lia|].
  destruct (Z.ltb_spec (Z.of_nat (length l1)) 0) as [|_]; [lia|].
  destruct (Z.ltb_spec (Z.of_nat (length l1)) (Z.of_nat (length (l1 ++ x :: l2)))) as [_|Hge].
  2:{ rewrite length_app in Hge. simpl in Hge. lia. }
  rewrite Nat2Z.id. f_equal.
  replace (length l1) with (length l1 + 0)%nat at 1 by lia.
  by rewrite insert_app_r.
Qed.

Lemma range2_nil (lo hi : Z) : (hi ≤ lo)%Z → py.range2 lo hi = [].
Proof. intros Hle. unfold py.range2. by replace (Z.to_nat (hi - lo)) with 0%nat by lia. Qed.

Lemma range2_cons (lo hi : Z) :
  (lo < hi)%Z → py.range2 lo hi = lo :: py.range2 (lo + 1) hi.
Proof.
  intros Hlt. unfold py.range2.
  replace (Z.to_nat (hi - lo)) with (S (Z.to_nat (hi - (lo + 1)))) by lia.
  simpl. f_equal; [lia|].
  rewrite <- fmap_S_seq, <- list_fmap_compose. apply list_fmap_ext.
  intros _ k _. simpl. lia.
Qed.

Section QuickSortFacts.
Context {T K : Type} (key : T → K) (le ge : K → K → bool) (key_frames : nat).

#[local] Abbreviation swap := (@dsa.swap T).
#[local] Abbreviation partition_loop := (dsa.partition_loop key le ge key_frames).
#[local] Abbreviation _partition := (dsa._partition key le ge key_frames).
#[local] Abbreviation _quick_sort_inplace :=
  (dsa._quick_sort_inplace key le ge key_frames).

Lemma swap_same (l1 l2 : list T) (x : T) (i : Z) :
  i = Z.of_nat (length l1) → swap (l1 ++ x :: l2) i i = Ok (l1 ++ x :: l2).
Proof.
  intros Hi. unfold dsa.swap. rewrite (index_middle l1 l2 x i Hi). simpl.
  rewrite (setitem_middle l1 l2 x x i Hi). simpl. by apply setitem_middle.
Qed.

Lemma swap_apart (l1 l2 l3 : list T) (x y : T) (i j : Z) :
  i = Z.of_nat (length l1) → j = (i + 1 + Z.of_nat (length l2))%Z →
  swap (l1 ++ x :: l2 ++ y :: l3) i j = Ok (l1 ++ y :: l2 ++ x :: l3).
Proof.
  intros Hi Hj. unfold dsa.swap.
  assert (∀ a b : T, l1 ++ a :: l2 ++ b :: l3 = (l1 ++ a :: l2) ++ b :: l3) as Hsplit.
  { intros a b. by rewrite <- app_assoc. }
  assert (∀ a : T, j = Z.of_nat (length (l1 ++ a :: l2))) as Hj'.
  { intros a. rewrite length_app. simpl. lia. }
  rewrite (Hsplit x y), (index_middle _ l3 y j (Hj' x)). simpl.
  rewrite <- (Hsplit x y), (index_middle l1 _ x i Hi). simpl.
  rewrite (setitem_middle l1 _ x y i Hi). simpl.
  rewrite (Hsplit y y), (setitem_middle _ l3 y x j (Hj' y)). by rewrite <- Hsplit.
Qed.

Section Direction.
Context (reverse : bool).

(** The test of [_partition] against the pivot. *)
Let cond (pivot : K) (x : T) : bool :=
  if reverse then ge (key x) pivot else le (key x) pivot.

Lemma partition_loop_spec (frames : nat) (pivot : K) (rest pre L M tail : list T)
    (i j hi : Z) :
  (key_frames ≤ frames)%nat →
  i = Z.of_nat (length pre + length L) →
  j = (i + Z.of_nat (length M))%Z →
  hi = (j + Z.of_nat (length rest))%Z →
  Forall (fun x => cond pivot x = true) L →
  Forall (fun x => cond pivot x = false) M →
  ∃ L' M',
    partition_loop frames reverse pivot (py.range2 j hi) (pre ++ L ++ M ++ rest ++ tail) i
    = Ok (pre ++ L' ++ M' ++ tail, Z.of_nat (length pre + length L'))
    ∧ L' ++ M' ≡ₚ L ++ M ++ rest
    ∧ Forall (fun x => cond pivot x = true) L'
    ∧ Forall (fun x => cond pivot x = false) M'.
Proof.
  intros Hframes.
  revert L M i j. induction rest as [|x rest IH]; intros L M i j Hi Hj Hhi HL HM.
  { rewrite range2_nil by (simpl in Hhi; lia). simpl.
    exists L, M. rewrite app_nil_r. subst i. by split_and!. }
  rewrite range2_cons by (simpl in Hhi; lia). cbn [dsa.partition_loop].
  assert (pre ++ L ++ M ++ (x :: rest) ++ tail
          = (pre ++ L ++ M) ++ x :: rest ++ tail) as Hsplit.
  { by rewrite <- !app_assoc. }
  rewrite Hsplit, (index_middle _ _ x j).
  2:{ rewrite !length_app. lia. }
  calls_enough. fold (cond pivot x). destruct (cond pivot x) eqn:Hc.
  - destruct M as [|m M].
    + rewrite app_nil_r. assert (j = i) as -> by (simpl in Hj; lia).
      rewrite (swap_same (pre ++ L) _ x i) by (rewrite length_app; lia).
      simpl.
      destruct (IH (L ++ [x]) [] (i + 1)%Z (i + 1)%Z) as (L' & M' & Hrun & Hp & HL' & HM').
      * rewrite length_app. simpl. lia.
      * simpl in *. lia.
      * simpl in *. lia.
      * apply Forall_app. by split; [|constructor].
      * done.
      * exists L', M'. split_and!; [|rewrite Hp|done|done].
        -- rewrite <- Hrun. f_equal. simpl. by rewrite <- !app_assoc.
        -- simpl. by rewrite <- !app_assoc.
    + assert (pre ++ L ++ m :: M = (pre ++ L) ++ m :: M) as -> by by rewrite <- app_assoc.
      rewrite <- (app_assoc (pre ++ L)). simpl.
      rewrite (swap_apart (pre ++ L) M _ m x i j).
      2:{ rewrite length_app. lia. }
      2:{ simpl in Hj. lia. }
      simpl.
      destruct (IH (L ++ [x]) (M ++ [m]) (i + 1)%Z (j + 1)%Z)
        as (L' & M' & Hrun & Hp & HL' & HM').
      * rewrite length_app. simpl. lia.
      * rewrite length_app. simpl in *. lia.
      * simpl in *. lia.
      * apply Forall_app. by split; [|constructor].
      * apply Forall_cons in HM as [Hm HM]. apply Forall_app. by split; [|constructor].
      * exists L', M'. split_and!; [|rewrite Hp|done|done].
        -- rewrite <- Hrun. f_equal. by rewrite <- !app_assoc.
        -- solve_Permutation.
  - rewrite <- Hsplit.
    destruct (IH L (M ++ [x]) i (j + 1)%Z) as (L' & M' & Hrun & Hp & HL' & HM').
    + done.
    + rewrite length_app. simpl. lia.
    + simpl in *. lia.
    + done.
    + apply Forall_app. by split; [|constructor].
    + exists L', M'. split_and!; [|rewrite Hp|done|done].
      * rewrite <- Hrun. f_equal. by rewrite <- !app_assoc.
      * by rewrite <- !app_assoc.
Qed.

(** On records that all pass the test the loop swaps each with itself:
    the list is left as it is. *)
Lemma partition_loop_ordered (frames : nat) (pivot : K) (rest pre tail : list T)
    (i hi : Z) :
  (key_frames ≤ frames)%nat →
  i = Z.of_nat (length pre) →
  hi = (i + Z.of_nat (length rest))%Z →
  Forall (fun x => cond pivot x = true) rest →
  partition_loop frames reverse pivot (py.range2 i hi) (pre ++ rest ++ tail) i
  = Ok (pre ++ rest ++ tail, hi).
Proof.
  intros Hframes.
  revert pre i. induction rest as [|x rest IH]; intros pre i Hi Hhi Hall.
  { rewrite range2_nil by (simpl in Hhi; lia). simpl in *.
    by replace hi with i by lia. }
  apply Forall_cons in Hall as [Hx Hall].
  rewrite range2_cons by (simpl in Hhi; lia). cbn [dsa.partition_loop].
  simpl. rewrite (index_middle pre _ x i Hi). calls_enough.
  fold (cond pivot x).
  rewrite Hx, (swap_same pre _ x i Hi). simpl.
  assert (pre ++ x :: rest ++ tail = (pre ++ [x]) ++ rest ++ tail) as ->
    by by rewrite <- app_assoc.
  apply IH; [rewrite length_app; simpl; lia|simpl in Hhi; lia|done].
Qed.

Lemma partition_spec (frames : nat) (pre seg post : list T) (pv : T) (lo hi : Z) :
  (key_frames < frames)%nat →
  lo = Z.of_nat (length pre) →
  hi = (lo + Z.of_nat (length seg))%Z →
  ∃ L R,
    _partition frames reverse (pre ++ seg ++ pv :: post) lo hi
    = Ok (pre ++ L ++ pv :: R ++ post, Z.of_nat (length pre + length L))
    ∧ L ++ R ≡ₚ seg
    ∧ Forall (fun x => cond (key pv) x = true) L
    ∧ Forall (fun x => cond (key pv) x = false) R.
Proof.
  intros Hframes Hlo Hhi. destruct frames as [|f]; [lia|].
  unfold dsa._partition, py.call.
  assert (pre ++ seg ++ pv :: post = (pre ++ seg) ++ pv :: post) as Hsplit
    by by rewrite <- app_assoc.
  rewrite Hsplit, (index_middle _ _ pv hi) by (rewrite length_app; lia).
  rewrite <- Hsplit. calls_enough.
  destruct (partition_loop_spec f (key pv) seg pre [] [] (pv :: post) lo lo hi)
    as (L & M & Hrun & Hp & HL & HM); [lia|simpl; lia|simpl; lia|lia|done|done|].
  simpl in Hrun, Hp. rewrite Hrun. simpl.
  assert (length seg = length L + length M)%nat as Hlen.
  { by rewrite <- Hp, length_app. }
  destruct M as [|m M].
  - exists L, []. rewrite app_nil_r in Hp. simpl in *.
    assert (pre ++ L ++ pv :: post = (pre ++ L) ++ pv :: post) as -> by by rewrite <- app_assoc.
    replace hi with (Z.of_nat (length pre + length L)) by lia.
    rewrite swap_same by (rewrite length_app; lia). simpl.
    split_and!; [done|by rewrite app_nil_r|done|done].
  - exists L, (M ++ [m]). apply Forall_cons in HM as [Hm HM].
    assert (pre ++ L ++ (m :: M) ++ pv :: post = (pre ++ L) ++ m :: M ++ pv :: post) as ->
      by by rewrite <- app_assoc.
    rewrite (swap_apart (pre ++ L) M post m pv _ hi).
    2:{ rewrite length_app. lia. }
    2:{ simpl in Hlen. lia. }
    simpl. split_and!.
    + do 2 f_equal. by rewrite <- !app_assoc.
    + rewrite <- Hp. solve_Permutation.
    + done.
    + apply Forall_app. by split; [|constructor].
Qed.

(** When the pivot is in order after the whole segment, [_partition]
    leaves the list as it is and the pivot where it was, at [hi]. *)
Lemma partition_ordered (frames : nat) (pre seg post : list T) (pv : T) (lo hi : Z) :
  (key_frames < frames)%nat →
  lo = Z.of_nat (length pre) →
  hi = (lo + Z.of_nat (length seg))%Z →
  Forall (fun x => cond (key pv) x = true) seg →
  _partition frames reverse (pre ++ seg ++ pv :: post) lo hi
  = Ok (pre ++ seg ++ pv :: post, hi).
Proof.
  intros Hframes Hlo Hhi Hall. destruct frames as [|f]; [lia|].
  unfold dsa._partition, py.call.
  assert (pre ++ seg ++ pv :: post = (pre ++ seg) ++ pv :: post) as Hsplit
    by by rewrite <- app_assoc.
  rewrite Hsplit, (index_middle _ _ pv hi) by (rewrite length_app; lia).
  rewrite <- Hsplit. calls_enough.
  rewrite (partition_loop_ordered f (key pv) seg pre (pv :: post) lo hi)
    by (done || lia).
  simpl. rewrite Hsplit, swap_same by (rewrite length_app; lia). done.
Qed.

(** With no frame for itself, or too few left for the call of [key],
    [_partition] raises. *)
Lemma partition_starved (frames : nat) (pre seg post : list T) (pv : T) (lo hi : Z) :
  (frames ≤ key_frames)%nat →
  hi = Z.of_nat (length pre + length seg) →
  _partition frames reverse (pre ++ seg ++ pv :: post) lo hi = Raise RecursionError.
Proof.
  intros Hf Hhi. destruct frames as [|f]; [done|].
  unfold dsa._partition, py.call.
  assert (pre ++ seg ++ pv :: post = (pre ++ seg) ++ pv :: post) as ->
    by by rewrite <- app_assoc.
  rewrite (index_middle _ _ pv hi) by (rewrite length_app; lia).
  by calls_starved.
Qed.

(** The order of the direction, on the records. *)
Let in_order (x y : T) : Prop :=
  (if reverse then ge (key x) (key y) else le (key x) (key y)) = true.

(** On a segment in order, of two records or more, the recursion is as
    deep as the segment is long, and the call of [key] comes on top. *)
Lemma quick_sort_inplace_ordered (frames : nat) (pre seg post : list T) (lo hi : Z) :
  StronglySorted in_order seg →
  (2 ≤ length seg)%nat →
  (frames < length seg + key_frames)%nat →
  lo = Z.of_nat (length pre) →
  hi = (lo + Z.of_nat (length seg) - 1)%Z →
  _quick_sort_inplace frames reverse (pre ++ seg ++ post) lo hi = Raise RecursionError.
Proof.
  revert seg post hi.
  induction frames as [|frames IH]; intros seg post hi Hs Hlen Hf Hlo Hhi; [done|].
  cbn [dsa._quick_sort_inplace].
  destruct (Z.leb_spec hi lo) as [Hle|_]; [lia|].
  destruct (exists_last (l := seg)) as (seg0 & pv & ->).
  { intros ->. simpl in Hlen. lia. }
  rewrite length_app in Hhi, Hf, Hlen. simpl in Hhi, Hf, Hlen.
  rewrite <- (app_assoc seg0). simpl.
  destruct (decide (frames ≤ key_frames)%nat) as [Hstarved|Hframes].
  { rewrite partition_starved by lia. done. }
  apply StronglySorted_app in Hs as (Hlow & Hs0 & _).
  rewrite partition_ordered; [|lia|done|lia|].
  2:{ apply Forall_forall. intros x Hx. apply (Hlow x pv Hx). by left. }
  simpl. rewrite (IH seg0 (pv :: post)); [done|done|lia|lia|done|lia].
Qed.

Hypothesis c_total : ∀ x y, in_order x y ∨ in_order y x.
Hypothesis c_trans : ∀ x y z, in_order x y → in_order y z → in_order x z.

(** [_quick_sort_inplace] sorts the segment, or runs out of frames, and
    then it had fewer frames than the segment has records and the call of
    [key] takes, or none at all. *)
Lemma quick_sort_inplace_outcome (frames : nat) (pre seg post : list T) (lo hi : Z) :
  lo = Z.of_nat (length pre) →
  hi = (lo + Z.of_nat (length seg) - 1)%Z →
  (∃ seg',
     _quick_sort_inplace frames reverse (pre ++ seg ++ post) lo hi
     = Ok (pre ++ seg' ++ post)
     ∧ seg' ≡ₚ seg
     ∧ StronglySorted in_order seg')
  ∨ (_quick_sort_inplace frames reverse (pre ++ seg ++ post) lo hi
     = Raise RecursionError
     ∧ (frames = 0 ∨ frames < length seg + key_frames)%nat).
Proof.
  revert pre seg post lo hi.
  induction frames as [|frames IH]; intros pre seg post lo hi Hlo Hhi.
  { right. split; [done|by left]. }
  cbn [dsa._quick_sort_inplace].
  destruct (Z.leb_spec hi lo) as [Hle|Hlt].
  { left. exists seg. split_and!; [done|done|].
    destruct seg as [|x [|y seg]]; [constructor|by repeat constructor|simpl in Hhi; lia]. }
  destruct (exists_last (l := seg)) as (seg0 & pv & ->).
  { intros ->. simpl in Hhi. lia. }
  rewrite length_app in Hhi |- *. simpl in Hhi |- *.
  rewrite <- (app_assoc seg0). simpl.
  destruct (decide (frames ≤ key_frames)%nat) as [Hstarved|Hframes].
  { right. rewrite partition_starved by lia. split; [done|lia]. }
  destruct (partition_spec frames pre seg0 post pv lo hi)
    as (L & R & Hrun & Hp & HL & HR); [lia|done|lia|].
  rewrite Hrun. simpl.
  assert (length seg0 = length L + length R)%nat as Hlen.
  { by rewrite <- Hp, length_app. }
  destruct (IH pre L (pv :: R ++ post) lo (Z.of_nat (length pre + length L) - 1)%Z)
    as [(L' & HrunL & HpL & HsL)|[HrunL HfL]]; [done|lia| |].
  2:{ right. rewrite HrunL. split; [done|lia]. }
  rewrite HrunL. simpl.
  assert (length L' = length L) as HlenL by by rewrite HpL.
  assert (pre ++ L' ++ pv :: R ++ post = (pre ++ L' ++ [pv]) ++ R ++ post) as ->.
  { by rewrite <- !app_assoc. }
  destruct (IH (pre ++ L' ++ [pv]) R post (Z.of_nat (length pre + length L) + 1)%Z hi)
    as [(R' & HrunR & HpR & HsR)|[HrunR HfR]].
  { rewrite !length_app. simpl. lia. }
  { lia. }
  2:{ right. rewrite HrunR. split; [done|lia]. }
  left. rewrite HrunR. exists (L' ++ pv :: R'). split_and!.
  - f_equal. by rewrite <- !app_assoc.
  - rewrite HpL, HpR, <- Hp. solve_Permutation.
  - assert (∀ x, x ∈ L' → in_order x pv) as Hlow.
    { intros x Hx. rewrite HpL in Hx. rewrite Forall_forall in HL. by apply HL. }
    assert (∀ y, y ∈ R' → in_order pv y) as Hhigh.
    { intros y Hy. rewrite HpR in Hy. rewrite Forall_forall in HR.
      specialize (HR y Hy). unfold cond in HR. unfold in_order.
      destruct (c_total y pv) as [Hc|Hc]; [unfold in_order in Hc; congruence|done]. }
    apply StronglySorted_app_2; [|done|].
    + intros x y Hx [->|Hy]%elem_of_cons; [by apply Hlow|].
      eapply c_trans; [by apply Hlow|by apply Hhigh].
    + constructor; [done|]. by apply Forall_forall.
Qed.

(** [quick_sort] returns its input sorted, or runs out of frames, and then
    it had fewer than two frames, or no more than the input has records
    and the call of [key] takes. *)
Lemma quick_sort_outcome (frames : nat) (arr : list T) :
  (∃ out,
     dsa.quick_sort key le ge key_frames frames reverse arr = Ok out
     ∧ out ≡ₚ arr
     ∧ StronglySorted in_order out)
  ∨ (dsa.quick_sort key le ge key_frames frames reverse arr = Raise RecursionError
     ∧ (frames < 2 ∨ frames ≤ length arr + key_frames)%nat).
Proof.
  unfold dsa.quick_sort. destruct frames as [|frames]; simpl.
  { right. split; [done|lia]. }
  destruct (quick_sort_inplace_outcome frames [] arr [] 0
              (Z.of_nat (length arr) - 1)%Z) as [(out & Hrun & Hp & Hs)|[Hrun Hf]];
    [done|lia| |].
  - left. simpl in Hrun. rewrite !app_nil_r in Hrun. by exists out.
  - right. simpl in Hrun. rewrite !app_nil_r in Hrun. split; [done|lia].
Qed.

Lemma quick_sort_spec (frames : nat) (arr : list T) :
  (2 ≤ frames)%nat →
  (length arr + key_frames < frames)%nat →
  ∃ out,
    dsa.quick_sort key le ge key_frames frames reverse arr = Ok out
    ∧ out ≡ₚ arr
    ∧ StronglySorted in_order out.
Proof.
  intros Hf2 Hf. destruct (quick_sort_outcome frames arr) as [Hok|[_ Hlow]]; [done|lia].
Qed.
End Direction.

(** On a list already in the order of the direction, of two records or
    more, [quick_sort] raises unless it is left more frames than the list
    has records and the call of [key] takes. *)
Lemma quick_sort_ordered (reverse : bool) (frames : nat) (arr : list T) :
  StronglySorted (fun x y => (if reverse then ge (key x) (key y)
                              else le (key x) (key y)) = true) arr →
  (2 ≤ length arr)%nat →
  (frames ≤ length arr + key_frames)%nat →
  dsa.quick_sort key le ge key_frames frames reverse arr = Raise RecursionError.
Proof.
  intros Hs Hlen Hf. unfold dsa.quick_sort. destruct frames as [|frames]; [done|].
  simpl.
  pose proof (quick_sort_inplace_ordered reverse frames [] arr [] 0
                (Z.of_nat (length arr) - 1)%Z Hs Hlen) as Hrun.
  simpl in Hrun. rewrite !app_nil_r in Hrun. apply Hrun; [lia|done|lia].
Qed.
End QuickSortFacts.

(** ** Merge sort in descending order *)

Section MergeSortDescending.
Context {T K : Type} (key : T → K) (le gt : K → K → bool).
Hypothesis gt_asym : ∀ a b, gt a b = true → gt b a = false.
Hypothesis not_gt_trans : ∀ a b c, gt b a = false → gt c b = false → gt c a = false.

#[local] Abbreviation _merge := (dsa._merge key le gt).
#[local] Abbreviation merge_sort_rec := (dsa.merge_sort_rec key le gt).

(** No later record has a key above the key of an earlier one. *)
Let not_above (x y : T) : Prop := gt (key y) (key x) = false.

Lemma merge_descending (l r : list T) :
  StronglySorted not_above l → StronglySorted not_above r →
  StronglySorted not_above (_merge true l r).
Proof.
  intros Hl. revert r. induction Hl as [|x l Hl IHl Hx]; intros r Hr; [by destruct r|].
  induction Hr as [|y r Hr IHr Hy]; [rewrite merge_nil_r; by constructor|].
  rewrite merge_cons. destruct (gt (key x) (key y)) eqn:Hxy.
  - assert (not_above x y) as Hxy' by by apply gt_asym.
    constructor; [apply IHl; by constructor|].
    rewrite merge_perm. apply Forall_app. split; [done|].
    constructor; [done|]. eapply Forall_impl; [exact Hy|].
    intros z Hz. by eapply not_gt_trans.
  - constructor; [done|].
    rewrite merge_perm. apply Forall_app. split; [|done].
    constructor; [done|]. eapply Forall_impl; [exact Hx|].
    intros z Hz. by eapply not_gt_trans.
Qed.

Lemma merge_sort_rec_descending (n : nat) (arr : list T) :
  (length arr ≤ n)%nat → StronglySorted not_above (merge_sort_rec n true arr).
Proof.
  revert arr. induction n as [|n IH]; intros arr Hn.
  { destruct arr; [|simpl in Hn; lia]. constructor. }
  cbn [dsa.merge_sort_rec].
  destruct (Nat.leb_spec (length arr) 1) as [Hle|Hlen].
  { destruct arr as [|x [|y arr]]; [constructor| |simpl in Hle; lia].
    by repeat constructor. }
  pose proof (half_lt (length arr) Hlen) as Hhalf. cbv zeta.
  apply merge_descending; apply IH; rewrite ?length_take, ?length_drop; lia.
Qed.

Lemma merge_sort_descending (arr : list T) :
  StronglySorted not_above (dsa.merge_sort key le gt true arr).
Proof. by apply merge_sort_rec_descending. Qed.
End MergeSortDescending.

(** ** The sorts depend on the keys through the comparisons only *)

Section SortExt.
Context {T K1 K2 : Type} (key1 : T → K1) (key2 : T → K2).
Context (le1 gt1 ge1 : K1 → K1 → bool) (le2 gt2 ge2 : K2 → K2 → bool).
Hypothesis le_ext : ∀ x y, le1 (key1 x) (key1 y) = le2 (key2 x) (key2 y).
Hypothesis gt_ext : ∀ x y, gt1 (key1 x) (key1 y) = gt2 (key2 x) (key2 y).
Hypothesis ge_ext : ∀ x y, ge1 (key1 x) (key1 y) = ge2 (key2 x) (key2 y).

Lemma merge_ext (reverse : bool) (l r : list T) :
  dsa._merge key1 le1 gt1 reverse l r = dsa._merge key2 le2 gt2 reverse l r.
Proof.
  revert r. induction l as [|x l IHl]; intros r; [by destruct r|].
  induction r as [|y r IHr]; [done|].
  rewrite !merge_cons, le_ext, gt_ext, IHl, IHr. done.
Qed.

Lemma merge_sort_ext (reverse : bool) (arr : list T) :
  dsa.merge_sort key1 le1 gt1 reverse arr = dsa.merge_sort key2 le2 gt2 reverse arr.
Proof.
  unfold dsa.merge_sort. generalize (length arr). intros n. revert arr.
  induction n as [|n IH]; intros arr; [done|].
  cbn [dsa.merge_sort_rec]. destruct (length arr <=? 1)%nat; [done|].
  cbv zeta. by rewrite !IH, merge_ext.
Qed.

Lemma partition_loop_ext (kf frames : nat) (reverse : bool) (pv : T) (js : list Z)
    (a : list T) (i : Z) :
  dsa.partition_loop key1 le1 ge1 kf frames reverse (key1 pv) js a i
  = dsa.partition_loop key2 le2 ge2 kf frames reverse (key2 pv) js a i.
Proof.
  revert a i. induction js as [|j js IH]; intros a i; [done|].
  cbn [dsa.partition_loop]. destruct (py.index a j) as [x|]; [|done]. simpl.
  unfold py.calls. destruct (kf <=? frames)%nat; [|done]. simpl.
  rewrite le_ext, ge_ext.
  destruct (if reverse then _ else _); [|done].
  destruct (dsa.swap a i j); [|done]. simpl. apply IH.
Qed.

Lemma partition_ext (kf frames : nat) (reverse : bool) (a : list T) (lo hi : Z) :
  dsa._partition key1 le1 ge1 kf frames reverse a lo hi
  = dsa._partition key2 le2 ge2 kf frames reverse a lo hi.
Proof.
  unfold dsa._partition. destruct frames as [|frames]; [done|]. simpl.
  destruct (py.index a hi) as [pv|]; [|done]. simpl.
  unfold py.calls. destruct (kf <=? frames)%nat; [|done]. simpl.
  by rewrite partition_loop_ext.
Qed.

Lemma quick_sort_inplace_ext (kf frames : nat) (reverse : bool) (a : list T)
    (lo hi : Z) :
  dsa._quick_sort_inplace key1 le1 ge1 kf frames reverse a lo hi
  = dsa._quick_sort_inplace key2 le2 ge2 kf frames reverse a lo hi.
Proof.
  revert a lo hi. induction frames as [|n IH]; intros a lo hi; [done|].
  cbn [dsa._quick_sort_inplace]. destruct (hi <=? lo)%Z; [done|].
  rewrite partition_ext.
  destruct (dsa._partition _ _ _ _ _ _ _ _ _) as [[a' p]|]; [|done].
  simpl. rewrite IH.
  destruct (dsa._quick_sort_inplace _ _ _ _ _ _ _ _ _) as [a''|]; [|done].
  simpl. apply IH.
Qed.

Lemma quick_sort_ext (kf frames : nat) (reverse : bool) (arr : list T) :
  dsa.quick_sort key1 le1 ge1 kf frames reverse arr
  = dsa.quick_sort key2 le2 ge2 kf frames reverse arr.
Proof.
  unfold dsa.quick_sort. destruct frames as [|frames]; [done|]. simpl.
  apply quick_sort_inplace_ext.
Qed.
End SortExt.

(** ** [sort]: the records of the selection in key order *)

Lemma StronglySorted_weaken {A : Type} (R R' : A → A → Prop) (l : list A) :
  (∀ x y, R x y → R' x y) → StronglySorted R l → StronglySorted R' l.
Proof.
  intros HR. induction 1 as [|x l Hl IH Hx]; constructor; [done|].
  eapply Forall_impl; [exact Hx|]. intros y. apply HR.
Qed.

Lemma num_le_total (a b : num) : py.num_le a b = true ∨ py.num_le b a = true.
Proof.
  rewrite !num_le_iff.
  destruct (Qlt_le_dec (py.num_val b) (py.num_val a)) as [Hlt|Hle]; [right|by left].
  by apply Qlt_le_weak.
Qed.

Lemma num_not_gt_ge (a b : num) : py.num_gt a b = false ↔ py.num_ge b a = true.
Proof.
  unfold py.num_gt, py.num_ge, py.num_lt, py.num_le. by rewrite negb_false_iff.
Qed.

Lemma events_from_ids_valid (self : ODIE) (ids : list Z) :
  valid_ids (events self) ids →
  ∃ arr, _events_from_ids self ids = Ok arr ∧ length arr = length ids.
Proof.
  unfold _events_from_ids. induction 1 as [|i ids Hi Hids (arr & IH & Hlen)]; simpl.
  { by exists []. }
  destruct (index_in_range (events self) i Hi) as (x & -> & _). simpl.
  rewrite IH. simpl. exists (x :: arr). split; [done|]. simpl. by rewrite Hlen.
Qed.

Section SortFacts.
Context (key : DisasterEvent → option num).
Hypothesis key_total : ∀ e, is_Some (key e).

(** The number a key is. *)
Let key_num (e : DisasterEvent) : num := default (NInt 0) (key e).

Lemma key_cmp_num (f : num → num → bool) (x y : DisasterEvent) :
  key_cmp f (key x) (key y) = f (key_num x) (key_num y).
Proof.
  unfold key_num. by destruct (key_total x) as [a ->], (key_total y) as [b ->].
Qed.

Lemma merge_sort_keys (reverse : bool) (arr : list DisasterEvent) :
  let out := dsa.merge_sort key (key_cmp py.num_le) (key_cmp py.num_gt) reverse arr in
  out ≡ₚ arr
  ∧ key_sorted key (key_cmp (if reverse then py.num_ge else py.num_le)) out.
Proof.
  intros out. split; [apply merge_sort_perm|]. unfold out, key_sorted.
  rewrite (merge_sort_ext key key_num (key_cmp py.num_le) (key_cmp py.num_gt)
             py.num_le py.num_gt) by (intros; apply key_cmp_num).
  destruct reverse.
  - eapply StronglySorted_weaken; [|apply merge_sort_descending].
    + intros x y Hxy. simpl in Hxy. rewrite key_cmp_num. by apply num_not_gt_ge.
    + intros a b Hab. apply num_not_gt_ge. apply num_gt_le in Hab. exact Hab.
    + intros a b c Hab Hbc. apply num_not_gt_ge in Hab, Hbc. apply num_not_gt_ge.
      unfold py.num_ge in *. by eapply num_le_trans.
  - eapply StronglySorted_weaken;
      [|apply (merge_sort_stable_ascending key_num py.num_le py.num_gt
                 num_le_total num_le_trans (NInt 0))].
    intros x y Hxy. simpl in Hxy. by rewrite key_cmp_num.
Qed.

Lemma quick_sort_keys (kf frames : nat) (reverse : bool) (arr : list DisasterEvent) :
  (∃ out,
     dsa.quick_sort key (key_cmp py.num_le) (key_cmp py.num_ge) kf frames reverse arr
     = Ok out
     ∧ out ≡ₚ arr
     ∧ key_sorted key (key_cmp (if reverse then py.num_ge else py.num_le)) out)
  ∨ (dsa.quick_sort key (key_cmp py.num_le) (key_cmp py.num_ge) kf frames reverse arr
     = Raise RecursionError
     ∧ (frames < 2 ∨ frames ≤ length arr + kf)%nat).
Proof.
  destruct (quick_sort_outcome key (key_cmp py.num_le) (key_cmp py.num_ge) kf reverse)
    with (frames := frames) (arr := arr) as [(out & Hrun & Hp & Hs)|Hraise].
  - intros x y. destruct reverse; rewrite !key_cmp_num; apply num_le_total.
  - intros x y z. destruct reverse; rewrite !key_cmp_num; unfold py.num_ge;
      eauto using num_le_trans.
  - left. exists out. split_and!; [done|done|]. unfold key_sorted.
    eapply StronglySorted_weaken; [|exact Hs]. intros x y Hxy. by destruct reverse.
  - by right.
Qed.
End SortFacts.

Lemma quick_sort_keys_ordered (key : DisasterEvent → option num) (kf frames : nat)
    (reverse : bool) (arr : list DisasterEvent) :
  key_sorted key (key_cmp (if reverse then py.num_ge else py.num_le)) arr →
  (2 ≤ length arr)%nat →
  (frames ≤ length arr + kf)%nat →
  dsa.quick_sort key (key_cmp py.num_le) (key_cmp py.num_ge) kf frames reverse arr
  = Raise RecursionError.
Proof.
  intros Hs Hlen Hf. apply quick_sort_ordered; [|done|done].
  eapply StronglySorted_weaken; [|exact Hs]. intros x y Hxy. by destruct reverse.
Qed.

Lemma sort_spec (self : ODIE) (frames : nat) (field algo : string) (reverse : bool)
    (key : DisasterEvent → option num) (arr : list DisasterEvent) :
  _field_key field = Ok key →
  _events_from_ids self (active_ids (state self)) = Ok arr →
  algo = "merge"%string
  ∨ (algo = "quick"%string ∧ (length arr + key_frames field < frames)%nat) →
  ∃ out,
    sort frames field algo reverse self = (Ok out, noted_sort self field algo reverse)
    ∧ out ≡ₚ arr
    ∧ key_sorted key (key_cmp (if reverse then py.num_ge else py.num_le)) out.
Proof.
  intros Hkey Harr Halgo. unfold sort. rewrite Hkey, Harr.
  assert (∀ e, is_Some (key e)) as Htot by (intros e; by eapply field_key_total).
  assert (1 ≤ key_frames field)%nat as Hkf by (unfold key_frames; case_match; lia).
  destruct Halgo as [->|[-> Hf]]; simpl.
  - destruct (merge_sort_keys key Htot reverse arr) as [Hp Hs]. eauto.
  - destruct (quick_sort_keys key Htot (key_frames field) frames reverse arr)
      as [(out & -> & Hp & Hs)|[_ Hlow]]; [eauto|lia].
Qed.

Lemma sort_starved (self : ODIE) (frames : nat) (field : string) (reverse : bool)
    (key : DisasterEvent → option num) (arr : list DisasterEvent) :
  _field_key field = Ok key →
  _events_from_ids self (active_ids (state self)) = Ok arr →
  key_sorted key (key_cmp (if reverse then py.num_ge else py.num_le)) arr →
  (2 ≤ length arr)%nat →
  (frames ≤ length arr + key_frames field)%nat →
  sort frames field "quick" reverse self = (Raise RecursionError, self).
Proof.
  intros Hkey Harr Hs Hlen Hf. unfold sort. rewrite Hkey, Harr. simpl.
  by rewrite quick_sort_keys_ordered.
Qed.

(** ** The two sorts and [sort], as a caller sees them *)

Lemma Zleb_total_order : total_order Z.leb.
Proof.
  split.
  - intros a b. rewrite !Z.leb_le. lia.
  - intros a b d. rewrite !Z.leb_le. lia.
Qed.

Lemma Zgeb_total_order : total_order Z.geb.
Proof.
  split.
  - intros a b. rewrite !Z.geb_le. lia.
  - intros a b d. rewrite !Z.geb_le. lia.
Qed.

Lemma Zgtb_strict_order : strict_order Z.gtb.
Proof.
  split.
  - intros a b. rewrite !Z.gtb_ltb, Z.ltb_lt, Z.ltb_ge. lia.
  - intros a b d. rewrite !Z.gtb_ltb, !Z.ltb_ge. lia.
Qed.

(** X1. For a total and transitive [<=] on the keys, [merge_sort] in
    ascending order returns a permutation of its input in non-decreasing
    key order, and it is stable: the records whose key is equivalent to
    any given key come out in the order they came in. *)
Theorem merge_sort_ascending_stable {T K : Type} (key : T → K)
    (le gt : K → K → bool) (c : K) (arr : list T) :
  total_order le →
  let out := dsa.merge_sort key le gt false arr in
  out ≡ₚ arr
  ∧ key_sorted key le out
  ∧ with_key key le c out = with_key key le c arr.
Proof.
  intros [Htot Htrans]. cbv zeta.
  destruct (merge_sort_stable_ascending key le gt Htot Htrans c arr) as (Hs & Hp & Hf).
  by split_and!.
Qed.

Lemma merge_sort_ascending_stable_witness :
  total_order Z.leb
  ∧ let out := dsa.merge_sort fst Z.leb Z.gtb false
                 [(2, "x"); (1, "first"); (3, "y"); (1, "second")]%Z in
    out ≡ₚ [(2, "x"); (1, "first"); (3, "y"); (1, "second")]%Z
    ∧ key_sorted fst Z.leb out
    ∧ with_key fst Z.leb 1%Z out
      = with_key fst Z.leb 1%Z [(2, "x"); (1, "first"); (3, "y"); (1, "second")]%Z.
Proof.
  split; [apply Zleb_total_order|].
  apply (merge_sort_ascending_stable fst Z.leb Z.gtb 1%Z
           [(2, "x"); (1, "first"); (3, "y"); (1, "second")]%Z Zleb_total_order).
Defined.

(** X2. For an asymmetric [>] whose negation is transitive, [merge_sort]
    with [reverse=True] returns a permutation of its input in which no
    record has a key above the key of a record before it. *)
Theorem merge_sort_descending_sorted {T K : Type} (key : T → K)
    (le gt : K → K → bool) (arr : list T) :
  strict_order gt →
  let out := dsa.merge_sort key le gt true arr in
  out ≡ₚ arr
  ∧ key_sorted key (fun a b => negb (gt b a)) out.
Proof.
  intros [Hasym Htrans]. cbv zeta. split; [apply merge_sort_perm|].
  unfold key_sorted.
  eapply StronglySorted_weaken; [|by apply (merge_sort_descending key le gt Hasym Htrans)].
  intros x y Hxy. simpl in Hxy. by rewrite Hxy.
Qed.

Lemma merge_sort_descending_sorted_witness :
  strict_order Z.gtb
  ∧ let out := dsa.merge_sort fst Z.leb Z.gtb true
                 [(2, "x"); (1, "first"); (3, "y"); (1, "second")]%Z in
    out ≡ₚ [(2, "x"); (1, "first"); (3, "y"); (1, "second")]%Z
    ∧ key_sorted fst (fun a b => negb (Z.gtb b a)) out.
Proof.
  split; [apply Zgtb_strict_order|].
  apply (merge_sort_descending_sorted fst Z.leb Z.gtb
           [(2, "x"); (1, "first"); (3, "y"); (1, "second")]%Z Zgtb_strict_order).
Defined.

(** X3. [quick_sort] recurses as deep as its input is long. For a total
    and transitive comparison of the direction ([<=] ascending, [>=] with
    [reverse=True]): with two frames at least, and more frames than the
    input has records and a call of [key] takes, it returns a permutation
    of its input in the order of that comparison; whatever the frames,
    what it returns is such a permutation, and the only exception it
    raises is [RecursionError]; and on an input of two records or more
    that is already in that order, tied keys included, it raises
    [RecursionError] unless that many frames are left. *)
Theorem quick_sort_sorts {T K : Type} (key : T → K) (le ge : K → K → bool)
    (key_frames frames : nat) (reverse : bool) (arr : list T) :
  total_order (if reverse then ge else le) →
  ((2 ≤ frames)%nat →
   (length arr + key_frames < frames)%nat →
   ∃ out,
     dsa.quick_sort key le ge key_frames frames reverse arr = Ok out
     ∧ out ≡ₚ arr
     ∧ key_sorted key (if reverse then ge else le) out)
  ∧ (∀ out,
       dsa.quick_sort key le ge key_frames frames reverse arr = Ok out →
       out ≡ₚ arr ∧ key_sorted key (if reverse then ge else le) out)
  ∧ (∀ e, dsa.quick_sort key le ge key_frames frames reverse arr = Raise e →
          e = RecursionError)
  ∧ (key_sorted key (if reverse then ge else le) arr →
     (2 ≤ length arr)%nat →
     (frames ≤ length arr + key_frames)%nat →
     dsa.quick_sort key le ge key_frames frames reverse arr = Raise RecursionError).
Proof.
  intros [Htot Htrans].
  assert ((∃ out,
             dsa.quick_sort key le ge key_frames frames reverse arr = Ok out
             ∧ out ≡ₚ arr
             ∧ key_sorted key (if reverse then ge else le) out)
          ∨ (dsa.quick_sort key le ge key_frames frames reverse arr
             = Raise RecursionError
             ∧ (frames < 2 ∨ frames ≤ length arr + key_frames)%nat)) as Hrun.
  { destruct (quick_sort_outcome key le ge key_frames reverse)
      with (frames := frames) (arr := arr) as [(out & Hrun & Hp & Hs)|Hraise].
    - intros x y. specialize (Htot (key x) (key y)). by destruct reverse.
    - intros x y z. specialize (Htrans (key x) (key y) (key z)). by destruct reverse.
    - left. exists out. split_and!; [done|done|]. unfold key_sorted.
      eapply StronglySorted_weaken; [|exact Hs]. intros x y Hxy. by destruct reverse.
    - by right. }
  split_and!.
  - intros Hf2 Hf. destruct Hrun as [Hok|[_ Hlow]]; [done|lia].
  - intros out Hout. destruct Hrun as [(out' & Hrun & Hp & Hs)|[Hrun _]]; [|congruence].
    rewrite Hrun in Hout. by injection Hout as <-.
  - intros e He. destruct Hrun as [(out & Hrun & _)|[Hrun _]]; congruence.
  - intros Hs Hlen Hf. apply quick_sort_ordered; [|done|done].
    eapply StronglySorted_weaken; [|exact Hs]. intros x y Hxy. by destruct reverse.
Qed.

Lemma quick_sort_sorts_witness :
  total_order Z.geb
  ∧ (∃ out,
       dsa.quick_sort fst Z.leb Z.geb 1 6 true
         [(2, "x"); (1, "first"); (3, "y"); (1, "second")]%Z = Ok out
       ∧ out ≡ₚ [(2, "x"); (1, "first"); (3, "y"); (1, "second")]%Z
       ∧ key_sorted fst Z.geb out)
  ∧ key_sorted fst Z.geb [(3, "y"); (2, "x"); (1, "first"); (1, "second")]%Z
  ∧ dsa.quick_sort fst Z.leb Z.geb 1 5 true
      [(3, "y"); (2, "x"); (1, "first"); (1, "second")]%Z = Raise RecursionError.
Proof.
  assert (key_sorted fst Z.geb [(3, "y"); (2, "x"); (1, "first"); (1, "second")]%Z)
    as Hs.
  { unfold key_sorted. repeat constructor. }
  refine (conj Zgeb_total_order (conj _ (conj Hs _))).
  - apply (quick_sort_sorts fst Z.leb Z.geb 1 6 true
             [(2, "x"); (1, "first"); (3, "y"); (1, "second")]%Z Zgeb_total_order);
      simpl; lia.
  - apply (quick_sort_sorts fst Z.leb Z.geb 1 5 true
             [(3, "y"); (2, "x"); (1, "first"); (1, "second")]%Z Zgeb_total_order);
      [exact Hs|simpl; lia|simpl; lia].
Defined.

(** X4. For a rankable field and a selection of valid ids, [sort] with
    the algorithm [merge], or with [quick] and more frames than the
    selection has ids and a call of the key takes (one, two for a date),
    returns the records of the selection, each once for
    each of its occurrences, in non-decreasing key order, or non-increasing
    with [reverse]; the engine is the one before the call but for the note
    of the sort in its state: selection and history are not touched. With
    [quick], on a selection of two ids or more whose records are already in
    that order and with fewer frames, [sort] raises [RecursionError] and
    the engine is as it was. *)
Theorem sort_returns_selection_in_key_order (self : ODIE) (frames : nat)
    (field algo : string) (reverse : bool) (key : DisasterEvent → option num) :
  _field_key field = Ok key →
  valid_ids (events self) (active_ids (state self)) →
  ∃ arr,
    _events_from_ids self (active_ids (state self)) = Ok arr
    ∧ (algo = "merge"%string
       ∨ (algo = "quick"%string ∧ (length arr + key_frames field < frames)%nat) →
       ∃ out,
         sort frames field algo reverse self
         = (Ok out, noted_sort self field algo reverse)
         ∧ out ≡ₚ arr
         ∧ key_sorted key (key_cmp (if reverse then py.num_ge else py.num_le)) out)
    ∧ (algo = "quick"%string →
       key_sorted key (key_cmp (if reverse then py.num_ge else py.num_le)) arr →
       (2 ≤ length arr)%nat →
       (frames ≤ length arr + key_frames field)%nat →
       sort frames field algo reverse self = (Raise RecursionError, self)).
Proof.
  intros Hkey Hvalid.
  destruct (events_from_ids_valid self _ Hvalid) as (arr & Harr & _).
  exists arr. split_and!; [done| |].
  - intros Halgo. by apply (sort_spec self frames field algo reverse key arr).
  - intros -> Hs Hlen Hf. by apply (sort_starved self frames field reverse key arr).
Qed.

Lemma sort_returns_selection_in_key_order_witness :
  _field_key "Deaths" = Ok (fun e => Some (int_or (total_deaths e) (-1)))
  ∧ valid_ids (events demo_engine) (active_ids (state demo_engine))
  ∧ ∃ arr,
      _events_from_ids demo_engine (active_ids (state demo_engine)) = Ok arr
      ∧ (∃ out,
           sort 6 "Deaths" "quick" true demo_engine
           = (Ok out, noted_sort demo_engine "Deaths" "quick" true)
           ∧ out ≡ₚ arr
           ∧ key_sorted (fun e => Some (int_or (total_deaths e) (-1)))
               (key_cmp py.num_ge) out)
      ∧ sort 4 "Deaths" "quick" true (demo_engine_on [2; 1; 0]%Z)
        = (Raise RecursionError, demo_engine_on [2; 1; 0]%Z).
Proof.
  assert (_field_key "Deaths" = Ok (fun e => Some (int_or (total_deaths e) (-1))))
    as Hkey by done.
  assert (valid_ids (events demo_engine) (active_ids (state demo_engine))) as Hvalid.
  { unfold valid_ids. vm_compute. repeat constructor; congruence. }
  refine (conj Hkey (conj Hvalid _)).
  destruct (sort_returns_selection_in_key_order demo_engine 6 "Deaths" "quick" true _
              Hkey Hvalid) as (arr & Harr & Hsort & _).
  exists arr. split_and!; [done| |].
  - apply Hsort. right. split; [done|].
    assert (arr = demo_events) as ->;
      [|change (key_frames "Deaths") with 1%nat; simpl; lia].
    vm_compute in Harr. by injection Harr as <-.
  - assert (valid_ids (events (demo_engine_on [2; 1; 0]%Z))
              (active_ids (state (demo_engine_on [2; 1; 0]%Z)))) as Hvalid'.
    { unfold valid_ids. vm_compute. repeat constructor; congruence. }
    destruct (sort_returns_selection_in_key_order (demo_engine_on [2; 1; 0]%Z) 4
                "Deaths" "quick" true _ Hkey Hvalid') as (arr' & Harr' & _ & Hraise).
    assert (arr' = [demo_event 2 "A" "Quake" 2001 (Some 7%Z);
                    demo_event 1 "B" "Flood" 1999 (Some 5%Z);
                    demo_event 0 "A" "Flood" 2001 None]) as ->.
    { vm_compute in Harr'. by injection Harr' as <-. }
    apply Hraise;
      [done| |simpl; lia|change (key_frames "Deaths") with 1%nat; simpl; lia].
    unfold key_sorted. repeat constructor.
Defined.

Lemma field_key_raises (field : string) :
  py.is_ok (_field_key field) = false → _field_key field = Raise ValueError.
Proof. unfold _field_key. by repeat case_match. Qed.

(** X5. [sort] raises [ValueError] and leaves the engine as it is, the
    note of the last sort included, when the field is not rankable, and,
    on a selection of valid ids, when the algorithm is neither [merge] nor
    [quick]. *)
Theorem sort_rejects (self : ODIE) (frames : nat) (field algo : string)
    (reverse : bool) :
  py.is_ok (_field_key field) = false
  ∨ (valid_ids (events self) (active_ids (state self))
     ∧ algo ≠ "merge"%string ∧ algo ≠ "quick"%string) →
  sort frames field algo reverse self = (Raise ValueError, self).
Proof.
  intros [Hf|(Hvalid & Hm & Hq)]; unfold sort.
  { by rewrite (field_key_raises _ Hf). }
  destruct (_field_key field) as [key|e] eqn:Hkey.
  2:{ rewrite field_key_raises in Hkey by by rewrite Hkey. by injection Hkey as <-. }
  destruct (events_from_ids_valid self _ Hvalid) as (arr & -> & _).
  apply String.eqb_neq in Hm, Hq. by rewrite Hm, Hq.
Qed.

Lemma sort_rejects_witness :
  (py.is_ok (_field_key "deaths") = false
   ∨ (valid_ids (events demo_engine) (active_ids (state demo_engine))
      ∧ "heap"%string ≠ "merge"%string ∧ "heap"%string ≠ "quick"%string))
  ∧ sort 1000 "deaths" "heap" true demo_engine = (Raise ValueError, demo_engine).
Proof.
  assert (valid_ids (events demo_engine) (active_ids (state demo_engine))
          ∧ "heap"%string ≠ "merge"%string ∧ "heap"%string ≠ "quick"%string) as Hyp.
  { split_and!; [|done|done]. unfold valid_ids. vm_compute.
    repeat constructor; congruence. }
  split; [by right|].
  apply (sort_rejects demo_engine 1000 "deaths" "heap" true (or_intror Hyp)).
Defined.

(** ** [topk] returns, and what it returns at the edges *)

Lemma topk_loop_total (events : list DisasterEvent)
    (key : DisasterEvent → option num) (k : Z) (ids : list Z)
    (heap : list (num * Z)) :
  (∀ e, is_Some (key e)) → (0 < k)%Z → valid_ids events ids →
  ∃ heap', topk_loop events key k ids heap = Ok heap'.
Proof.
  intros Hkey Hk Hvalid. revert heap.
  induction Hvalid as [|eid ids Hi Hids IH]; intros heap; simpl; [by eexists|].
  destruct (index_in_range events eid Hi) as (e & -> & _). simpl.
  destruct (Hkey e) as [v ->].
  destruct (Z.ltb_spec (Z.of_nat (length heap)) k) as [Hlt|Hge]; [apply IH|].
  destruct heap as [|top heap]; [simpl in Hge; lia|].
  change (py.index (top :: heap) 0) with (Ok (A := num * Z) top). simpl.
  destruct (py.num_gt v top.1); apply IH.
Qed.

Lemma mapM_ranked (events : list DisasterEvent) (key : DisasterEvent → option num)
    (l : list (num * Z)) :
  Forall (ranked events key) l →
  ∃ out, mapM (fun p : num * Z => py.index events p.2) l = Ok out.
Proof.
  induction 1 as [|p l (e & He & _) _ [out IH]]; simpl; [by eexists|].
  rewrite He. simpl. rewrite IH. simpl. by eexists.
Qed.

(** X6. For a rankable field, [k >= 1] and a selection of valid ids,
    [topk] returns: [min k n] records of the [n] selected, in descending
    order of (key, id), and no selected record left out has a key above
    the key of a returned one. The key of a record without a value is the
    sentinel [-1]. *)
Theorem topk_returns_largest (self : ODIE) (k : Z) (field : string)
    (key : DisasterEvent → option num) :
  _field_key field = Ok key →
  (0 < k)%Z →
  valid_ids (events self) (active_ids (state self)) →
  ∃ out,
    topk self k field = Ok out
    ∧ top_ranked (events self) key k (active_ids (state self)) out.
Proof.
  intros Hkey Hk Hvalid.
  assert (∀ e, is_Some (key e)) as Htot by (intros e; by eapply field_key_total).
  destruct (topk_loop_total (events self) key k _ [] Htot Hk Hvalid) as [heap Hheap].
  destruct (topk_loop_spec (events self) key k (active_ids (state self)) [] [] heap Htot)
    as (dropped & _ & Hr & _); [| | | |exact Hheap|].
  { by intros i j x y _ Hi. }
  { constructor. }
  { done. }
  { intros d h Hd. by apply elem_of_nil in Hd. }
  apply Forall_app in Hr as [Hr _].
  destruct (mapM_ranked (events self) key (py.sorted_reverse pair_lt heap)) as [out Hout].
  { by rewrite sorted_reverse_perm. }
  assert (topk self k field = Ok out) as Hrun.
  { unfold topk. rewrite Hkey. simpl. rewrite Hheap. simpl. exact Hout. }
  exists out. split; [done|].
  destruct (topk_ranks self k field out Hk Hrun)
    as (key' & kept & dropped' & Hkey' & H1 & H2 & H3 & H4 & H5 & H6).
  rewrite Hkey in Hkey'. injection Hkey' as <-.
  by exists kept, dropped'.
Qed.

Lemma demo_valid_ids :
  valid_ids (events demo_engine) (active_ids (state demo_engine)).
Proof. unfold valid_ids. vm_compute. repeat constructor; congruence. Qed.

Lemma topk_returns_largest_witness :
  _field_key "deaths" = Ok (fun e => Some (int_or (total_deaths e) (-1)))
  ∧ (0 < 3)%Z
  ∧ valid_ids (events demo_engine) (active_ids (state demo_engine))
  ∧ ∃ out,
      topk demo_engine 3 "deaths" = Ok out
      ∧ top_ranked (events demo_engine)
          (fun e => Some (int_or (total_deaths e) (-1))) 3
          (active_ids (state demo_engine)) out.
Proof.
  assert (_field_key "deaths" = Ok (fun e => Some (int_or (total_deaths e) (-1))))
    as Hkey by done.
  split_and!; [done|lia|apply demo_valid_ids|].
  apply (topk_returns_largest demo_engine 3 "deaths" _ Hkey ltac:(lia) demo_valid_ids).
Defined.

(** X7. For a rankable field: on an empty selection [topk] returns no
    record, whatever [k]; on a selection that is not empty, [k <= 0] does
    not give the empty list but raises [IndexError], at the look at the top
    of the empty heap if not before. *)
Theorem topk_edge_cases (self : ODIE) (k : Z) (field : string)
    (key : DisasterEvent → option num) :
  _field_key field = Ok key →
  (active_ids (state self) = [] → topk self k field = Ok [])
  ∧ ((k ≤ 0)%Z → active_ids (state self) ≠ [] → topk self k field = Raise IndexError).
Proof.
  intros Hkey. unfold topk. rewrite Hkey. simpl. split.
  - by intros ->.
  - intros Hk Hne. destruct (active_ids (state self)) as [|eid ids]; [done|].
    simpl. destruct (py.index (events self) eid) as [e|x] eqn:He.
    + simpl. destruct (field_key_total field key e Hkey) as [v ->].
      destruct (Z.ltb_spec (Z.of_nat 0) k) as [|_]; [lia|]. reflexivity.
    + assert (x = IndexError) as ->; [|done].
      unfold py.index in He. repeat case_match; congruence.
Qed.

Lemma topk_edge_cases_witness :
  _field_key "deaths" = Ok (fun e => Some (int_or (total_deaths e) (-1)))
  ∧ (active_ids (state demo_engine) = [] → topk demo_engine 0 "deaths" = Ok [])
  ∧ ((0 ≤ 0)%Z → active_ids (state demo_engine) ≠ [] →
     topk demo_engine 0 "deaths" = Raise IndexError).
Proof.
  assert (_field_key "deaths" = Ok (fun e => Some (int_or (total_deaths e) (-1))))
    as Hkey by done.
  split; [done|].
  apply (topk_edge_cases demo_engine 0 "deaths" _ Hkey).
Defined.

(** ** The set operations on id lists *)

Lemma intersect_sorted_sublist_r (a b : list Z) :
  dsa.intersect_sorted a b `sublist_of` b.
Proof.
  revert b. induction a as [|x a IHa]; intros b; [destruct b; apply sublist_nil_l|].
  induction b as [|y b IHb]; [done|].
  rewrite intersect_sorted_cons.
  destruct (Z.eqb_spec x y) as [->|_]; [by constructor|].
  destruct (x <? y)%Z; [apply IHa|by constructor].
Qed.

Lemma intersect_sorted_same (a : list Z) : dsa.intersect_sorted a a = a.
Proof.
  induction a as [|x a IH]; [done|].
  rewrite intersect_sorted_cons, Z.eqb_refl. by rewrite IH.
Qed.

Lemma elem_of_intersect_strict (a b : list Z) (z : Z) :
  StronglySorted Z.lt a → StronglySorted Z.lt b →
  z ∈ dsa.intersect_sorted a b ↔ z ∈ a ∧ z ∈ b.
Proof. intros Ha Hb. apply elem_of_intersect_sorted; by apply StronglySorted_lt_le. Qed.

(** X8. [intersect_sorted] never returns an id that is not in both lists,
    whatever their order: its result is a sublist of each of them. On two
    ascending lists it returns every common id, so that it is the
    intersection, in ascending order. *)
Theorem intersect_sorted_is_intersection (a b : list Z) :
  StronglySorted Z.le a → StronglySorted Z.le b →
  let r := dsa.intersect_sorted a b in
  (∀ z, z ∈ r ↔ z ∈ a ∧ z ∈ b)
  ∧ StronglySorted Z.le r
  ∧ (∀ a' b', dsa.intersect_sorted a' b' `sublist_of` a'
              ∧ dsa.intersect_sorted a' b' `sublist_of` b').
Proof.
  intros Ha Hb. cbv zeta. split_and!.
  - intros z. by apply elem_of_intersect_sorted.
  - eapply StronglySorted_sublist; [apply intersect_sorted_sublist|done].
  - intros a' b'. split; [apply intersect_sorted_sublist|apply intersect_sorted_sublist_r].
Qed.

Lemma intersect_sorted_is_intersection_witness :
  StronglySorted Z.le [1; 3; 5; 7]%Z ∧ StronglySorted Z.le [3; 4; 7; 9]%Z
  ∧ let r := dsa.intersect_sorted [1; 3; 5; 7]%Z [3; 4; 7; 9]%Z in
    (∀ z, z ∈ r ↔ z ∈ [1; 3; 5; 7]%Z ∧ z ∈ [3; 4; 7; 9]%Z)
    ∧ StronglySorted Z.le r
    ∧ (∀ a' b', dsa.intersect_sorted a' b' `sublist_of` a'
                ∧ dsa.intersect_sorted a' b' `sublist_of` b').
Proof.
  assert (StronglySorted Z.le [1; 3; 5; 7]%Z) as Ha.
  { repeat constructor; lia. }
  assert (StronglySorted Z.le [3; 4; 7; 9]%Z) as Hb.
  { repeat constructor; lia. }
  split_and!; [done|done|].
  apply (intersect_sorted_is_intersection _ _ Ha Hb).
Defined.

(** X9. On strictly ascending lists [intersect_sorted] is commutative and
    associative; the intersection of a list with itself is the list, and
    with the empty list it is empty on either side. *)
Theorem intersect_sorted_laws (a b c : list Z) :
  StronglySorted Z.lt a → StronglySorted Z.lt b → StronglySorted Z.lt c →
  dsa.intersect_sorted a b = dsa.intersect_sorted b a
  ∧ dsa.intersect_sorted (dsa.intersect_sorted a b) c
    = dsa.intersect_sorted a (dsa.intersect_sorted b c)
  ∧ dsa.intersect_sorted a a = a
  ∧ dsa.intersect_sorted a [] = []
  ∧ dsa.intersect_sorted [] a = [].
Proof.
  intros Ha Hb Hc.
  assert (∀ x y, StronglySorted Z.lt x → StronglySorted Z.lt (dsa.intersect_sorted x y))
    as Hs by (intros; by apply intersect_sorted_strict).
  split_and!.
  - apply StronglySorted_lt_ext; [by apply Hs|by apply Hs|].
    intros z. rewrite !elem_of_intersect_strict by done. tauto.
  - apply StronglySorted_lt_ext; [by apply Hs, Hs|by apply Hs|].
    intros z. rewrite !elem_of_intersect_strict by (done || by apply Hs). tauto.
  - apply intersect_sorted_same.
  - apply intersect_sorted_nil_r.
  - by destruct a.
Qed.

Lemma intersect_sorted_laws_witness :
  StronglySorted Z.lt [1; 3; 5]%Z ∧ StronglySorted Z.lt [3; 5; 8]%Z
  ∧ StronglySorted Z.lt [0; 5]%Z
  ∧ (dsa.intersect_sorted [1; 3; 5]%Z [3; 5; 8]%Z
     = dsa.intersect_sorted [3; 5; 8]%Z [1; 3; 5]%Z
     ∧ dsa.intersect_sorted (dsa.intersect_sorted [1; 3; 5]%Z [3; 5; 8]%Z) [0; 5]%Z
       = dsa.intersect_sorted [1; 3; 5]%Z (dsa.intersect_sorted [3; 5; 8]%Z [0; 5]%Z)
     ∧ dsa.intersect_sorted [1; 3; 5]%Z [1; 3; 5]%Z = [1; 3; 5]%Z
     ∧ dsa.intersect_sorted [1; 3; 5]%Z [] = []
     ∧ dsa.intersect_sorted [] [1; 3; 5]%Z = []).
Proof.
  assert (StronglySorted Z.lt [1; 3; 5]%Z) as Ha by (repeat constructor; lia).
  assert (StronglySorted Z.lt [3; 5; 8]%Z) as Hb by (repeat constructor; lia).
  assert (StronglySorted Z.lt [0; 5]%Z) as Hc by (repeat constructor; lia).
  refine (conj Ha (conj Hb (conj Hc _))).
  apply (intersect_sorted_laws _ _ _ Ha Hb Hc).
Defined.

(** X10. [_union_sorted] does not depend on the order of its arguments
    nor on the order or the repetitions inside them: it is commutative
    and associative on all lists, the union of a list with itself or with
    the empty list is the list sorted without duplicates, arguments with
    the same members as [a] and [b], in whatever order and however often
    repeated, give the same union as [a] and [b], and a strictly ascending
    list is returned as it is. *)
Theorem union_sorted_laws (a b c : list Z) :
  _union_sorted a b = _union_sorted b a
  ∧ _union_sorted (_union_sorted a b) c = _union_sorted a (_union_sorted b c)
  ∧ _union_sorted a a = _union_sorted a []
  ∧ (∀ a' b', (∀ z, z ∈ a' ↔ z ∈ a) → (∀ z, z ∈ b' ↔ z ∈ b) →
              _union_sorted a' b' = _union_sorted a b)
  ∧ (StronglySorted Z.lt a → _union_sorted a [] = a).
Proof.
  split_and!.
  - apply StronglySorted_lt_ext; [apply union_sorted_strict..|].
    intros z. rewrite !elem_of_union_sorted. tauto.
  - apply StronglySorted_lt_ext; [apply union_sorted_strict..|].
    intros z. rewrite !elem_of_union_sorted. tauto.
  - apply StronglySorted_lt_ext; [apply union_sorted_strict..|].
    intros z. rewrite !elem_of_union_sorted. set_solver.
  - intros a' b' Ha' Hb'.
    apply StronglySorted_lt_ext; [apply union_sorted_strict..|].
    intros z. rewrite !elem_of_union_sorted. by rewrite Ha', Hb'.
  - intros Ha. apply StronglySorted_lt_ext; [apply union_sorted_strict|done|].
    intros z. rewrite !elem_of_union_sorted. set_solver.
Qed.

Lemma union_sorted_laws_witness :
  _union_sorted [3; 1; 3]%Z [2; 1]%Z = _union_sorted [2; 1]%Z [3; 1; 3]%Z
  ∧ _union_sorted (_union_sorted [3; 1; 3]%Z [2; 1]%Z) [0]%Z
    = _union_sorted [3; 1; 3]%Z (_union_sorted [2; 1]%Z [0]%Z)
  ∧ _union_sorted [3; 1; 3]%Z [3; 1; 3]%Z = _union_sorted [3; 1; 3]%Z []
  ∧ _union_sorted [1; 3]%Z [1; 2; 2; 1]%Z = _union_sorted [3; 1; 3]%Z [2; 1]%Z
  ∧ _union_sorted [1; 1]%Z [] = _union_sorted [1]%Z []
  ∧ (StronglySorted Z.lt [1; 2; 3]%Z ∧ _union_sorted [1; 2; 3]%Z [] = [1; 2; 3]%Z).
Proof.
  destruct (union_sorted_laws [3; 1; 3]%Z [2; 1]%Z [0]%Z)
    as (Hcomm & Hassoc & Hself & Hext & _).
  destruct (union_sorted_laws [1]%Z [] []) as (_ & _ & _ & Hext1 & _).
  destruct (union_sorted_laws [1; 2; 3]%Z [] []) as (_ & _ & _ & _ & Hsorted).
  assert (StronglySorted Z.lt [1; 2; 3]%Z) as Hs.
  { repeat constructor; lia. }
  split_and!; [done|done|done| | |done|by apply Hsorted].
  - apply Hext; intros z; rewrite !elem_of_cons, !elem_of_nil; tauto.
  - apply Hext1; intros z; rewrite ?elem_of_cons, ?elem_of_nil; tauto.
Defined.

(** ** The indices and the filters on them *)

(** X11. Lookup after [build_indices]: the bucket of a country, of a type
    or of a year holds the ids of exactly the events with that country,
    type or year, once for each event, in ascending order (empty for a key
    no event has); [years_sorted] holds the years of the events, each once,
    in ascending order. *)
Theorem build_indices_lookup (events : list DisasterEvent) (c t : string) (y : Z) :
  let idx := indices.build_indices events in
  (indices.get (by_country idx) c ≡ₚ event_id <$> filter (fun e => country e = c) events
   ∧ StronglySorted Z.le (indices.get (by_country idx) c))
  ∧ (indices.get (by_type idx) t
       ≡ₚ event_id <$> filter (fun e => disaster_type e = t) events
     ∧ StronglySorted Z.le (indices.get (by_type idx) t))
  ∧ (indices.get (year_to_ids idx) y
       ≡ₚ event_id <$> filter (fun e => start_year e = y) events
     ∧ StronglySorted Z.le (indices.get (year_to_ids idx) y))
  ∧ StronglySorted Z.lt (years_sorted idx)
  ∧ (∀ y', y' ∈ years_sorted idx ↔ ∃ e, e ∈ events ∧ start_year e = y').
Proof.
  cbv zeta.
  rewrite build_indices_by_country, build_indices_by_type, build_indices_year_to_ids.
  destruct (build_indices_years_sorted events) as [Hs Hy].
  split_and!; try apply sorted_perm; try apply sorted_Z_sorted; done.
Qed.

Lemma apply_index_filter `{PyRuntime} (op : filter_op) (self : ODIE) :
  index_filter op →
  active_ids (state (apply_filter op self))
  = dsa.intersect_sorted (py.sorted Z.ltb (active_ids (state self)))
      (bucket (idx self) op)
  ∧ events (apply_filter op self) = events self
  ∧ idx (apply_filter op self) = idx self.
Proof. by destruct op. Qed.

Section IndexFilters.
Context `{PyRuntime} (events : list DisasterEvent) (Hpos : ids_are_positions events).

Lemma bucket_built (op : filter_op) :
  index_filter op →
  bucket (indices.build_indices events) op = event_id <$> filter (selects op) events.
Proof.
  destruct op; try done; intros _; simpl.
  - by apply country_bucket.
  - by apply type_bucket.
  - by apply year_range_bucket.
Qed.

Lemma elem_of_bucket (op : filter_op) (i : Z) :
  index_filter op →
  i ∈ bucket (indices.build_indices events) op ↔ record_at events i (selects op).
Proof.
  intros Hop. rewrite bucket_built, elem_of_filtered_ids by done.
  unfold record_at. split.
  - intros (e & He & Hi & _ & HP). by exists e.
  - intros (e & He & Hi & HP). exists e. split_and!; [done|done| |done].
    rewrite (Hpos _ _ He). lia.
Qed.

Lemma filtered_selection (op : filter_op) (ids : list Z) :
  index_filter op →
  let r := dsa.intersect_sorted (py.sorted Z.ltb ids)
             (bucket (indices.build_indices events) op) in
  StronglySorted Z.lt r
  ∧ ∀ i, i ∈ r ↔ i ∈ ids ∧ record_at events i (selects op).
Proof.
  intros Hop. cbv zeta. split.
  - eapply StronglySorted_sublist; [apply intersect_sorted_sublist_r|].
    rewrite bucket_built by done. by apply filtered_ids_sorted.
  - intros i. rewrite elem_of_intersect_sorted.
    + by rewrite elem_of_sorted, elem_of_bucket.
    + apply sorted_Z_sorted.
    + rewrite bucket_built by done. by apply StronglySorted_lt_le, filtered_ids_sorted.
Qed.
End IndexFilters.

(** X12. On a dataset whose ids are the positions of its events, with the
    indices built from it, [filter_country], [filter_type] and
    [filter_year_range] keep exactly the selected ids whose record has the
    country, the type, or a start year within the inclusive bounds. *)
Theorem index_filter_selects `{PyRuntime} (op : filter_op) (self : ODIE) (i : Z) :
  ids_are_positions (events self) →
  idx self = indices.build_indices (events self) →
  index_filter op →
  i ∈ active_ids (state (apply_filter op self))
  ↔ i ∈ active_ids (state self) ∧ record_at (events self) i (selects op).
Proof.
  intros Hpos Hidx Hop.
  destruct (apply_index_filter op self Hop) as (-> & _ & _). rewrite Hidx.
  by apply filtered_selection.
Qed.

Lemma demo_idx_built : idx demo_engine = indices.build_indices (events demo_engine).
Proof. done. Qed.

Lemma index_filter_selects_witness :
  ids_are_positions (events demo_engine)
  ∧ idx demo_engine = indices.build_indices (events demo_engine)
  ∧ index_filter (FilterCountry "A")
  ∧ (2%Z ∈ active_ids (state (apply_filter (H := demo_runtime) (FilterCountry "A")
                                demo_engine))
     ↔ 2%Z ∈ active_ids (state demo_engine)
       ∧ record_at (events demo_engine) 2 (selects (FilterCountry "A"))).
Proof.
  refine (conj demo_ids_are_positions (conj demo_idx_built (conj I _))).
  apply (index_filter_selects (H := demo_runtime) (FilterCountry "A") demo_engine 2
           demo_ids_are_positions demo_idx_built I).
Defined.

(** X13. Under the same conditions the three filters commute: applied in
    either order, two of them leave the same selection; and a filter
    applied twice leaves the selection it leaves applied once. *)
Theorem index_filters_commute `{PyRuntime} (op1 op2 : filter_op) (self : ODIE) :
  ids_are_positions (events self) →
  idx self = indices.build_indices (events self) →
  index_filter op1 → index_filter op2 →
  active_ids (state (apply_filter op2 (apply_filter op1 self)))
  = active_ids (state (apply_filter op1 (apply_filter op2 self)))
  ∧ active_ids (state (apply_filter op1 (apply_filter op1 self)))
    = active_ids (state (apply_filter op1 self)).
Proof.
  intros Hpos Hidx Hop1 Hop2.
  assert (∀ op s, index_filter op → events s = events self → idx s = idx self →
            StronglySorted Z.lt (active_ids (state (apply_filter op s)))
            ∧ ∀ i, i ∈ active_ids (state (apply_filter op s))
                   ↔ i ∈ active_ids (state s) ∧ record_at (events self) i (selects op))
    as Hstep.
  { intros op s Hop He Hi.
    destruct (apply_index_filter op s Hop) as (-> & _ & _). rewrite Hi, Hidx.
    by apply filtered_selection. }
  assert (∀ op, index_filter op →
            events (apply_filter op self) = events self
            ∧ idx (apply_filter op self) = idx self) as Hsame.
  { intros op Hop. by destruct (apply_index_filter op self Hop) as (_ & ? & ?). }
  destruct (Hsame op1 Hop1) as [He1 Hi1], (Hsame op2 Hop2) as [He2 Hi2].
  destruct (Hstep op1 self Hop1 eq_refl eq_refl) as [Hs1 Hm1].
  destruct (Hstep op2 self Hop2 eq_refl eq_refl) as [Hs2 Hm2].
  destruct (Hstep op2 _ Hop2 He1 Hi1) as [Hs21 Hm21].
  destruct (Hstep op1 _ Hop1 He2 Hi2) as [Hs12 Hm12].
  destruct (Hstep op1 _ Hop1 He1 Hi1) as [Hs11 Hm11].
  split; apply StronglySorted_lt_ext; try done.
  - intros i. rewrite Hm21, Hm12, Hm1, Hm2. tauto.
  - intros i. rewrite Hm11, Hm1. tauto.
Qed.

Lemma index_filters_commute_witness :
  ids_are_positions (events demo_engine)
  ∧ idx demo_engine = indices.build_indices (events demo_engine)
  ∧ index_filter (FilterCountry "A") ∧ index_filter (FilterYearRange 2000 2003)
  ∧ (active_ids (state (apply_filter (H := demo_runtime) (FilterYearRange 2000 2003)
                          (apply_filter (H := demo_runtime) (FilterCountry "A")
                             demo_engine)))
     = active_ids (state (apply_filter (H := demo_runtime) (FilterCountry "A")
                            (apply_filter (H := demo_runtime) (FilterYearRange 2000 2003)
                               demo_engine)))
     ∧ active_ids (state (apply_filter (H := demo_runtime) (FilterCountry "A")
                            (apply_filter (H := demo_runtime) (FilterCountry "A")
                               demo_engine)))
       = active_ids (state (apply_filter (H := demo_runtime) (FilterCountry "A")
                              demo_engine))).
Proof.
  refine (conj demo_ids_are_positions (conj demo_idx_built (conj I (conj I _)))).
  apply (index_filters_commute (H := demo_runtime) (FilterCountry "A")
           (FilterYearRange 2000 2003) demo_engine
           demo_ids_are_positions demo_idx_built I I).
Defined.

(** X14. Under the same conditions two year-range filters in a row leave
    the selection that the one filter on the intersection of the two
    ranges leaves. *)
Theorem year_range_filters_compose (a b c d : Z) (self : ODIE) :
  ids_are_positions (events self) →
  idx self = indices.build_indices (events self) →
  active_ids (state (filter_year_range a b (filter_year_range c d self)))
  = active_ids (state (filter_year_range (Z.max a c) (Z.min b d) self)).
Proof.
  intros Hpos Hidx.
  pose proof (fun ids y1 y2 =>
    filtered_selection (events self) Hpos (FilterYearRange y1 y2) ids I) as Hsel.
  simpl in Hsel. unfold filter_year_range. simpl. rewrite Hidx.
  destruct (Hsel (active_ids (state self)) c d) as [Hs1 Hm1].
  destruct (Hsel (dsa.intersect_sorted (py.sorted Z.ltb (active_ids (state self)))
                    (indices.year_range_ids (indices.build_indices (events self)) c d))
              a b) as [Hs2 Hm2].
  destruct (Hsel (active_ids (state self)) (Z.max a c) (Z.min b d)) as [Hs3 Hm3].
  apply StronglySorted_lt_ext; [done|done|].
  intros i. rewrite Hm2, Hm1, Hm3. unfold record_at.
  split.
  - intros [[Hi (e & He & H0 & Hy)] (e' & He' & _ & Hy')].
    split; [done|]. exists e. split; [done|]. split; [done|]. simpl in *.
    assert (e' = e) as -> by congruence. lia.
  - intros [Hi (e & He & H0 & Hy)]. simpl in *.
    split; [split; [done|]|]; exists e; (split; [done|]; split; [done|lia]).
Qed.

Lemma year_range_filters_compose_witness :
  ids_are_positions (events demo_engine)
  ∧ idx demo_engine = indices.build_indices (events demo_engine)
  ∧ active_ids (state (filter_year_range 1990 2003
                         (filter_year_range 2000 2010 demo_engine)))
    = active_ids (state (filter_year_range (Z.max 1990 2000) (Z.min 2003 2010)
                           demo_engine)).
Proof.
  refine (conj demo_ids_are_positions (conj demo_idx_built _)).
  apply (year_range_filters_compose 1990 2003 2000 2010 demo_engine
           demo_ids_are_positions demo_idx_built).
Defined.

Lemma sorted_nil_perm (l : list Z) : l ≡ₚ [] → l = [].
Proof. intros Hl. by apply Permutation_nil_r in Hl. Qed.

(** X15. With the indices built from the events, a filter on a country or
    a type that no event has, or on a range of years that holds the year of
    no event (an empty range, for one), does not raise: it leaves the empty
    selection, whatever the ids of the events are. *)
Theorem filter_without_match_empties `{PyRuntime} (op : filter_op) (self : ODIE) :
  idx self = indices.build_indices (events self) →
  index_filter op →
  (∀ e, e ∈ events self → ¬ selects op e) →
  active_ids (state (apply_filter op self)) = [].
Proof.
  intros Hidx Hop Hnone.
  destruct (apply_index_filter op self Hop) as (-> & _ & _). rewrite Hidx.
  assert (filter (selects op) (events self) = []) as Hf.
  { rewrite (filter_ext_elem _ (fun _ => False)); [apply filter_False|].
    intros e He. split; [by apply Hnone|done]. }
  assert (bucket (indices.build_indices (events self)) op = []) as ->;
    [|apply intersect_sorted_nil_r].
  destruct op as [|c|t|y1 y2|]; try done.
  - etrans; [apply build_indices_by_country|].
    exact (f_equal (fun l => py.sorted Z.ltb (event_id <$> l)) Hf).
  - etrans; [apply build_indices_by_type|].
    exact (f_equal (fun l => py.sorted Z.ltb (event_id <$> l)) Hf).
  - destruct (year_range_ids_spec (events self) y1 y2) as [_ Hp].
    apply sorted_nil_perm. etrans; [exact Hp|].
    exact (eq_ind_r (fun l => event_id <$> l ≡ₚ []) (reflexivity _) Hf).
Qed.

Lemma filter_without_match_empties_witness :
  idx demo_engine = indices.build_indices (events demo_engine)
  ∧ index_filter (FilterYearRange 2003 2002)
  ∧ (∀ e, e ∈ events demo_engine → ¬ selects (FilterYearRange 2003 2002) e)
  ∧ active_ids (state (apply_filter (H := demo_runtime) (FilterYearRange 2003 2002)
                         demo_engine)) = [].
Proof.
  assert (∀ e, e ∈ events demo_engine → ¬ selects (FilterYearRange 2003 2002) e) as Hn.
  { intros e _. simpl. lia. }
  refine (conj demo_idx_built (conj I (conj Hn _))).
  apply (filter_without_match_empties (H := demo_runtime) (FilterYearRange 2003 2002)
           demo_engine demo_idx_built I Hn).
Defined.

(** ** Undo and redo over several steps *)

Lemma redo_undo (self : ODIE) :
  (undo self).1 = true → redo (undo self).2 = (true, self).
Proof.
  destruct self as [ev ix dp cl [ids ls] u r]. unfold undo. simpl.
  destruct (last u) as [top|] eqn:Hu; [|done]. intros _.
  apply last_Some_snoc in Hu. unfold redo. simpl.
  rewrite last_snoc, removelast_last. unfold set_active_ids, set_state. simpl.
  by rewrite <- Hu.
Qed.

Lemma undo_redo (self : ODIE) :
  (redo self).1 = true → undo (redo self).2 = (true, self).
Proof.
  destruct self as [ev ix dp cl [ids ls] u r]. unfold redo. simpl.
  destruct (last r) as [top|] eqn:Hr; [|done]. intros _.
  apply last_Some_snoc in Hr. unfold undo. simpl.
  rewrite last_snoc, removelast_last. unfold set_active_ids, set_state. simpl.
  by rewrite <- Hr.
Qed.

Lemma undo_pops (self : ODIE) (U : list (list Z)) (x : list Z) :
  _undo self = U ++ [x] →
  (undo self).1 = true
  ∧ _undo (undo self).2 = U
  ∧ active_ids (state (undo self).2) = x.
Proof.
  intros Hu. unfold undo. rewrite Hu, last_snoc. simpl.
  by rewrite Hu, removelast_last.
Qed.

Lemma undo_times_S (n : nat) (self : ODIE) :
  undo_times (S n) self = undo_times n (undo self).2.
Proof. unfold undo_times. by rewrite Nat.iter_succ_r. Qed.

(** [n] calls of [undo] take the [n] snapshots on top of the stack, and
    [n] calls of [redo] then give the engine back. *)
Lemma undo_times_spec (snaps : list (list Z)) (self : ODIE) (U : list (list Z)) :
  _undo self = U ++ snaps →
  let r := undo_times (length snaps) self in
  _undo r = U
  ∧ head (snaps ++ [active_ids (state self)]) = Some (active_ids (state r))
  ∧ redo_times (length snaps) r = self.
Proof.
  revert self. induction snaps as [|x snaps IH] using rev_ind; intros self Hu.
  { simpl. by rewrite app_nil_r in Hu. }
  rewrite length_app. simpl. rewrite Nat.add_1_r, undo_times_S.
  rewrite app_assoc in Hu. destruct (undo_pops self _ x Hu) as (Hok & Hu' & Hx).
  destruct (IH (undo self).2 Hu') as (H1 & H2 & H3). cbv zeta.
  split_and!; [done| |].
  - rewrite <- H2, Hx. by destruct snaps.
  - unfold redo_times in *. simpl. rewrite H3. by rewrite redo_undo.
Qed.

Lemma apply_filters_history `{PyRuntime} (ops : list filter_op) (self : ODIE) :
  ∃ snaps,
    length snaps = length ops
    ∧ _undo (apply_filters ops self) = _undo self ++ snaps
    ∧ head (snaps ++ [active_ids (state (apply_filters ops self))])
      = Some (active_ids (state self))
    ∧ (ops ≠ [] → _redo (apply_filters ops self) = []).
Proof.
  revert self. induction ops as [|op ops IH]; intros self.
  { exists []. simpl. by rewrite app_nil_r. }
  destruct (IH (apply_filter op self)) as (snaps & Hlen & Hu & Hh & Hr).
  destruct (apply_filter_history op self) as [Hu1 Hr1].
  exists (active_ids (state self) :: snaps). unfold apply_filters in *. simpl.
  split_and!; [by rewrite Hlen| |done|].
  - by rewrite Hu, Hu1, <- app_assoc.
  - intros _. destruct ops as [|op' ops]; [done|]. by apply Hr.
Qed.

(** X16. After any sequence of [n] mutating filter operations ([reset],
    the three filters, [where], successful or not), [n] calls of [undo]
    bring back the selection and the undo stack of before the sequence,
    and [n] calls of [redo] after them give back the engine exactly as the
    sequence left it; right after a filter operation there is nothing to
    redo: [redo] returns [False] and changes nothing. *)
Theorem undo_all_then_redo_all `{PyRuntime} (ops : list filter_op) (self : ODIE) :
  let after := apply_filters ops self in
  let undone := undo_times (length ops) after in
  active_ids (state undone) = active_ids (state self)
  ∧ _undo undone = _undo self
  ∧ redo_times (length ops) undone = after
  ∧ (ops ≠ [] → redo after = (false, after)).
Proof.
  cbv zeta. destruct (apply_filters_history ops self) as (snaps & Hlen & Hu & Hh & Hr).
  destruct (undo_times_spec snaps _ _ Hu) as (H1 & H2 & H3).
  rewrite Hlen in *. split_and!; [congruence|done|done|].
  intros Hne. unfold redo. by rewrite (Hr Hne).
Qed.

Lemma undo_all_then_redo_all_witness :
  let ops := [FilterCountry "A"; Where "deaths >"; Reset; FilterYearRange 2000 2002] in
  let after := apply_filters (H := demo_runtime) ops demo_engine in
  let undone := undo_times (length ops) after in
  active_ids (state undone) = active_ids (state demo_engine)
  ∧ _undo undone = _undo demo_engine
  ∧ redo_times (length ops) undone = after
  ∧ (ops ≠ [] → redo after = (false, after)).
Proof.
  apply (undo_all_then_redo_all (H := demo_runtime)
           [FilterCountry "A"; Where "deaths >"; Reset; FilterYearRange 2000 2002]
           demo_engine).
Defined.

(** ** The parser accepts the grammar and nothing else *)

Lemma token_of_canonical (prev : option ascii) (s v r : string) (g : query_lang.group) :
  query_lang.match_alternatives prev s = Some (g, v, r) →
  canonical (query_lang.token_of g v).
Proof.
  unfold query_lang.match_alternatives, query_lang.match_paren.
  destruct g; unfold canonical; simpl; try done.
  - destruct s as [|c s]; [by repeat case_match|].
    destruct (Ascii.eqb c "("); [by intros [= <- _]|]. by repeat case_match.
  - destruct s as [|c s]; [by repeat case_match|].
    destruct (Ascii.eqb c "("); [done|].
    destruct (Ascii.eqb c ")"); [by intros [= <- _]|]. by repeat case_match.
  - intros _. by repeat case_match.
Qed.

Lemma tokenize_loop_canonical (fuel : nat) (prev : option ascii) (s : string)
    (toks : list Token) :
  query_lang.tokenize_loop fuel prev s = Ok toks → Forall canonical toks.
Proof.
  revert prev s toks. induction fuel as [|fuel IH]; intros prev s toks; simpl.
  { by intros [= <-]. }
  destruct s as [|c s]; [by intros [= <-]|].
  unfold query_lang.token_re_match.
  destruct (query_lang.span query_lang.is_space (String c s)) as [ws s1].
  destruct (query_lang.match_alternatives _ s1) as [[[g v] s2]|] eqn:Hm; [|done].
  destruct (query_lang.span query_lang.is_space s2) as [ws' s3].
  intros Ht. bind_inv Ht as out Hout. injection Ht as <-.
  constructor; [by eapply token_of_canonical|by eapply IH].
Qed.

Section Soundness.
Context `{PyRuntime}.

Lemma parse_comparison_tokens (toks : list Token) (n : Node) (rest : list Token) :
  query_lang.parse_comparison toks = Ok (n, rest) →
  ∃ c, toks = c ++ rest ∧ comparison_tokens c n.
Proof.
  unfold query_lang.parse_comparison. intros Hp.
  bind_inv Hp as p1 H1. destruct p1 as [f toks1].
  apply take_Ok in H1 as [-> Hf].
  bind_inv Hp as p2 H2. destruct p2 as [op toks2].
  destruct (query_lang.match_ [NUMBER; STRING; IDENT] toks2) as [[v|] toks3] eqn:H3;
    [|done].
  apply match_Some in H3 as [-> Hv].
  bind_inv Hp as val Hval. injection Hp as <- <-.
  destruct (query_lang.match_ [CONTAINS] toks1) as [[t|] toks'] eqn:Hm.
  - apply match_Some in Hm as [-> Hk%list_elem_of_singleton].
    injection H2 as <- ->.
    exists [f; t; v]. split; [done|]. exists f, t, v, val.
    split_and!; [done|done|by right|done|done|]. by rewrite decide_True.
  - apply match_None in Hm as [-> Hk].
    bind_inv H2 as p3 H4. destruct p3 as [t toks4].
    apply take_Ok in H4 as [-> Ht]. injection H2 as <- ->.
    exists [f; t; v]. split; [done|]. exists f, t, v, val.
    split_and!; [done|done|by left|done|done|].
    rewrite decide_False; [done|]. by rewrite Ht.
Qed.

Lemma comparison_tokens_phrase (c : list Token) (n : Node) :
  comparison_tokens c n ↔ comparison_phrase c n.
Proof.
  split.
  - intros (f & op & v & val & -> & Hf & Hop & Hv & Hval & ->) rest.
    unfold query_lang.parse_comparison, query_lang.take, query_lang.match_. simpl.
    rewrite (decide_True (P := tkind f = IDENT)) by done. simpl.
    destruct (decide (tkind op = CONTAINS)) as [Hc|Hc].
    + rewrite decide_True by set_solver. simpl.
      rewrite decide_True by done. simpl. by rewrite Hval.
    + destruct Hop as [Hop|Hop]; [|done].
      rewrite decide_False by set_solver. simpl.
      rewrite (decide_True (P := tkind op = OP)) by done. simpl.
      rewrite decide_True by done. simpl. by rewrite Hval.
  - intros Hc. destruct (parse_comparison_tokens _ _ _ (Hc [])) as (c' & Heq & Hc').
    rewrite !app_nil_r in Heq. by subst.
Qed.

(** A parser whose results are phrases at the level of expressions. *)
Let sound (lv : level) (P : query_lang.parser Node) : Prop :=
  ∀ toks n rest, Forall canonical toks → P toks = Ok (n, rest) →
    ∃ pre, toks = pre ++ rest ∧ phrase lv pre n.

Section Step.
Context (P : query_lang.parser Node) (HP : sound LExpr P).

Lemma parse_factor_sound : sound LFactor (query_lang.parse_factor P).
Proof.
  intros toks n rest Hcan. unfold query_lang.parse_factor.
  destruct (query_lang.match_ [LPAREN] toks) as [[t|] toks'] eqn:Hm.
  - apply match_Some in Hm as [-> Hk%list_elem_of_singleton]. intros Hp.
    apply Forall_cons in Hcan as [Ht Hcan]. unfold canonical in Ht.
    rewrite Hk in Ht. subst t.
    bind_inv Hp as p1 H1. destruct p1 as [node toks1].
    destruct (HP _ _ _ Hcan H1) as (pre & -> & Hph).
    bind_inv Hp as p2 H2. destruct p2 as [t2 toks2].
    apply take_Ok in H2 as [-> Hk2]. injection Hp as <- <-.
    apply Forall_app in Hcan as [_ Hcan]. apply Forall_cons in Hcan as [Ht2 _].
    unfold canonical in Ht2. rewrite Hk2 in Ht2. subst t2.
    exists (tLPAREN :: pre ++ [tRPAREN]). split.
    + simpl. by rewrite <- app_assoc.
    + by constructor.
  - apply match_None in Hm as [-> _]. intros Hp.
    destruct (parse_comparison_tokens _ _ _ Hp) as (c & -> & Hc).
    exists c. split; [done|]. constructor. by apply comparison_tokens_phrase.
Qed.

Lemma parse_term_loop_sound (k : nat) (pre0 : list Token) (node : Node)
    (toks : list Token) (n : Node) (rest : list Token) :
  Forall canonical toks → phrase LTerm pre0 node →
  query_lang.parse_term_loop P k node toks = Ok (n, rest) →
  ∃ pre, toks = pre ++ rest ∧ phrase LTerm (pre0 ++ pre) n.
Proof.
  revert pre0 node toks. induction k as [|k IH]; intros pre0 node toks Hcan Hph; simpl.
  { intros [= <- <-]. exists []. by rewrite app_nil_r. }
  destruct (query_lang.match_ [AND] toks) as [[t|] toks'] eqn:Hm.
  - apply match_Some in Hm as [-> Hk%list_elem_of_singleton]. intros Hp.
    apply Forall_cons in Hcan as [Ht Hcan]. unfold canonical in Ht.
    rewrite Hk in Ht. subst t.
    bind_inv Hp as p1 H1. destruct p1 as [rhs toks1].
    destruct (parse_factor_sound _ _ _ Hcan H1) as (f & -> & Hf).
    apply Forall_app in Hcan as [_ Hcan].
    destruct (IH (pre0 ++ tAND :: f) (And node rhs) toks1 Hcan) as (pre & -> & Hpre);
      [by constructor|done|].
    exists (tAND :: f ++ pre). split; [simpl; by rewrite <- app_assoc|].
    by rewrite <- app_assoc in Hpre.
  - apply match_None in Hm as [-> _]. intros [= <- <-].
    exists []. by rewrite app_nil_r.
Qed.

Lemma parse_term_sound : sound LTerm (query_lang.parse_term P).
Proof.
  intros toks n rest Hcan. unfold query_lang.parse_term. intros Hp.
  bind_inv Hp as p1 H1. destruct p1 as [node toks1].
  destruct (parse_factor_sound _ _ _ Hcan H1) as (f & -> & Hf).
  apply Forall_app in Hcan as [_ Hcan].
  destruct (parse_term_loop_sound (length toks1) f node toks1 n rest Hcan)
    as (pre & -> & Hpre); [by constructor|done|].
  exists (f ++ pre). by rewrite <- app_assoc.
Qed.

Lemma parse_expr_loop_sound (k : nat) (pre0 : list Token) (node : Node)
    (toks : list Token) (n : Node) (rest : list Token) :
  Forall canonical toks → phrase LExpr pre0 node →
  query_lang.parse_expr_loop P k node toks = Ok (n, rest) →
  ∃ pre, toks = pre ++ rest ∧ phrase LExpr (pre0 ++ pre) n.
Proof.
  revert pre0 node toks. induction k as [|k IH]; intros pre0 node toks Hcan Hph; simpl.
  { intros [= <- <-]. exists []. by rewrite app_nil_r. }
  destruct (query_lang.match_ [OR] toks) as [[t|] toks'] eqn:Hm.
  - apply match_Some in Hm as [-> Hk%list_elem_of_singleton]. intros Hp.
    apply Forall_cons in Hcan as [Ht Hcan]. unfold canonical in Ht.
    rewrite Hk in Ht. subst t.
    bind_inv Hp as p1 H1. destruct p1 as [rhs toks1].
    destruct (parse_term_sound _ _ _ Hcan H1) as (f & -> & Hf).
    apply Forall_app in Hcan as [_ Hcan].
    destruct (IH (pre0 ++ tOR :: f) (Or node rhs) toks1 Hcan) as (pre & -> & Hpre);
      [by constructor|done|].
    exists (tOR :: f ++ pre). split; [simpl; by rewrite <- app_assoc|].
    by rewrite <- app_assoc in Hpre.
  - apply match_None in Hm as [-> _]. intros [= <- <-].
    exists []. by rewrite app_nil_r.
Qed.

Lemma parse_expr_body_sound : sound LExpr (query_lang.parse_expr_body P).
Proof.
  intros toks n rest Hcan. unfold query_lang.parse_expr_body. intros Hp.
  bind_inv Hp as p1 H1. destruct p1 as [node toks1].
  destruct (parse_term_sound _ _ _ Hcan H1) as (f & -> & Hf).
  apply Forall_app in Hcan as [_ Hcan].
  destruct (parse_expr_loop_sound (length toks1) f node toks1 n rest Hcan)
    as (pre & -> & Hpre); [by constructor|done|].
  exists (f ++ pre). by rewrite <- app_assoc.
Qed.
End Step.

Lemma parse_expr_sound (fuel : nat) : sound LExpr (query_lang.parse_expr fuel).
Proof.
  induction fuel as [|fuel IH]; [done|]. simpl. by apply parse_expr_body_sound.
Qed.

Lemma parse_tokens_sound (toks : list Token) (n : Node) :
  Forall canonical toks → query_lang.parse_tokens toks = Ok n → phrase LExpr toks n.
Proof.
  intros Hcan. unfold query_lang.parse_tokens. intros Hp.
  bind_inv Hp as p1 H1. destruct p1 as [node rest].
  destruct rest as [|t rest]; [|done]. injection Hp as <-.
  destruct (parse_expr_sound _ _ _ _ Hcan H1) as (pre & -> & Hph).
  by rewrite app_nil_r.
Qed.

(** The tokens of a phrase: no phrase is empty, and its parentheses are
    balanced. *)
Lemma phrase_tokens (lv : level) (toks : list Token) (n : Node) :
  phrase lv toks n →
  (3 ≤ length toks)%nat ∧ count_kind LPAREN toks = count_kind RPAREN toks.
Proof.
  unfold count_kind.
  induction 1 as [c n Hc|e n He [IH1 IH2]|f n Hf IHf|t f n1 n2 Ht [IHt1 IHt2] Hf [IHf1 IHf2]
                  |t n Ht IHt|e t n1 n2 He [IHe1 IHe2] Ht [IHt1 IHt2]]; try done.
  - apply comparison_tokens_phrase in Hc
      as (f & op & v & val & -> & Hf & Hop & Hv & _).
    split; [simpl; lia|].
    rewrite !filter_cons, !filter_nil.
    rewrite !decide_False; [done|..]; try (rewrite Hf; done);
      try (destruct Hop as [-> | ->]; done);
      intros Heq; rewrite Heq in Hv; set_solver.
  - split; [simpl; rewrite length_app; simpl; lia|].
    rewrite !filter_cons, !filter_app, !filter_cons, !filter_nil. simpl.
    rewrite !length_app. simpl. lia.
  - split; [rewrite length_app; simpl; lia|].
    rewrite !filter_app, !filter_cons. simpl. rewrite !length_app. lia.
  - split; [rewrite length_app; simpl; lia|].
    rewrite !filter_app, !filter_cons. simpl. rewrite !length_app. lia.
Qed.
End Soundness.

(** X17. [parse] returns a tree for exactly the strings that tokenize to
    a phrase of the grammar of the module's header ([expr := term (OR
    term)*], [term := factor (AND factor)*], [factor := comparison |
    ( expr )], [comparison := IDENT (OP | contains) VALUE]), and the tree
    is the one of the phrase, built to the left. *)
Theorem parse_accepts_exactly_the_grammar `{PyRuntime} (s : string) (n : Node) :
  (query_lang.parse s = Ok n
   ↔ ∃ toks, query_lang.tokenize s = Ok toks ∧ phrase LExpr toks n)
  ∧ (∀ c m, comparison_phrase c m ↔ comparison_tokens c m).
Proof.
  split; [|intros c m; symmetry; apply comparison_tokens_phrase].
  unfold query_lang.parse. split.
  - intros Hp. bind_inv Hp as toks Ht. exists toks. split; [done|].
    apply parse_tokens_sound; [|done]. by eapply tokenize_loop_canonical.
  - intros (toks & -> & Hph). simpl. by apply phrase_parse_tokens.
Qed.

(** X18. [parse] never accepts a string with no token, with fewer than
    three tokens, or with unbalanced parentheses: when it returns, the
    string has at least three tokens, and as many opening as closing
    parentheses. *)
Theorem parse_needs_balanced_tokens `{PyRuntime} (s : string) (n : Node) :
  query_lang.parse s = Ok n →
  ∃ toks,
    query_lang.tokenize s = Ok toks
    ∧ (3 ≤ length toks)%nat
    ∧ count_kind LPAREN toks = count_kind RPAREN toks.
Proof.
  unfold query_lang.parse. intros Hp. bind_inv Hp as toks Ht.
  exists toks. split; [done|]. eapply phrase_tokens.
  apply parse_tokens_sound; [|done]. by eapply tokenize_loop_canonical.
Qed.

Lemma parse_needs_balanced_tokens_witness :
  query_lang.parse (H := demo_runtime) "(year >= 2000 or deaths > 5) and country == A"
  = Ok (And (Or (Cmp "year" ">=" (VInt 2000)) (Cmp "deaths" ">" (VInt 5)))
            (Cmp "country" "==" (VStr "A")))
  ∧ ∃ toks,
      query_lang.tokenize "(year >= 2000 or deaths > 5) and country == A" = Ok toks
      ∧ (3 ≤ length toks)%nat
      ∧ count_kind LPAREN toks = count_kind RPAREN toks.
Proof.
  assert (query_lang.parse (H := demo_runtime)
            "(year >= 2000 or deaths > 5) and country == A"
          = Ok (And (Or (Cmp "year" ">=" (VInt 2000)) (Cmp "deaths" ">" (VInt 5)))
                    (Cmp "country" "==" (VStr "A")))) as Hp by (by vm_compute).
  refine (conj Hp _).
  apply (parse_needs_balanced_tokens (H := demo_runtime) _ _ Hp).
Defined.

Lemma span_blank (s : string) :
  blank s = true → query_lang.span query_lang.is_space s = (s, EmptyString).
Proof.
  induction s as [|c s IH]; simpl; [done|].
  intros [Hc Hs]%andb_prop. rewrite Hc, (IH Hs). done.
Qed.

(** X19. On the empty string and on a string of blanks [parse] raises
    [ParseError]: the empty string has no token and the parser misses the
    identifier, blanks alone are not matched by the token pattern. *)
Theorem parse_blank_raises `{PyRuntime} (s : string) :
  blank s = true → query_lang.parse s = Raise ParseError.
Proof.
  intros Hs. unfold query_lang.parse, query_lang.tokenize.
  destruct s as [|c s]; [done|].
  cbn [String.length query_lang.tokenize_loop].
  unfold query_lang.token_re_match. rewrite (span_blank _ Hs).
  unfold query_lang.match_alternatives, query_lang.match_kw, query_lang.match_word.
  simpl. by rewrite !andb_false_r.
Qed.

Lemma parse_blank_raises_witness :
  blank "   " = true ∧ query_lang.parse (H := demo_runtime) "   " = Raise ParseError.
Proof.
  split; [done|]. apply (parse_blank_raises (H := demo_runtime) "   " eq_refl).
Defined.

(** ** The date key *)

(** X20. With months and days of at most two digits, [start_date_key]
    orders the events as their start dates (year, month, day) are ordered,
    a missing or zero month or day counting as 1, and two events have the
    same key exactly when they have the same date. *)
Theorem start_date_key_orders_dates (e1 e2 : DisasterEvent) :
  two_digits (start_month e1) → two_digits (start_day e1) →
  two_digits (start_month e2) → two_digits (start_day e2) →
  ((start_date_key e1 < start_date_key e2)%Z ↔ date_lt (date_of e1) (date_of e2))
  ∧ (start_date_key e1 = start_date_key e2 ↔ date_of e1 = date_of e2).
Proof.
  intros Hm1 Hd1 Hm2 Hd2.
  assert (∀ x, two_digits x → or_one x = date_part x ∧ (1 ≤ date_part x ≤ 99)%Z) as Hor.
  { intros [v|] Hx; simpl; [|lia]. specialize (Hx v eq_refl).
    destruct v; simpl; lia. }
  apply Hor in Hm1 as [Em1 Hm1], Hd1 as [Ed1 Hd1], Hm2 as [Em2 Hm2], Hd2 as [Ed2 Hd2].
  unfold start_date_key, date_of, date_lt. rewrite Em1, Ed1, Em2, Ed2. simpl.
  split; [lia|]. split; [intros Hk|intros [= Hy Hm Hd]; lia].
  assert (start_year e1 = start_year e2) as -> by lia.
  assert (date_part (start_month e1) = date_part (start_month e2)) as -> by lia.
  f_equal. lia.
Qed.

Lemma start_date_key_orders_dates_witness :
  two_digits (start_month (dated_event 0 2001 (Some 2%Z) None))
  ∧ two_digits (start_day (dated_event 0 2001 (Some 2%Z) None))
  ∧ two_digits (start_month (dated_event 1 2001 (Some 12%Z) (Some 31%Z)))
  ∧ two_digits (start_day (dated_event 1 2001 (Some 12%Z) (Some 31%Z)))
  ∧ start_date_key (dated_event 0 2001 (Some 2%Z) None) = 20010201%Z
  ∧ start_date_key (dated_event 1 2001 (Some 12%Z) (Some 31%Z)) = 20011231%Z
  ∧ date_of (dated_event 0 2001 (Some 2%Z) None) = (2001, 2, 1)%Z
  ∧ date_of (dated_event 1 2001 (Some 12%Z) (Some 31%Z)) = (2001, 12, 31)%Z
  ∧ (((start_date_key (dated_event 0 2001 (Some 2%Z) None)
       < start_date_key (dated_event 1 2001 (Some 12%Z) (Some 31%Z)))%Z
      ↔ date_lt (date_of (dated_event 0 2001 (Some 2%Z) None))
                (date_of (dated_event 1 2001 (Some 12%Z) (Some 31%Z))))
     ∧ (start_date_key (dated_event 0 2001 (Some 2%Z) None)
        = start_date_key (dated_event 1 2001 (Some 12%Z) (Some 31%Z))
        ↔ date_of (dated_event 0 2001 (Some 2%Z) None)
          = date_of (dated_event 1 2001 (Some 12%Z) (Some 31%Z)))).
Proof.
  assert (∀ n : Z, (0 ≤ n ≤ 99)%Z → two_digits (Some n)) as Hsome.
  { intros n Hn v [= <-]. exact Hn. }
  assert (two_digits None) as Hnone by done.
  assert (two_digits (Some 2%Z)) as H2 by (apply Hsome; lia).
  assert (two_digits (Some 12%Z)) as H12 by (apply Hsome; lia).
  assert (two_digits (Some 31%Z)) as H31 by (apply Hsome; lia).
  refine (conj H2 (conj Hnone (conj H12 (conj H31
            (conj eq_refl (conj eq_refl (conj eq_refl (conj eq_refl _)))))))).
  apply (start_date_key_orders_dates (dated_event 0 2001 (Some 2%Z) None)
           (dated_event 1 2001 (Some 12%Z) (Some 31%Z)) H2 Hnone H12 H31).
Defined.

(** ** Comparisons evaluated by the scan *)

Lemma num_int_eq (a b : Z) : py.num_eq (NInt a) (NInt b) = (a =? b)%Z.
Proof.
  apply eq_true_iff_eq. rewrite num_eq_iff, Z.eqb_eq. simpl.
  split; [apply inject_Z_injective|by intros ->].
Qed.

Lemma num_int_le (a b : Z) : py.num_le (NInt a) (NInt b) = (a <=? b)%Z.
Proof.
  apply eq_true_iff_eq. rewrite num_le_iff, Z.leb_le. simpl. by rewrite <- Zle_Qle.
Qed.

Lemma num_int_lt (a b : Z) : py.num_lt (NInt a) (NInt b) = (a <? b)%Z.
Proof.
  apply eq_true_iff_eq. rewrite num_lt_iff, Z.ltb_lt. simpl. by rewrite <- Zlt_Qlt.
Qed.

Lemma holds_at_record (events : list DisasterEvent) (p : DisasterEvent → bool) (i : Z) :
  (0 ≤ i < Z.of_nat (length events))%Z →
  holds_at events p i = true ↔ record_at events i (fun e => p e = true).
Proof.
  intros Hi. destruct (index_in_range events i Hi) as (e & He & Hl).
  unfold holds_at, record_at. rewrite He. split.
  - intros Hp. exists e. split_and!; [done|lia|done].
  - intros (e' & He' & _ & Hp). congruence.
Qed.

Lemma scan_ext (events : list DisasterEvent) (p q : DisasterEvent → res bool)
    (candidates : list Z) :
  (∀ e, p e = q e) → scan events p candidates = scan events q candidates.
Proof.
  intros Hpq. induction candidates as [|i candidates IH]; [done|].
  simpl. destruct (py.index events i) as [e|]; [|done]. simpl.
  by rewrite Hpq, IH.
Qed.

Section ScanFacts.
Context `{PyRuntime}.

Lemma apply_cmp_fallback (self : ODIE) (field op : string) (value : pyval)
    (candidates : list Z) :
  py.lower field ∉ ["country"; "disaster_type"; "start_year"; "year"]%string →
  _apply_cmp self field op value candidates
  = fallback_scan self field op value candidates.
Proof.
  intros Hf. unfold _apply_cmp, in_names.
  repeat (rewrite bool_decide_eq_false_2; [|set_solver]).
  by rewrite andb_false_r.
Qed.

Lemma get_impact (field : string) (count : DisasterEvent → option Z)
    (e : DisasterEvent) :
  impact_count field = Some count →
  get field e = VNum (int_or (count e) (-1))
  ∧ py.lower field ∉ ["country"; "disaster_type"; "start_year"; "year"]%string.
Proof.
  unfold impact_count, get, in_names. intros Hc.
  destruct (decide (py.lower field ∈ ["total_deaths"; "deaths"]%string)) as [Hd|Hd].
  - rewrite bool_decide_eq_true_2 in Hc by done. injection Hc as <-.
    repeat (apply elem_of_cons in Hd as [->|Hd]); [..|by apply elem_of_nil in Hd];
      (split; [done|by apply (bool_decide_unpack _)]).
  - rewrite bool_decide_eq_false_2 in Hc by done.
    destruct (decide (py.lower field ∈ ["total_affected"; "affected"]%string))
      as [Ha|Ha]; [|by rewrite bool_decide_eq_false_2 in Hc].
    rewrite bool_decide_eq_true_2 in Hc by done. injection Hc as <-.
    repeat (apply elem_of_cons in Ha as [->|Ha]); [..|by apply elem_of_nil in Ha];
      (split; [done|by apply (bool_decide_unpack _)]).
Qed.
End ScanFacts.

(** X21. A comparison of the death count or of the number of people
    affected with an integer, by any of the six comparison operators,
    does not raise on candidates that are valid ids: it returns, in
    ascending order, the candidates whose record satisfies the comparison,
    a record without a count being compared as [-1]. *)
Theorem impact_comparison_selects `{PyRuntime} (self : ODIE) (field op : string)
    (v : Z) (candidates : list Z) (count : DisasterEvent → option Z) :
  impact_count field = Some count →
  op ∈ ["=="; "!="; ">="; "<="; ">"; "<"]%string →
  valid_ids (events self) candidates →
  ∃ r,
    _eval_node self (Cmp field op (VInt v)) candidates = Ok r
    ∧ StronglySorted Z.le r
    ∧ ∀ i, i ∈ r ↔ i ∈ candidates
                   ∧ record_at (events self) i
                       (fun e => int_cmp op (default (-1)%Z (count e)) v = true).
Proof.
  intros Hc Hop Hvalid. simpl.
  rewrite apply_cmp_fallback
    by (by destruct (get_impact field count (demo_event 0 "" "" 0 None) Hc)).
  unfold fallback_scan.
  assert (∃ pred, _make_predicate field op (VInt v) = Ok pred
                  ∧ ∀ e, pred e = Ok (int_cmp op (default (-1)%Z (count e)) v))
    as (pred & -> & Hpred).
  { unfold _make_predicate, int_cmp.
    assert (∀ e, get field e = VNum (int_or (count e) (-1))) as Hg
      by (intros e; by destruct (get_impact field count e Hc)).
    repeat (apply elem_of_cons in Hop as [->|Hop]); [..|by apply elem_of_nil in Hop];
      simpl; eexists; (split; [done|]); intros e; simpl; rewrite Hg;
      unfold VInt, int_or, py.py_ge, py.py_le, py.py_gt, py.py_lt, py.py_order,
        py.num_ge, py.num_gt; simpl;
      by rewrite ?num_int_eq, ?num_int_le, ?num_int_lt. }
  simpl. rewrite (scan_ext _ _ _ _ Hpred), scan_pure by done.
  simpl. eexists. split; [done|].
  split; [apply sorted_Z_sorted|].
  intros i. rewrite elem_of_sorted, list_elem_of_filter.
  split.
  - intros [Hh Hi]. split; [done|]. apply holds_at_record; [|done].
    unfold valid_ids in Hvalid. rewrite Forall_forall in Hvalid. by apply Hvalid.
  - intros [Hi Hr]. split; [|done]. apply holds_at_record; [|done].
    unfold valid_ids in Hvalid. rewrite Forall_forall in Hvalid. by apply Hvalid.
Qed.

Lemma impact_comparison_selects_witness :
  impact_count "Deaths" = Some total_deaths
  ∧ ">"%string ∈ ["=="; "!="; ">="; "<="; ">"; "<"]%string
  ∧ valid_ids (events demo_engine) [3; 1; 0; 2]%Z
  ∧ ∃ r,
      _eval_node (H := demo_runtime) demo_engine (Cmp "Deaths" ">" (VInt 5))
        [3; 1; 0; 2]%Z = Ok r
      ∧ StronglySorted Z.le r
      ∧ ∀ i, i ∈ r ↔ i ∈ [3; 1; 0; 2]%Z
                     ∧ record_at (events demo_engine) i
                         (fun e => int_cmp ">" (default (-1)%Z (total_deaths e)) 5
                                   = true).
Proof.
  assert (impact_count "Deaths" = Some total_deaths) as Hc by done.
  assert (">"%string ∈ ["=="; "!="; ">="; "<="; ">"; "<"]%string) as Hop by set_solver.
  assert (valid_ids (events demo_engine) [3; 1; 0; 2]%Z) as Hv.
  { unfold valid_ids. vm_compute. repeat constructor; congruence. }
  refine (conj Hc (conj Hop (conj Hv _))).
  apply (impact_comparison_selects (H := demo_runtime) demo_engine "Deaths" ">" 5
           [3; 1; 0; 2]%Z total_deaths Hc Hop Hv).
Defined.

Section TextOrdering.
Context `{PyRuntime}.

Lemma get_text (field : string) (e : DisasterEvent) :
  text_field field →
  (∃ s, get field e = VStr s)
  ∧ py.lower field ∉ ["start_year"; "year"]%string.
Proof.
  unfold text_field, get, in_names. intros Hf.
  repeat (apply elem_of_cons in Hf as [->|Hf]); [..|by apply elem_of_nil in Hf];
    (split; [by eexists|by apply (bool_decide_unpack _)]).
Qed.
End TextOrdering.

(** X22. An ordering comparison ([>=], [<=], [>], [<]) of a text field
    (country, type, subtype, disaster number) with a number raises
    [TypeError] as soon as there is a candidate to test: the first
    candidate, a valid id, is enough. *)
Theorem text_field_ordering_raises `{PyRuntime} (self : ODIE) (field op : string)
    (x : num) (i : Z) (rest : list Z) :
  text_field field →
  op ∈ [">="; "<="; ">"; "<"]%string →
  (0 ≤ i < Z.of_nat (length (events self)))%Z →
  _eval_node self (Cmp field op (VNum x)) (i :: rest) = Raise TypeError.
Proof.
  intros Hf Hop Hi. simpl.
  destruct (index_in_range (events self) i Hi) as (e & He & _).
  destruct (get_text field e Hf) as [[s Hs] Hny].
  unfold _apply_cmp, in_names.
  assert (String.eqb op "==" = false) as ->.
  { repeat (apply elem_of_cons in Hop as [->|Hop]); [..|by apply elem_of_nil in Hop];
      done. }
  cbn [andb]. rewrite bool_decide_eq_false_2 by done.
  unfold fallback_scan, _make_predicate.
  repeat (apply elem_of_cons in Hop as [->|Hop]); [..|by apply elem_of_nil in Hop];
    simpl; rewrite He; simpl; by rewrite Hs.
Qed.

Lemma text_field_ordering_raises_witness :
  text_field "Country"
  ∧ ">"%string ∈ [">="; "<="; ">"; "<"]%string
  ∧ (0 ≤ 2 < Z.of_nat (length (events demo_engine)))%Z
  ∧ _eval_node (H := demo_runtime) demo_engine (Cmp "Country" ">" (VNum (NInt 5)))
      [2; 0]%Z = Raise TypeError.
Proof.
  assert (text_field "Country") as Hf by (unfold text_field; simpl; set_solver).
  assert (">"%string ∈ [">="; "<="; ">"; "<"]%string) as Hop by set_solver.
  assert (0 ≤ 2 < Z.of_nat (length (events demo_engine)))%Z as Hi by (simpl; lia).
  refine (conj Hf (conj Hop (conj Hi _))).
  apply (text_field_ordering_raises (H := demo_runtime) demo_engine "Country" ">"
           (NInt 5) 2 [0]%Z Hf Hop Hi).
Defined.

(** ** Evaluation is pointwise: [And] is the intersection *)

Lemma scan_sub (events : list DisasterEvent) (pred : DisasterEvent → res bool)
    (c c' out : list Z) :
  scan events pred c = Ok out → c' ⊆ c →
  out ⊆ c
  ∧ ∃ out', scan events pred c' = Ok out' ∧ ∀ i, i ∈ out' ↔ i ∈ out ∧ i ∈ c'.
Proof.
  intros Hs Hsub. split.
  { intros i Hi. eapply elem_of_sublist; [exact Hi|by eapply scan_sublist]. }
  assert (∀ i, i ∈ c → ∃ e b, py.index events i = Ok e ∧ pred e = Ok b
                              ∧ (i ∈ out ↔ b = true)) as Hall.
  { clear Hsub c'. revert out Hs. induction c as [|j c IH]; intros out Hs i Hi.
    { by apply elem_of_nil in Hi. }
    simpl in Hs. bind_inv Hs as e He. bind_inv Hs as b Hb. bind_inv Hs as o Ho.
    injection Hs as <-.
    assert (j ∈ o → py.index events j = Ok e → b = true) as Hdup.
    { intros Hj _. apply (scan_sublist _ _ _ _) in Ho as Hsl.
      destruct (IH o eq_refl j) as (e' & b' & He' & Hb' & Hiff).
      - by eapply elem_of_sublist.
      - rewrite He in He'. injection He' as <-. rewrite Hb in Hb'.
        injection Hb' as <-. by apply Hiff. }
    apply elem_of_cons in Hi as [->|Hi].
    - exists e, b. split_and!; [done|done|]. destruct b.
      + split; [done|]. intros _. by left.
      + split; [|done]. intros Hj. by apply Hdup.
    - destruct (IH o eq_refl i Hi) as (e' & b' & He' & Hb' & Hiff).
      exists e', b'. split_and!; [done|done|]. rewrite <- Hiff. destruct b; [|done].
      rewrite elem_of_cons. split; [|by right].
      intros [->|?]; [|done]. apply Hiff. rewrite He in He'. injection He' as <-.
      rewrite Hb in Hb'. by injection Hb' as <-. }
  clear Hs. induction c' as [|j c' IH].
  { exists []. split; [done|]. intros i. set_solver. }
  destruct IH as (out' & Hrun & Hmem); [set_solver|].
  destruct (Hall j) as (e & b & He & Hb & Hiff); [set_solver|].
  simpl. rewrite He. simpl. rewrite Hb. simpl. rewrite Hrun. simpl.
  eexists. split; [done|]. intros i. destruct b.
  - rewrite !elem_of_cons, Hmem. split.
    + intros [->|[? ?]]; [|by auto]. split; [by apply Hiff|by left].
    + intros [Hi [->|Hc]]; [by left|by right].
  - rewrite Hmem, elem_of_cons. split; [intros [? ?]; by auto|].
    intros [Hi [->|Hc]]; [|done]. by apply Hiff in Hi.
Qed.

Lemma intersect_sub (c c' ids : list Z) :
  StronglySorted Z.le ids → c' ⊆ c →
  dsa.intersect_sorted (py.sorted Z.ltb c) ids ⊆ c
  ∧ ∀ i, i ∈ dsa.intersect_sorted (py.sorted Z.ltb c') ids
         ↔ i ∈ dsa.intersect_sorted (py.sorted Z.ltb c) ids ∧ i ∈ c'.
Proof.
  intros Hids Hsub.
  assert (∀ x i, i ∈ dsa.intersect_sorted (py.sorted Z.ltb x) ids ↔ i ∈ x ∧ i ∈ ids)
    as Hmem.
  { intros x i. rewrite elem_of_intersect_sorted; [|apply sorted_Z_sorted|done].
    by rewrite elem_of_sorted. }
  split.
  - intros i Hi. by apply Hmem in Hi as [? _].
  - intros i. rewrite !Hmem. set_solver.
Qed.

Section Pointwise.
Context `{PyRuntime} (self : ODIE).
Hypothesis Hidx : idx self = indices.build_indices (events self).

(** A result that holds, of the candidates and of any part of them, the
    same ids. *)
Let pointwise (eval : list Z → res (list Z)) : Prop :=
  ∀ c c' r, eval c = Ok r → c' ⊆ c →
    r ⊆ c ∧ ∃ r', eval c' = Ok r' ∧ ∀ i, i ∈ r' ↔ i ∈ r ∧ i ∈ c'.

Lemma pointwise_index (ids : list Z) :
  StronglySorted Z.le ids →
  pointwise (fun c => Ok (dsa.intersect_sorted (py.sorted Z.ltb c) ids)).
Proof.
  intros Hids c c' r [= <-] Hsub.
  destruct (intersect_sub c c' ids Hids Hsub) as [H1 H2]. split; [done|].
  by eexists.
Qed.

Lemma pointwise_fallback (f op : string) (v : pyval) :
  pointwise (fallback_scan self f op v).
Proof.
  intros c c' r Hr Hsub. unfold fallback_scan in *.
  bind_inv Hr as pred Hp. bind_inv Hr as out Ho. injection Hr as <-.
  destruct (scan_sub _ _ _ _ _ Ho Hsub) as (Hin & out' & Hrun & Hmem). simpl.
  rewrite Hrun. simpl.
  split; [intros i Hi%elem_of_sorted; by apply Hin|].
  eexists. split; [done|]. intros i. by rewrite !elem_of_sorted.
Qed.

Lemma bucket_sorted :
  (∀ k, StronglySorted Z.le (indices.get (by_country (idx self)) k))
  ∧ (∀ k, StronglySorted Z.le (indices.get (by_type (idx self)) k))
  ∧ (∀ k, StronglySorted Z.le (indices.get (year_to_ids (idx self)) k))
  ∧ (∀ lo hi, StronglySorted Z.le (indices.year_range_ids (idx self) lo hi)).
Proof.
  rewrite Hidx. split_and!; intros.
  - rewrite build_indices_by_country. apply sorted_Z_sorted.
  - rewrite build_indices_by_type. apply sorted_Z_sorted.
  - rewrite build_indices_year_to_ids. apply sorted_Z_sorted.
  - by destruct (year_range_ids_spec (events self) lo hi).
Qed.

Lemma pointwise_cmp (f op : string) (v : pyval) : pointwise (_apply_cmp self f op v).
Proof.
  destruct bucket_sorted as (Hc & Ht & Hy & Hr).
  unfold _apply_cmp.
  destruct (String.eqb op "==" && in_names (py.lower f) ["country"; "disaster_type"]).
  { destruct (String.eqb (py.lower f) "country"); by apply pointwise_index. }
  destruct (in_names (py.lower f) ["start_year"; "year"]);
    [|apply pointwise_fallback].
  destruct (String.eqb op "==").
  { destruct (py_int v) as [y|e]; simpl; [by apply pointwise_index|].
    by intros c c' r. }
  destruct (in_names op [">="; ">"; "<="; "<"]); [|apply pointwise_fallback].
  destruct (years_sorted (idx self)) as [|lo ys].
  { intros c c' r [= <-] _. split; [set_solver|]. exists []. split; [done|]. set_solver. }
  destruct (last (lo :: ys)) as [hi|].
  2:{ intros c c' r [= <-] _. split; [set_solver|]. exists []. split; [done|]. set_solver. }
  destruct (py_int v) as [y|e]; simpl; [|by intros c c' r].
  repeat case_match; simplify_eq; by apply pointwise_index.
Qed.

Lemma pointwise_node (node : Node) : pointwise (_eval_node self node).
Proof.
  induction node as [l IHl rt IHr|l IHl rt IHr|f op v]; [| |apply pointwise_cmp].
  - intros c c' r Hr Hsub. simpl in Hr. bind_inv Hr as x Hx.
    destruct (IHl c c' x Hx Hsub) as (Hxc & x' & Hx' & Hmx).
    destruct (IHr x x' r Hr) as (Hrx & r' & Hr' & Hmr).
    { intros i Hi. by apply Hmx in Hi as [? _]. }
    split; [set_solver|]. exists r'. simpl. rewrite Hx'. simpl.
    split; [done|]. intros i. rewrite Hmr, Hmx. set_solver.
  - intros c c' r Hr Hsub. simpl in Hr. bind_inv Hr as x Hx. bind_inv Hr as y Hy.
    injection Hr as <-.
    destruct (IHl c c' x Hx Hsub) as (Hxc & x' & Hx' & Hmx).
    destruct (IHr c c' y Hy Hsub) as (Hyc & y' & Hy' & Hmy).
    split.
    + intros i Hi%elem_of_union_sorted. set_solver.
    + eexists. simpl. rewrite Hx'. simpl. rewrite Hy'. simpl. split; [done|].
      intros i. rewrite !elem_of_union_sorted, Hmx, Hmy. set_solver.
Qed.

Lemma and_intersection (a b : Node) (c ra rb : list Z) :
  _eval_node self a c = Ok ra → _eval_node self b c = Ok rb →
  ∃ r, _eval_node self (And a b) c = Ok r ∧ ∀ i, i ∈ r ↔ i ∈ ra ∧ i ∈ rb.
Proof.
  intros Ha Hb.
  destruct (pointwise_node a c c ra Ha) as (Hra & _); [done|].
  destruct (pointwise_node b c ra rb Hb Hra) as (_ & r & Hr & Hm).
  exists r. simpl. rewrite Ha. simpl. split; [done|].
  intros i. rewrite Hm. tauto.
Qed.
End Pointwise.

(** X23. With the indices built from the events, the evaluation of a query
    is pointwise, so that the progressive narrowing of [And] is the
    intersection: when both children evaluate on the candidates without
    raising, [And] returns the ids that both return, and, the candidates
    being duplicate-free, the same list whichever child comes first. *)
Theorem and_is_intersection `{PyRuntime} (self : ODIE) (a b : Node)
    (c ra rb : list Z) :
  idx self = indices.build_indices (events self) →
  _eval_node self a c = Ok ra →
  _eval_node self b c = Ok rb →
  ∃ r,
    _eval_node self (And a b) c = Ok r
    ∧ (∀ i, i ∈ r ↔ i ∈ ra ∧ i ∈ rb)
    ∧ (NoDup c → _eval_node self (And b a) c = Ok r).
Proof.
  intros Hidx Ha Hb.
  destruct (and_intersection self Hidx a b c ra rb Ha Hb) as (r & Hr & Hm).
  destruct (and_intersection self Hidx b a c rb ra Hb Ha) as (r2 & Hr2 & Hm2).
  exists r. split_and!; [done|done|]. intros Hnd. rewrite Hr2. f_equal.
  destruct (eval_node_shape _ _ _ _ Hnd Hr) as [Hs _].
  destruct (eval_node_shape _ _ _ _ Hnd Hr2) as [Hs2 _].
  apply StronglySorted_lt_ext; [done|done|].
  intros i. rewrite Hm, Hm2. tauto.
Qed.

Lemma and_is_intersection_witness :
  idx demo_engine = indices.build_indices (events demo_engine)
  ∧ _eval_node (H := demo_runtime) demo_engine (Cmp "country" "==" (VStr "A"))
      [3; 1; 0; 2]%Z = Ok [0; 2; 3]%Z
  ∧ _eval_node (H := demo_runtime) demo_engine (Cmp "deaths" ">" (VInt 5))
      [3; 1; 0; 2]%Z = Ok [2]%Z
  ∧ ∃ r,
      _eval_node (H := demo_runtime) demo_engine
        (And (Cmp "country" "==" (VStr "A")) (Cmp "deaths" ">" (VInt 5)))
        [3; 1; 0; 2]%Z = Ok r
      ∧ (∀ i, i ∈ r ↔ i ∈ [0; 2; 3]%Z ∧ i ∈ [2]%Z)
      ∧ (NoDup [3; 1; 0; 2]%Z →
         _eval_node (H := demo_runtime) demo_engine
           (And (Cmp "deaths" ">" (VInt 5)) (Cmp "country" "==" (VStr "A")))
           [3; 1; 0; 2]%Z = Ok r).
Proof.
  assert (_eval_node (H := demo_runtime) demo_engine (Cmp "country" "==" (VStr "A"))
            [3; 1; 0; 2]%Z = Ok [0; 2; 3]%Z) as Ha by (by vm_compute).
  assert (_eval_node (H := demo_runtime) demo_engine (Cmp "deaths" ">" (VInt 5))
            [3; 1; 0; 2]%Z = Ok [2]%Z) as Hb by (by vm_compute).
  refine (conj demo_idx_built (conj Ha (conj Hb _))).
  apply (and_is_intersection (H := demo_runtime) demo_engine _ _ _ _ _
           demo_idx_built Ha Hb).
Defined.

(** ** A query on the year and the year filter *)

Lemma sorted_last_max (l : list Z) (m : Z) :
  StronglySorted Z.lt l → last l = Some m → ∀ y, y ∈ l → (y ≤ m)%Z.
Proof.
  induction 1 as [|x l Hl IH Hx]; [done|].
  intros Hm y Hy. destruct l as [|x' l'].
  - injection Hm as <-. apply list_elem_of_singleton in Hy. lia.
  - change (last (x :: x' :: l')) with (last (x' :: l')) in Hm.
    apply elem_of_cons in Hy as [->|Hy]; [|by apply IH].
    rewrite Forall_forall in Hx.
    assert (m ∈ x' :: l') as Hin.
    { apply last_Some_snoc in Hm. rewrite Hm. set_solver. }
    specialize (Hx m Hin). lia.
Qed.

Lemma indexed_years_bounds (events : list DisasterEvent) (ymin ymax : Z) (ys : list Z) :
  years_sorted (indices.build_indices events) = ymin :: ys →
  last (ymin :: ys) = Some ymax →
  ∀ e, e ∈ events → (ymin ≤ start_year e ≤ ymax)%Z.
Proof.
  intros Hy Hl e He.
  destruct (build_indices_years_sorted events) as [Hs Hm]. rewrite Hy in Hs, Hm.
  assert (start_year e ∈ ymin :: ys) as Hin by (apply Hm; by exists e).
  split; [|by eapply sorted_last_max].
  apply StronglySorted_inv in Hs as [_ Hs]. rewrite Forall_forall in Hs.
  apply elem_of_cons in Hin as [->|Hin]; [lia|]. specialize (Hs _ Hin). lia.
Qed.

(** X24. On a dataset whose ids are the positions of its events, with the
    indices built from it, the query [year >= a and year <= b] evaluated
    on the selection returns the very list [filter_year_range a b] leaves
    as selection. *)
Theorem year_bounds_query_is_year_filter `{PyRuntime} (self : ODIE) (field : string)
    (a b : Z) :
  ids_are_positions (events self) →
  idx self = indices.build_indices (events self) →
  py.lower field ∈ ["start_year"; "year"]%string →
  _eval_node self (And (Cmp field ">=" (VInt a)) (Cmp field "<=" (VInt b)))
    (active_ids (state self))
  = Ok (active_ids (state (filter_year_range a b self))).
Proof.
  intros Hpos Hidx Hf. simpl.
  assert (∀ op, op ∈ [">="; "<="]%string → op ∈ [">="; ">"; "<="; "<"]%string) as Hop
    by set_solver.
  rewrite year_cmp_unfold by (done || set_solver).
  pose proof (fun ids y1 y2 =>
    filtered_selection (events self) Hpos (FilterYearRange y1 y2) ids I) as Hsel.
  simpl in Hsel. rewrite Hidx in *.
  destruct (years_sorted (indices.build_indices (events self))) as [|ymin ys] eqn:Hy.
  { simpl. rewrite year_cmp_unfold, Hidx, Hy by (done || set_solver).
    f_equal. symmetry. destruct (Hsel (active_ids (state self)) a b) as [Hs Hm].
    apply StronglySorted_lt_ext; [done|constructor|].
    intros i. rewrite Hm. split; [|by intros ?%elem_of_nil].
    intros [_ (e & He & _)]. apply list_elem_of_lookup_2 in He.
    destruct (build_indices_years_sorted (events self)) as [_ Hmem].
    rewrite Hy in Hmem. assert (start_year e ∈ @nil Z) as Hin by (apply Hmem; by exists e).
    by apply elem_of_nil in Hin. }
  destruct (last (ymin :: ys)) as [ymax|] eqn:Hl; [|by apply last_None in Hl].
  pose proof (indexed_years_bounds _ _ _ _ Hy Hl) as Hb.
  unfold year_bounds. simpl.
  rewrite year_cmp_unfold, Hidx, Hy by (done || set_solver).
  rewrite Hl. unfold year_bounds. simpl. f_equal.
  destruct (Hsel (active_ids (state self)) a ymax) as [Hs1 Hm1].
  destruct (Hsel (dsa.intersect_sorted (py.sorted Z.ltb (active_ids (state self)))
                    (indices.year_range_ids (indices.build_indices (events self)) a ymax))
              ymin b) as [Hs2 Hm2].
  destruct (Hsel (active_ids (state self)) a b) as [Hs3 Hm3].
  apply StronglySorted_lt_ext; [done|done|].
  intros i. rewrite Hm2, Hm1, Hm3. unfold record_at. split.
  - intros [[Hi (e & He & H0 & Hy1)] (e' & He' & _ & Hy2)].
    split; [done|]. exists e. split; [done|]. split; [done|].
    assert (e' = e) as -> by congruence. simpl in *. lia.
  - intros [Hi (e & He & H0 & Hy1)].
    pose proof (Hb e (list_elem_of_lookup_2 _ _ _ He)). simpl in *.
    split; [split; [done|]|]; exists e; (split; [done|]; split; [done|lia]).
Qed.

Lemma year_bounds_query_is_year_filter_witness :
  ids_are_positions (events demo_engine)
  ∧ idx demo_engine = indices.build_indices (events demo_engine)
  ∧ py.lower "Year" ∈ ["start_year"; "year"]%string
  ∧ _eval_node (H := demo_runtime) demo_engine
      (And (Cmp "Year" ">=" (VInt 2000)) (Cmp "Year" "<=" (VInt 2003)))
      (active_ids (state demo_engine))
    = Ok (active_ids (state (filter_year_range 2000 2003 demo_engine))).
Proof.
  assert (py.lower "Year" ∈ ["start_year"; "year"]%string) as Hf by (simpl; set_solver).
  refine (conj demo_ids_are_positions (conj demo_idx_built (conj Hf _))).
  apply (year_bounds_query_is_year_filter (H := demo_runtime) demo_engine "Year"
           2000 2003 demo_ids_are_positions demo_idx_built Hf).
Defined.

(** ** The two sorts agree *)

(** X25. For a total, transitive and antisymmetric [<=] on the keys, with
    [>] its negation and [>=] its converse, what [quick_sort] returns has
    the same sequence of keys as what [merge_sort] returns, in either
    direction: they can differ only in the order of records with the same
    key; and [quick_sort] does return when it is left two frames at
    least, and more than the input has records and a call of [key]
    takes. *)
Theorem sorts_agree_on_keys {T K : Type} (key : T → K) (le gt ge : K → K → bool)
    (key_frames frames : nat) (reverse : bool) (arr : list T) :
  total_order le →
  (∀ a b, le a b = true → le b a = true → a = b) →
  (∀ a b, gt a b = negb (le a b)) →
  (∀ a b, ge a b = le b a) →
  (∀ out,
     dsa.quick_sort key le ge key_frames frames reverse arr = Ok out →
     key <$> out = key <$> dsa.merge_sort key le gt reverse arr)
  ∧ ((2 ≤ frames)%nat →
     (length arr + key_frames < frames)%nat →
     ∃ out,
       dsa.quick_sort key le ge key_frames frames reverse arr = Ok out
       ∧ key <$> out = key <$> dsa.merge_sort key le gt reverse arr).
Proof.
  intros [Htot Htrans] Hanti Hgt Hge.
  set (R := fun a b : K => (if reverse then le b a else le a b) = true).
  assert (AntiSymm (=) R) as HR.
  { intros a b. unfold R. destruct reverse; intros; by apply Hanti. }
  assert (∀ out,
            dsa.quick_sort key le ge key_frames frames reverse arr = Ok out →
            key <$> out = key <$> dsa.merge_sort key le gt reverse arr) as Hagree.
  { intros out Hout.
    destruct (quick_sort_outcome key le ge key_frames reverse)
      with (frames := frames) (arr := arr)
      as [(out' & Hrun & Hp & Hs)|[Hrun _]]; [| | |congruence].
    { intros x y. destruct reverse; rewrite ?Hge; apply Htot. }
    { intros x y z. destruct reverse; rewrite ?Hge; eauto. }
    rewrite Hrun in Hout. injection Hout as <-.
    apply (StronglySorted_unique R).
    - eapply (StronglySorted_fmap key _ R); [|exact Hs].
      intros x y Hxy. simpl in Hxy. unfold R. destruct reverse; [by rewrite <- Hge|done].
    - destruct reverse.
      + eapply (StronglySorted_fmap key _ R); [|apply (merge_sort_descending key le gt)].
        * intros x y Hxy. simpl in Hxy. unfold R. rewrite Hgt in Hxy.
          by apply negb_false_iff in Hxy.
        * intros a b. rewrite !Hgt, negb_true_iff, negb_false_iff. intros Hab.
          destruct (Htot a b); [congruence|done].
        * intros a b c. rewrite !Hgt, !negb_false_iff. eauto.
      + destruct arr as [|x0 arr0]; [constructor|].
        eapply (StronglySorted_fmap key _ R);
          [|apply (merge_sort_stable_ascending key le gt Htot Htrans (key x0))].
        by intros x y Hxy.
    - by rewrite Hp, merge_sort_perm. }
  split; [done|]. intros Hf2 Hf.
  destruct (quick_sort_spec key le ge key_frames reverse)
    with (frames := frames) (arr := arr) as (out & Hrun & _).
  { intros x y. destruct reverse; rewrite ?Hge; apply Htot. }
  { intros x y z. destruct reverse; rewrite ?Hge; eauto. }
  { done. }
  { done. }
  exists out. split; [done|]. by apply Hagree.
Qed.

Lemma sorts_agree_on_keys_witness :
  total_order Z.leb
  ∧ (∀ a b, (a <=? b)%Z = true → (b <=? a)%Z = true → a = b)
  ∧ (∀ a b, (a >? b)%Z = negb (a <=? b)%Z)
  ∧ (∀ a b, (a >=? b)%Z = (b <=? a)%Z)
  ∧ ∃ out,
      dsa.quick_sort fst Z.leb Z.geb 1 6 true
        [(2, "x"); (1, "first"); (3, "y"); (1, "second")]%Z = Ok out
      ∧ fst <$> out
        = fst <$> dsa.merge_sort fst Z.leb Z.gtb true
                    [(2, "x"); (1, "first"); (3, "y"); (1, "second")]%Z.
Proof.
  assert (∀ a b, (a <=? b)%Z = true → (b <=? a)%Z = true → a = b) as Hanti.
  { intros a b. rewrite !Z.leb_le. lia. }
  assert (∀ a b, (a >? b)%Z = negb (a <=? b)%Z) as Hgt.
  { intros a b. rewrite Z.gtb_ltb, Z.ltb_antisym. done. }
  assert (∀ a b, (a >=? b)%Z = (b <=? a)%Z) as Hge by (intros; apply Z.geb_leb).
  refine (conj Zleb_total_order (conj Hanti (conj Hgt (conj Hge _)))).
  apply (sorts_agree_on_keys fst Z.leb Z.gtb Z.geb 1 6 true
           [(2, "x"); (1, "first"); (3, "y"); (1, "second")]%Z
           Zleb_total_order Hanti Hgt Hge); simpl; lia.
Defined.

(** ** The ids an evaluation returns are the matching ones *)

Lemma in_cons_eqb (f a : string) (l : list string) :
  bool_decide (f ∈ a :: l) = String.eqb f a || bool_decide (f ∈ l).
Proof.
  apply eq_true_iff_eq. rewrite orb_true_iff, !bool_decide_eq_true, elem_of_cons.
  by rewrite String.eqb_eq.
Qed.

Lemma in_nil_false (f : string) : bool_decide (f ∈ @nil string) = false.
Proof. apply bool_decide_eq_false_2, not_elem_of_nil. Qed.

Lemma year_not_category (f : string) :
  f ∈ ["start_year"; "year"]%string → f ∉ ["country"; "disaster_type"]%string.
Proof. set_unfold. intros [->|[->|[]]] [?|[?|[]]]; discriminate. Qed.

Lemma record_at_iff (events : list DisasterEvent) (i : Z) (P Q : DisasterEvent → Prop) :
  (∀ e, e ∈ events → P e ↔ Q e) → record_at events i P ↔ record_at events i Q.
Proof.
  intros HPQ. unfold record_at.
  split; intros (e & He & Hi & Hp); exists e; (split_and!; [done|done|]);
    apply (HPQ e (list_elem_of_lookup_2 _ _ _ He)); done.
Qed.

Lemma scan_members (events : list DisasterEvent) (pred : DisasterEvent → res bool)
    (c out : list Z) :
  valid_ids events c →
  scan events pred c = Ok out →
  ∀ i, i ∈ out ↔ i ∈ c ∧ record_at events i (fun e => pred e = Ok true).
Proof.
  intros Hv. revert out. induction Hv as [|j c Hj Hv IH]; intros out Hs i.
  { injection Hs as <-. set_solver. }
  simpl in Hs. destruct (index_in_range events j Hj) as (e & He & Hl).
  rewrite He in Hs. simpl in Hs. bind_inv Hs as b Hb. bind_inv Hs as o Ho.
  injection Hs as <-. specialize (IH o eq_refl i).
  assert (record_at events j (fun e => pred e = Ok true) ↔ b = true) as Hrec.
  { unfold record_at. split.
    - intros (e' & He' & _ & Hp). congruence.
    - intros ->. exists e. split_and!; [done|lia|done]. }
  rewrite elem_of_cons. destruct b.
  - rewrite elem_of_cons, IH. split.
    + intros [->|[Hi Hr]]; [split; [by left|by apply Hrec]|split; [by right|done]].
    + intros [[->|Hi] Hr]; [by left|by right].
  - rewrite IH. split; [intros [Hi Hr]; by auto|].
    intros [[->|Hi] Hr]; [|done]. by apply Hrec in Hr.
Qed.

Section Matching.
Context `{PyRuntime}.

Lemma get_field_value (field : string) (e : DisasterEvent) :
  get field e = field_value (py.lower field) e.
Proof.
  unfold get, field_value, getattr, in_names, field_table, lookup_field, opt_int.
  generalize (py.lower field). intros f.
  rewrite !in_cons_eqb, !in_nil_false.
  repeat match goal with
         | |- context [String.eqb f ?s] =>
             destruct (String.eqb_spec f s) as [->|_]; [reflexivity|]; cbn [orb]
         end.
  done.
Qed.

Lemma make_predicate_satisfies (field op : string) (v : pyval)
    (pred : DisasterEvent → res bool) :
  _make_predicate field op v = Ok pred →
  ∀ e, pred e = Ok true ↔ satisfies op (field_value (py.lower field) e) v.
Proof.
  unfold _make_predicate, satisfies. intros Hp e. rewrite <- get_field_value.
  repeat match type of Hp with
         | context [String.eqb op ?s] =>
             destruct (String.eqb_spec op s) as [->|?];
               [injection Hp as <-; split;
                [intros Hq; pick_case;
                 first [exact Hq
                       |injection Hq as Hq; first [exact Hq|by apply negb_true_iff]]
                |intros Hd; destruct_or!; destruct_and?; try discriminate;
                 first [done|f_equal; done|f_equal; by apply negb_true_iff]]|]
         end.
  done.
Qed.

Lemma fallback_members (self : ODIE) (field op : string) (v : pyval) (c r : list Z) :
  valid_ids (events self) c →
  fallback_scan self field op v c = Ok r →
  ∀ i, i ∈ r ↔ i ∈ c ∧ record_at (events self) i
                          (fun e => satisfies op (field_value (py.lower field) e) v).
Proof.
  intros Hv Hr i. unfold fallback_scan in Hr.
  bind_inv Hr as pred Hp. bind_inv Hr as out Ho. injection Hr as <-.
  rewrite elem_of_sorted, (scan_members _ _ _ _ Hv Ho).
  rewrite (record_at_iff _ _ _ (fun e => satisfies op (field_value (py.lower field) e) v));
    [done|].
  intros e _. by apply make_predicate_satisfies.
Qed.
End Matching.

Section MatchingIndexed.
Context `{PyRuntime} (self : ODIE).
Hypothesis Hpos : ids_are_positions (events self).
Hypothesis Hidx : idx self = indices.build_indices (events self).

Lemma index_members (op : filter_op) (c : list Z) (i : Z) :
  index_filter op →
  i ∈ dsa.intersect_sorted (py.sorted Z.ltb c) (bucket (idx self) op)
  ↔ i ∈ c ∧ record_at (events self) i (selects op).
Proof.
  intros Hop. rewrite Hidx.
  by destruct (filtered_selection (events self) Hpos op c Hop).
Qed.

Lemma year_bucket_members (y : Z) (c : list Z) (i : Z) :
  i ∈ dsa.intersect_sorted (py.sorted Z.ltb c)
        (indices.get (year_to_ids (idx self)) y)
  ↔ i ∈ c ∧ record_at (events self) i (fun e => start_year e = y).
Proof.
  rewrite Hidx, build_indices_year_to_ids.
  rewrite elem_of_intersect_sorted; [|apply sorted_Z_sorted..].
  rewrite !elem_of_sorted, elem_of_filtered_ids by done.
  unfold record_at. split.
  - intros [Hc (e & He & Hi & _ & Hy)]. split; [done|]. by exists e.
  - intros [Hc (e & He & Hi & Hy)]. split; [done|]. exists e.
    split_and!; [done|done| |done]. rewrite (Hpos _ _ He). lia.
Qed.

Lemma no_year_no_record (i : Z) (P : DisasterEvent → Prop) :
  years_sorted (idx self) = [] → ¬ record_at (events self) i P.
Proof.
  intros Hy (e & He & _). apply list_elem_of_lookup_2 in He.
  destruct (build_indices_years_sorted (events self)) as [_ Hmem].
  rewrite <- Hidx, Hy in Hmem.
  assert (start_year e ∈ @nil Z) as Hin by (apply Hmem; by exists e).
  by apply elem_of_nil in Hin.
Qed.

Lemma apply_cmp_members (field op : string) (v : pyval) (c r : list Z) :
  valid_ids (events self) c →
  _apply_cmp self field op v c = Ok r →
  ∀ i, i ∈ r ↔ i ∈ c ∧ record_at (events self) i (cmp_matches field op v).
Proof.
  intros Hv Hr i. unfold _apply_cmp, in_names in Hr. unfold cmp_matches.
  cbv zeta in *. remember (py.lower field) as f eqn:Hfield.
  destruct (decide (op = "=="%string ∧ f = "country"%string)) as [[-> ->]|Hn1].
  { simpl in Hr. injection Hr as <-.
    apply (index_members (FilterCountry (py_str v)) c i I). }
  destruct (decide (op = "=="%string ∧ f = "disaster_type"%string)) as [[-> ->]|Hn2].
  { simpl in Hr. injection Hr as <-.
    apply (index_members (FilterType (py_str v)) c i I). }
  assert (String.eqb op "==" && bool_decide (f ∈ ["country"; "disaster_type"]%string)
          = false) as Hfirst.
  { apply andb_false_iff. destruct (String.eqb_spec op "==") as [->|?]; [right|by left].
    apply bool_decide_eq_false_2. set_unfold. naive_solver. }
  rewrite Hfirst in Hr.
  destruct (decide (f ∈ ["start_year"; "year"]%string
                    ∧ op ∈ ["=="; ">="; ">"; "<="; "<"]%string)) as [[Hf Hop]|Hn3].
  - rewrite (bool_decide_eq_true_2 _ Hf) in Hr.
    destruct (String.eqb_spec op "==") as [->|Hne].
    { bind_inv Hr as y Hy. injection Hr as <-. rewrite year_bucket_members.
      apply and_iff_compat_l, record_at_iff. intros e _. split.
      - intros <-. exists (start_year e). split; [done|by left].
      - intros (y' & Hy' & Hs). assert (y' = y) as -> by congruence.
        unfold year_satisfies in Hs. destruct_or!; destruct_and?; done. }
    assert (op ∈ [">="; ">"; "<="; "<"]%string) as Hop4 by (set_unfold; naive_solver).
    rewrite (bool_decide_eq_true_2 _ Hop4) in Hr.
    destruct (years_sorted (idx self)) as [|ymin ys] eqn:Hys.
    { injection Hr as <-. split; [by intros ?%elem_of_nil|].
      intros [_ Hrec]. by apply no_year_no_record in Hrec. }
    destruct (last (ymin :: ys)) as [ymax|] eqn:Hl; [|by apply last_None in Hl].
    bind_inv Hr as z Hz.
    assert (∀ e, e ∈ events self → (ymin ≤ start_year e ≤ ymax)%Z) as Hb.
    { rewrite Hidx in Hys. by apply (indexed_years_bounds _ _ _ _ Hys Hl). }
    assert (∀ lo hi,
              (∀ e, e ∈ events self →
                    (lo ≤ start_year e ≤ hi)%Z ↔ year_satisfies op (start_year e) z) →
              r = dsa.intersect_sorted (py.sorted Z.ltb c)
                    (indices.year_range_ids (idx self) lo hi) →
              i ∈ r ↔ i ∈ c ∧ record_at (events self) i
                                  (fun e => ∃ v0, @Ok Z z = Ok v0
                                                  ∧ year_satisfies op (start_year e) v0))
      as Hrange.
    { intros lo hi Hiff ->. rewrite (index_members (FilterYearRange lo hi) c i I).
      apply and_iff_compat_l, record_at_iff. intros e He. simpl.
      rewrite (Hiff e He). split; [intros Hs; by exists z|].
      intros (z' & Hz' & Hs). by assert (z' = z) as -> by congruence. }
    set_unfold in Hop4.
    destruct Hop4 as [->|[->|[->|[->|[]]]]]; simpl in Hr; injection Hr as Hr;
      (eapply Hrange; [|by symmetry]); intros e He; specialize (Hb e He);
      unfold year_satisfies;
      (split; [intros Hy; pick_case; lia
              |intros Hs; destruct_or!; destruct_and?; try discriminate; lia]).
  - assert (fallback_scan self field op v c = Ok r) as Hscan.
    { destruct (decide (f ∈ ["start_year"; "year"]%string)) as [Hf|Hf].
      - rewrite (bool_decide_eq_true_2 _ Hf) in Hr.
        assert (op ∉ ["=="; ">="; ">"; "<="; "<"]%string) as Hop by naive_solver.
        destruct (String.eqb_spec op "==") as [->|_]; [set_solver|].
        rewrite bool_decide_eq_false_2 in Hr by set_solver. done.
      - by rewrite (bool_decide_eq_false_2 _ Hf) in Hr. }
    subst f. by apply fallback_members.
Qed.
End MatchingIndexed.

Section MatchingNodes.
Context `{PyRuntime} (self : ODIE).
Hypothesis Hpos : ids_are_positions (events self).
Hypothesis Hidx : idx self = indices.build_indices (events self).


Lemma fallback_shape (f op : string) (v : pyval) (c r : list Z) :
  NoDup c → fallback_scan self f op v c = Ok r → StronglySorted Z.lt r.
Proof.
  intros Hc Hr. unfold fallback_scan in Hr.
  bind_inv Hr as pred Hp. bind_inv Hr as out Ho. injection Hr as <-.
  apply scan_sublist in Ho. apply sorted_Z_strict. by eapply sublist_NoDup.
Qed.

Lemma fallback_total (f op : string) (v : pyval) (pred : DisasterEvent → res bool)
    (c : list Z) :
  valid_ids (events self) c →
  _make_predicate f op v = Ok pred →
  (∀ e, ∃ b, pred e = Ok b) →
  ∃ r, fallback_scan self f op v c = Ok r.
Proof.
  intros Hv Hp Htot. unfold fallback_scan. rewrite Hp. simpl.
  rewrite (scan_ext _ pred
             (fun e => Ok (match pred e with Ok b => b | Raise _ => false end))).
  2:{ intros e. by destruct (Htot e) as [b ->]. }
  rewrite scan_pure by done. simpl. by eexists.
Qed.

(** On a comparison the indices serve with a literal of the type of the
    field, a record matches exactly when the value of the field satisfies
    the comparison with the literal, and the predicate of the scan does
    not raise. *)
Lemma served_matches (f op : string) (v : pyval) :
  index_served f op v →
  (∀ e, cmp_matches f op v e ↔ satisfies op (field_value (py.lower f) e) v)
  ∧ ∃ pred, _make_predicate f op v = Ok pred ∧ ∀ e, ∃ b, pred e = Ok b.
Proof.
  unfold cmp_matches, satisfies. cbv zeta.
  intros [(-> & Hf & s & ->)|(Hf & Hop & z & ->)].
  - split.
    2:{ eexists. split; [done|]. intros e. by eexists. }
    intros e. set_unfold in Hf. destruct Hf as [->|[->|[]]]; simpl.
    + split.
      * intros ->. right. left. split; [done|]. apply String.eqb_refl.
      * intros Hs. destruct_or!; destruct_and?; try discriminate.
        by apply String.eqb_eq.
    + split.
      * intros ->. right. left. split; [done|]. apply String.eqb_refl.
      * intros Hs. destruct_or!; destruct_and?; try discriminate.
        by apply String.eqb_eq.
  - assert (∀ e, field_value (py.lower f) e = VInt (start_year e)) as Hval.
    { intros e. set_unfold in Hf. by destruct Hf as [->|[->|[]]]. }
    split.
    2:{ set_unfold in Hop. destruct Hop as [->|[->|[->|[->|[->|[]]]]]];
          (eexists; split; [reflexivity|]); intros e; cbv beta;
          rewrite get_field_value, Hval; by eexists. }
    intros e. rewrite Hval.
    assert (∀ name, name ∈ ["country"; "disaster_type"]%string →
                    ¬ (op = "=="%string ∧ py.lower f = name)) as Hother.
    { intros name Hname [_ Hc]. set_unfold in Hf. set_unfold in Hname.
      destruct Hf as [Hf|[Hf|[]]], Hname as [->|[->|[]]]; congruence. }
    rewrite decide_False by (apply Hother; set_solver).
    rewrite decide_False by (apply Hother; set_solver).
    rewrite decide_True by done.
    unfold year_satisfies, py.py_ge, py.py_le, py.py_gt, py.py_lt, py.py_order, VInt.
    simpl. unfold py.num_ge, py.num_gt.
    rewrite !num_int_eq, !num_int_le, !num_int_lt.
    split.
    + intros (z' & [= <-] & Hs).
      destruct_or!; destruct_and?; subst op.
      * right. left. split; [done|]. by apply Z.eqb_eq.
      * do 3 right. left. split; [done|]. f_equal. by apply Z.leb_le.
      * do 5 right. left. split; [done|]. f_equal. by apply Z.ltb_lt.
      * do 4 right. left. split; [done|]. f_equal. by apply Z.leb_le.
      * do 6 right. split; [done|]. f_equal. by apply Z.ltb_lt.
    + intros Hs. exists z. split; [done|].
      destruct_or!; destruct_and?; subst op;
        try (by set_unfold in Hop; naive_solver).
      * left. split; [done|]. by apply Z.eqb_eq.
      * right. left. split; [done|]. apply Z.leb_le. congruence.
      * do 3 right. left. split; [done|]. apply Z.leb_le. congruence.
      * do 2 right. left. split; [done|]. apply Z.ltb_lt. congruence.
      * do 4 right. split; [done|]. apply Z.ltb_lt. congruence.
Qed.

Lemma served_paths_agree (f op : string) (v : pyval) (c : list Z) :
  valid_ids (events self) c →
  index_served f op v →
  ∃ r r',
    _eval_node self (Cmp f op v) c = Ok r
    ∧ fallback_scan self f op v c = Ok r'
    ∧ (∀ i, i ∈ r ↔ i ∈ r')
    ∧ (∀ i, i ∈ r ↔ i ∈ c ∧ record_at (events self) i
                               (fun e => satisfies op (field_value (py.lower f) e) v))
    ∧ (NoDup c → r = r').
Proof.
  intros Hv Hserved.
  destruct (served_matches f op v Hserved) as (Hiff & pred & Hp & Htot).
  destruct (fallback_total f op v pred c Hv Hp Htot) as (r' & Hr').
  assert (∃ r, _apply_cmp self f op v c = Ok r) as (r & Hr).
  { unfold _apply_cmp, in_names.
    destruct Hserved as [(-> & Hf & s & ->)|(Hf & Hop & z & ->)].
    - rewrite (bool_decide_eq_true_2 _ Hf). simpl. by eexists.
    - rewrite (bool_decide_eq_true_2 _ Hf).
      rewrite (bool_decide_eq_false_2 (py.lower f ∈ ["country"; "disaster_type"]))
        by by apply year_not_category.
      rewrite andb_false_r. simpl.
      destruct (String.eqb_spec op "==") as [->|Hne]; [by eexists|].
      rewrite bool_decide_eq_true_2
        by (set_unfold in Hop; set_unfold; by destruct Hop as [?|Hop]).
      destruct (years_sorted (idx self)) as [|ymin ys]; [by eexists|].
      destruct (last (ymin :: ys)); [|by eexists].
      repeat case_match; by eexists. }
  pose proof (apply_cmp_members self Hpos Hidx f op v c r Hv Hr) as Hm.
  pose proof (fallback_members self f op v c r' Hv Hr') as Hm'.
  assert (∀ i, i ∈ r ↔ i ∈ c ∧ record_at (events self) i
                 (fun e => satisfies op (field_value (py.lower f) e) v)) as Hsat.
  { intros i. rewrite Hm. apply and_iff_compat_l, record_at_iff. intros e _. apply Hiff. }
  exists r, r'. split_and!; [done|done| |done|].
  - intros i. by rewrite Hsat, Hm'.
  - intros Hnd. apply StronglySorted_lt_ext.
    + by destruct (apply_cmp_shape self f op v c r Hnd Hr).
    + by eapply fallback_shape.
    + intros i. by rewrite Hsat, Hm'.
Qed.
End MatchingNodes.

(** ** The contract of the evaluator *)



(** ** The indexed path and the linear scan *)

(** C7, as amended. On a dataset whose event ids are the positions, with
    the indices built from it and valid candidate ids: the indexed
    evaluation of [country == x] returns the same set of ids as the
    explicit linear scan of the candidates for the records whose country
    is [x], and the very list the fallback scan path returns when the
    candidates hold no duplicate (the scan itself when they are
    ascending). The indexed computation of the benchmark returns the same
    list as its naive scan over all events. For every comparison the
    indices serve with a literal of the type of the field (an equality on
    the country or the disaster type with a string, an equality or an
    ordering on the start year with an integer), the indexed path and the
    fallback scan both return, the same set of ids: the candidates whose
    record's field satisfies the comparison with the literal; and the
    same list when the candidates hold no duplicate. *)
Theorem indexed_filter_equals_linear_scan `{PyRuntime} (self : ODIE)
    (field x : string) (candidates : list Z) (country dtype : string) (y1 y2 : Z) :
  ids_are_positions (events self) →
  idx self = indices.build_indices (events self) →
  valid_ids (events self) candidates →
  py.lower field = "country" →
  let linear := linear_scan_country (events self) x candidates in
  (∃ r, _eval_node self (Cmp field "==" (VStr x)) candidates = Ok r
        ∧ (∀ i, i ∈ r ↔ i ∈ linear)
        ∧ (NoDup candidates →
           r = py.sorted Z.ltb linear
           ∧ fallback_scan self field "==" (VStr x) candidates = Ok r)
        ∧ (StronglySorted Z.lt candidates → r = linear))
  ∧ bench_indexed self country dtype y1 y2 = bench_naive self country dtype y1 y2
  ∧ (∀ f op v,
       index_served f op v →
       ∃ r r',
         _eval_node self (Cmp f op v) candidates = Ok r
         ∧ fallback_scan self f op v candidates = Ok r'
         ∧ (∀ i, i ∈ r ↔ i ∈ r')
         ∧ (∀ i, i ∈ r
                 ↔ i ∈ candidates
                   ∧ record_at (events self) i
                       (fun e => satisfies op (field_value (py.lower f) e) v))
         ∧ (NoDup candidates → r = r')).
Proof.
  intros Hpos Hidx Hv Hf. cbv zeta.
  destruct (country_filter_paths self field x candidates country dtype y1 y2
              Hpos Hidx Hv Hf) as [Hcountry Hbench].
  split_and!; [done|done|].
  intros f op v Hserved. by apply served_paths_agree.
Qed.

Lemma indexed_filter_equals_linear_scan_witness :
  ids_are_positions (events demo_engine)
  ∧ idx demo_engine = indices.build_indices (events demo_engine)
  ∧ valid_ids (events demo_engine) [3; 0; 1]%Z
  ∧ py.lower "Country" = "country"
  ∧ bench_indexed demo_engine "A" "Flood" 2000 2010 = [0; 3]%Z
  ∧ index_served "Year" ">" (VInt 2000)
  ∧ _eval_node (H := demo_runtime) demo_engine (Cmp "Year" ">" (VInt 2000)) [3; 0; 1]%Z
    = Ok [0; 3]%Z
  ∧ fallback_scan (H := demo_runtime) demo_engine "Year" ">" (VInt 2000) [3; 0; 1]%Z
    = Ok [0; 3]%Z.
Proof.
  assert (valid_ids (events demo_engine) [3; 0; 1]%Z) as Hv.
  { repeat constructor; simpl; lia. }
  assert (index_served "Year" ">" (VInt 2000)) as Hserved.
  { right. split_and!; [simpl; set_solver|set_solver|by eexists]. }
  destruct (indexed_filter_equals_linear_scan (H := demo_runtime) demo_engine
              "Country" "A" [3; 0; 1]%Z "A" "Flood" 2000 2010
              demo_ids_are_positions eq_refl Hv eq_refl) as (_ & Hbench & Hpaths).
  destruct (Hpaths "Year" ">"%string (VInt 2000) Hserved)
    as (r & r' & Hr & Hr' & _ & _ & Heq).
  assert (r = [0; 3]%Z) as Hval.
  { vm_compute in Hr. by injection Hr as <-. }
  assert (r' = r) as Hsame.
  { symmetry. apply Heq. apply (bool_decide_unpack _). by vm_compute. }
  refine (conj demo_ids_are_positions (conj eq_refl (conj Hv (conj eq_refl
            (conj _ (conj Hserved (conj _ _))))))).
  - rewrite Hbench. by vm_compute.
  - by rewrite <- Hval.
  - by rewrite <- Hval, <- Hsame.
Defined.

(** C7, counterexample. With a literal that is not of the type of the
    field the two paths differ. For [year < 2001.5] the index takes the
    integer part of the literal and keeps the years up to 2000, the scan
    keeps the years up to 2001. For [country == 5] the index looks up the
    string form of the literal and finds the record whose country is the
    string [5], the scan compares a string with a number and finds none. *)
Lemma indexed_and_scan_differ :
  _eval_node (H := demo_runtime) demo_engine (Cmp "year" "<" (VFloat (4003 # 2)))
    [0; 1; 2; 3]%Z = Ok [1]%Z
  ∧ fallback_scan (H := demo_runtime) demo_engine "year" "<" (VFloat (4003 # 2))
      [0; 1; 2; 3]%Z = Ok [0; 1; 2]%Z
  ∧ (let self := new [demo_event 0 "5" "Flood" 2001 None]
                   (indices.build_indices [demo_event 0 "5" "Flood" 2001 None]) in
     _eval_node (H := demo_runtime) self (Cmp "country" "==" (VInt 5)) [0]%Z = Ok [0]%Z
     ∧ fallback_scan (H := demo_runtime) self "country" "==" (VInt 5) [0]%Z = Ok []).
Proof. by vm_compute. Qed.
